(** * Graph layout engines: circular placement and the gForce simulation

    A shallow embedding of [src/layout/circular.ts], [src/layout/gForce.ts]
    and of the re-entrancy guard of the d3 delegation layout
    ([ForceLayout.execute]), followed by the properties stated for them,
    and by further properties of the same code, among them the control
    flow of the d3 delegation layout around d3-force.

    Modelling conventions.
    - A JavaScript [number] that is a coordinate, an angle, a force or a
      configuration value is a real number ([R]): arithmetic is the exact
      one, so rounding, overflow, infinities and NaN are not represented.
      A number used only as a counter or an index is a [nat].
    - [undefined] and [null] are [None]; a value is "falsy" when it is
      [None] or the number zero.
    - Node objects are shared and mutated in place.  The node array is the
      store; a reference to a node object is its index in that array.
    - A [TypeError] (reading a property of [undefined]) makes a function
      return [None]. *)

From Stdlib Require Import Reals Lra Lia.
From stdpp Require Import gmap strings list fin_maps sorting.

Local Open Scope string_scope.
Local Open Scope nat_scope.

(** ** Helpers imported from [../util] *)
Module Util.

#[global] Instance R_eq_dec : EqDecision R := Req_dec_T.
#[global] Instance Rlt_decision : RelDecision Rlt := Rlt_dec.
#[global] Instance Rle_decision : RelDecision Rle := Rle_dec.

(** Truthiness of a [number | null | undefined] value. *)
Definition truthy (v : option R) : bool :=
  match v with Some r => bool_decide (r ≠ 0%R) | None => false end.

(** Modelled from the spec: an edge is incident to the node of index [i]
    when its source or its target is that node (a helper of [getDegree]
    below). *)
Definition incident (nodeIdxMap : gmap string nat)
    (src tgt : string) (i : nat) : bool :=
  bool_decide (nodeIdxMap !! src = Some i) ||
  bool_decide (nodeIdxMap !! tgt = Some i).

(** Modelled from the spec: [getDegree(n, nodeIdxMap, edges)] of [../util]
    is not among the sources.  The glossary defines the degree of a node
    as the count of edges incident to it; the result is the array of the
    degrees of the [n] nodes, by node index. *)
Definition getDegree {E} (src tgt : E → string) (n : nat)
    (nodeIdxMap : gmap string nat) (edges : list E) : list nat :=
  (λ i, length (filter (λ e, incident nodeIdxMap (src e) (tgt e) i) edges))
    <$> seq 0 n.

(** [nodes.forEach((node, i) => { map[node.id] = i; })], started at index
    [i] on the map [m]: a later node takes the entry of an earlier one
    with the same identity. *)
Fixpoint index_by {A} (key : A → string) (i : nat) (nodes : list A)
    (m : gmap string nat) : gmap string nat :=
  match nodes with
  | [] => m
  | n :: l => index_by key (S i) l (<[key n := i]> m)
  end.

(** A [forEach] whose body may throw. *)
Fixpoint forEachM {A S} (f : S → A → option S) (l : list A) (s : S)
    : option S :=
  match l with
  | [] => Some s
  | a :: l' => s' ← f s a; forEachM f l' s'
  end.

(** [Array.prototype.sort(cmp)].  ECMAScript requires the sort to be
    stable; it is modelled as the stable insertion sort: an element goes
    before the first element it does not compare greater than. *)
Fixpoint sort_insert {A} (cmp : A → A → Z) (a : A) (l : list A) : list A :=
  match l with
  | [] => [a]
  | b :: l' =>
      if bool_decide (cmp a b ≤ 0)%Z then a :: l
      else b :: sort_insert cmp a l'
  end.

Definition js_sort {A} (cmp : A → A → Z) (l : list A) : list A :=
  foldr (sort_insert cmp) [] l.

End Util.

(** ** [src/layout/circular.ts] *)
Module Circular.
Import Util.

Record Edge := { source : string; target : string }.

Record INode := {
  id : string;
  x : option R;
  y : option R;
  degree : option nat;
  weight : option nat;
  children : list string;
  parent : list string
}.

Definition set_children (c : list string) (n : INode) : INode :=
  {| id := id n; x := x n; y := y n; degree := degree n;
     weight := weight n; children := c; parent := parent n |}.
Definition set_parent (p : list string) (n : INode) : INode :=
  {| id := id n; x := x n; y := y n; degree := degree n;
     weight := weight n; children := children n; parent := p |}.
Definition set_degree (d : option nat) (n : INode) : INode :=
  {| id := id n; x := x n; y := y n; degree := d;
     weight := weight n; children := children n; parent := parent n |}.
Definition move (px py : R) (n : INode) : INode :=
  {| id := id n; x := Some px; y := Some py; degree := degree n;
     weight := weight n; children := children n; parent := parent n |}.
(** The three assignments that end the placement loop. *)
Definition place (px py : R) (w : option nat) (n : INode) : INode :=
  {| id := id n; x := Some px; y := Some py; degree := degree n;
     weight := w; children := children n; parent := parent n |}.

(** [let idx = 0; if (e.source) idx = nodeMap[e.source];] *)
Definition endpoint_index (nodeMap : gmap string nat) (s : string)
    : option nat :=
  if bool_decide (s = "") then Some 0 else nodeMap !! s.

Definition hierarchy_edge (nodeMap : gmap string nat) (directed : bool)
    (nodes : list INode) (e : Edge) : option (list INode) :=
  sourceIdx ← endpoint_index nodeMap (source e);
  targetIdx ← endpoint_index nodeMap (target e);
  s ← nodes !! sourceIdx;
  t ← nodes !! targetIdx;
  if directed then
    Some (alter (λ n, set_parent (parent n ++ [id s]) n) targetIdx
           (alter (λ n, set_children (children n ++ [id t]) n) sourceIdx
              nodes))
  else
    Some (alter (λ n, set_children (children n ++ [id s]) n) targetIdx
           (alter (λ n, set_children (children n ++ [id t]) n) sourceIdx
              nodes)).

Definition initHierarchy (nodes : list INode) (edges : list Edge)
    (nodeMap : gmap string nat) (directed : bool) : option (list INode) :=
  forEachM (hierarchy_edge nodeMap directed) edges
    ((λ n, set_parent [] (set_children [] n)) <$> nodes).

Definition connect (a b : INode) (edges : list Edge) : bool :=
  existsb (λ e,
    (bool_decide (id a = source e) && bool_decide (id b = target e)) ||
    (bool_decide (id b = source e) && bool_decide (id a = target e)))
    edges.

(** [a < b] and [a > b] on [number | undefined]: false as soon as one
    side is [undefined]. *)
Definition compareDegree (a b : INode) : Z :=
  match degree a, degree b with
  | Some da, Some db =>
      if bool_decide (da < db) then (-1)%Z
      else if bool_decide (db < da) then 1%Z else 0%Z
  | _, _ => 0%Z
  end.

(** *** topologyOrdering *)

(** The loop state: [orderedCNodes] holds indices of the cloned array,
    [resNodes] references into the original one ([None]: [undefined]),
    [pickFlags] the indices whose flag is [true]. *)
Record TopoState := {
  orderedCNodes : list nat;
  resNodes : list (option nat);
  pickFlags : gset nat;
  k : nat
}.

(** [nodes[nodeMap[ident]]] as a reference. *)
Definition node_ref (n : nat) (nodeMap : gmap string nat) (ident : string)
    : option nat :=
  j ← nodeMap !! ident; if bool_decide (j < n) then Some j else None.

Definition pick (cnodes : list INode) (nodeMap : gmap string nat)
    (idx : nat) (bump : bool) (st : TopoState) : option TopoState :=
  c ← cnodes !! idx;
  Some {| orderedCNodes := orderedCNodes st ++ [idx];
          resNodes := resNodes st ++ [node_ref (length cnodes) nodeMap (id c)];
          pickFlags := {[idx]} ∪ pickFlags st;
          k := if bump then S (k st) else k st |}.

(** One round of the [forEach] over the cloned nodes.  [orderedCNodes[k]]
    is read once, ahead of the tests that use it: [k] never runs past the
    end of the array.  The clones are as many as the nodes, so [n] is
    their number. *)
Definition topo_step (degrees : list nat) (edges : list Edge)
    (cnodes : list INode) (nodeMap : gmap string nat)
    (st : TopoState) (i : nat) : option TopoState :=
  let n := length cnodes in
  if bool_decide (i = 0) then Some st else
  cnode ← cnodes !! i;
  last ← orderedCNodes st !! k st ≫= (cnodes !!.);
  if (bool_decide (i = n - 1)
      || bool_decide (degrees !! i ≠ degrees !! (i + 1))
      || connect last cnode edges)
     && bool_decide (i ∉ pickFlags st)
  then pick cnodes nodeMap i true st
  else
    match
      find (λ c, match nodeMap !! c with
                 | Some childIdx =>
                     bool_decide (degrees !! childIdx = degrees !! i)
                     && bool_decide (childIdx ∉ pickFlags st)
                 | None => bool_decide (degrees !! i = None)
                 end)
           (children last)
    with
    | Some c =>
        childIdx ← nodeMap !! c; pick cnodes nodeMap childIdx false st
    | None =>
        match find (λ ii, bool_decide (ii ∉ pickFlags st)) (seq 0 n) with
        | Some ii => pick cnodes nodeMap ii false st
        | None => Some st
        end
    end.

Definition topologyOrdering (degrees : list nat) (edges : list Edge)
    (nodes : list INode) (nodeMap : gmap string nat) (directed : bool)
    : option (list (option nat)) :=
  cnodes ← initHierarchy nodes edges nodeMap directed;
  st ← forEachM (topo_step degrees edges cnodes nodeMap)
          (seq 0 (length cnodes))
          {| orderedCNodes := [0];
             resNodes := [if bool_decide (0 < length nodes) then Some 0
                          else None];
             pickFlags := {[0]};
             k := 0 |};
  Some (resNodes st).

(** *** degreeOrdering

    Returns the node array with every [degree] field written, and the
    sorted array of references. *)
Definition degreeOrdering (degrees : list nat) (nodes : list INode)
    : list INode * list nat :=
  let nodes' := imap (λ i n, set_degree (degrees !! i) n) nodes in
  (nodes',
   js_sort (λ a b,
      match nodes' !! a, nodes' !! b with
      | Some na, Some nb => compareDegree na nb
      | _, _ => 0%Z
      end) (seq 0 (length nodes))).

(** *** execute *)

Inductive Event := LayoutEnd.

Record Layout := {
  center : option (R * R);
  radius : option R;
  startRadius : option R;
  endRadius : option R;
  startAngle : R;
  endAngle : R;
  clockwise : bool;
  divisions : R;
  ordering : option string;
  angleRatio : R;
  nodes : list INode;
  edges : list Edge;
  nodeMap : gmap string nat;
  degrees : list nat;
  width : R;
  height : R;
  onLayoutEnd : bool   (* is a callback installed *)
}.

(** [if (self.onLayoutEnd) self.onLayoutEnd();] *)
Definition fire_onLayoutEnd (self : Layout) : list Event :=
  if onLayoutEnd self then [LayoutEnd] else [].

(** [nodes.forEach((node, i) => { nodeMap[node.id] = i; })] *)
Definition index_nodes (i : nat) (nodes : list INode) (m : gmap string nat)
    : gmap string nat :=
  index_by id i nodes m.

(** The remainder [a % b] of two numbers: the sign of the dividend, the
    quotient truncated towards zero. *)
Definition js_rem (a b : R) : R :=
  let q := (a / b)%R in
  (a - b * IZR (if bool_decide (0 <= q)%R then Zfloor q else Zceil q))%R.

(** The radius of the node placed at position [i] of [n]. *)
Definition radius_at (radius startRadius endRadius : option R) (n i : nat)
    : R :=
  let r :=
    if truthy radius then radius else
      match startRadius, endRadius with
      | Some s, Some e => Some (s + (INR i * (e - s)) / (INR n - 1))%R
      | _, _ => radius
      end in
  match r with
  | Some v => if bool_decide (v ≠ 0%R) then v
              else (10 + (INR i * 100) / (INR n - 1))%R
  | None => (10 + (INR i * 100) / (INR n - 1))%R
  end.

Definition angle_at (startAngle endAngle astep divisions : R)
    (clockwise : bool) (divN : R) (i : nat) : R :=
  let turn := (((2 * PI) / divisions) * IZR (Zfloor (INR i / divN)))%R in
  if clockwise then (startAngle + js_rem (INR i) divN * astep + turn)%R
  else (endAngle - js_rem (INR i) divN * astep - turn)%R.

(** The state of the configuration fields when the placement loop starts,
    the node array and the array of references being laid out. *)
Definition place_at (cx cy : R) (radius startRadius endRadius : option R)
    (startAngle endAngle astep divisions : R) (clockwise : bool)
    (degrees : list nat) (n : nat) (layoutNodes : list (option nat))
    (nodes : list INode) (i : nat) : option (list INode) :=
  let divN := IZR (Zceil (INR n / divisions)) in
  let r := radius_at radius startRadius endRadius n i in
  let angle := angle_at startAngle endAngle astep divisions clockwise divN i in
  ref ← mjoin (layoutNodes !! i);
  Some (alter (place (cx + cos angle * r) (cy + sin angle * r) (degrees !! i))
          ref nodes).

Definition set_nodes (ns : list INode) (self : Layout) : Layout :=
  {| center := center self; radius := radius self;
     startRadius := startRadius self; endRadius := endRadius self;
     startAngle := startAngle self; endAngle := endAngle self;
     clockwise := clockwise self; divisions := divisions self;
     ordering := ordering self; angleRatio := angleRatio self;
     nodes := ns; edges := edges self; nodeMap := nodeMap self;
     degrees := degrees self; width := width self; height := height self;
     onLayoutEnd := onLayoutEnd self |}.

(** The fields [execute] assigns before it lays anything out:
    [width], [height] and [center]. *)
Definition resolve_canvas (window : option (R * R)) (self : Layout)
    : Layout :=
  let w := match window with
           | Some (iw, _) => if bool_decide (width self = 0%R) then iw
                             else width self
           | None => width self
           end in
  let h := match window with
           | Some (_, ih) => if bool_decide (height self = 0%R) then ih
                             else height self
           | None => height self
           end in
  {| center := match center self with
               | Some c => Some c
               | None => Some (w / 2, h / 2)%R
               end;
     radius := radius self;
     startRadius := startRadius self; endRadius := endRadius self;
     startAngle := startAngle self; endAngle := endAngle self;
     clockwise := clockwise self; divisions := divisions self;
     ordering := ordering self; angleRatio := angleRatio self;
     nodes := nodes self; edges := edges self; nodeMap := nodeMap self;
     degrees := degrees self; width := w; height := h;
     onLayoutEnd := onLayoutEnd self |}.

Definition set_index (m : gmap string nat) (d : list nat) (self : Layout)
    : Layout :=
  {| center := center self; radius := radius self;
     startRadius := startRadius self; endRadius := endRadius self;
     startAngle := startAngle self; endAngle := endAngle self;
     clockwise := clockwise self; divisions := divisions self;
     ordering := ordering self; angleRatio := angleRatio self;
     nodes := nodes self; edges := edges self; nodeMap := m;
     degrees := d; width := width self; height := height self;
     onLayoutEnd := onLayoutEnd self |}.

(** [radius], [startRadius] and [endRadius] as the placement loop
    finds them. *)
Definition resolve_radii (self : Layout) : option R * option R * option R :=
  let unset := negb (truthy (radius self))
               && negb (truthy (startRadius self))
               && negb (truthy (endRadius self)) in
  let only_end := negb (truthy (startRadius self))
                  && truthy (endRadius self) in
  let only_start := truthy (startRadius self)
                    && negb (truthy (endRadius self)) in
  (if unset then
     Some (if bool_decide (width self < height self)%R
           then width self / 2 else height self / 2)%R
   else radius self,
   if negb unset && only_end then endRadius self else startRadius self,
   if negb unset && negb only_end && only_start then startRadius self
   else endRadius self).

(** The array [layoutNodes] for the configured ordering, with the node
    array as the ordering leaves it. *)
Definition order_nodes (self : Layout)
    : option (list INode * list (option nat)) :=
  if bool_decide (ordering self = Some "topology") then
    res ← topologyOrdering (degrees self) (edges self) (nodes self)
             (nodeMap self) false;
    Some (nodes self, res)
  else if bool_decide (ordering self = Some "topology-directed") then
    res ← topologyOrdering (degrees self) (edges self) (nodes self)
             (nodeMap self) true;
    Some (nodes self, res)
  else if bool_decide (ordering self = Some "degree") then
    let '(ns, res) := degreeOrdering (degrees self) (nodes self) in
    Some (ns, Some <$> res)
  else Some (nodes self, Some <$> seq 0 (length (nodes self))).

(** The result: the layout object afterwards, the callbacks fired, and
    the returned [nodes] array ([None] when [execute] returns nothing). *)
Definition execute (window : option (R * R)) (self : Layout)
    : option (Layout * list Event * option (list (option nat))) :=
  let n := length (nodes self) in
  if bool_decide (n = 0) then Some (self, fire_onLayoutEnd self, None)
  else
    let self := resolve_canvas window self in
    let '(cx, cy) := default (0%R, 0%R) (center self) in
    if bool_decide (n = 1) then
      Some (set_nodes (alter (move cx cy) 0 (nodes self)) self,
            fire_onLayoutEnd self, None)
    else
      let angleStep := ((endAngle self - startAngle self) / INR n)%R in
      let nm := index_nodes 0 (nodes self) ∅ in
      let degs :=
        getDegree source target (length (nodes self)) nm (edges self) in
      let self := set_index nm degs self in
      let '(r0, sr0, er0) := resolve_radii self in
      let astep := (angleStep * angleRatio self)%R in
      '(ns, layoutNodes) ← order_nodes self;
      ns' ← forEachM
               (place_at cx cy r0 sr0 er0
                  (startAngle self) (endAngle self) astep (divisions self)
                  (clockwise self) degs n layoutNodes)
               (seq 0 n) ns;
      Some (set_nodes ns' self, fire_onLayoutEnd self, Some layoutNodes).

End Circular.

(** ** [src/layout/gForce.ts] *)
Module GForce.
Import Util.
Local Open Scope R_scope.

Record Edge := { source : string; target : string }.

(** [size: number | PointTuple] *)
Inductive Size := Scalar (s : R) | Pair (w h : R).

Record INode := {
  id : string;
  x : option R;
  y : option R;
  fx : option R;
  fy : option R;
  size : option Size
}.

(** A coordinate read as a number.  [execute] seeds the missing
    coordinates before the first step, so the steps read numbers. *)
Definition num (v : option R) : R := default 0 v.

Definition set_xy (px py : R) (n : INode) : INode :=
  {| id := id n; x := Some px; y := Some py; fx := fx n; fy := fy n;
     size := size n |}.

(** [number | Function | undefined] *)
Inductive NumOrFunc (A : Type) :=
| Undefined
| Num (v : R)
| Func (f : A → R).
Arguments Undefined {A}.
Arguments Num {A} v.
Arguments Func {A} f.

Definition proccessToFunc {A} (value : NumOrFunc A) (defaultV : option R)
    : A → R :=
  let constant := λ _ : A, if truthy defaultV then num defaultV else 1 in
  match value with
  | Undefined => constant
  | Num v => if bool_decide (v = 0) then constant else λ _, v
  | Func f => f
  end.

(** A call through a field cast [as Function]: a [TypeError] unless the
    field holds a function. *)
Definition call {A} (v : NumOrFunc A) (d : A) : option R :=
  match v with Func f => Some (f d) | _ => None end.

(** [nodeSize]: a number, a pair, a function or nothing.  The function
    [execute] installs returns [None] where JavaScript computes a value
    that is not a number. *)
Inductive SizeOption :=
| SizeUndefined
| SizeNum (v : R)
| SizeArr (a b : R)
| SizeFunc (f : INode → option R).

(** [nodeSpacing]: a number, a function, or anything else. *)
Inductive SpacingOption :=
| SpacingNum (v : R)
| SpacingFunc (f : INode → R)
| SpacingOther.

(** [getMass]: unset, the function [execute] installs (it reads
    [self.degrees] and [self.nodeIdxMap] when it is called), or the
    caller's. *)
Inductive MassOption :=
| MassUnset
| MassByDegree
| MassFunc (f : INode → R).

Inductive Event := Tick | LayoutEnd.

Record Layout := {
  center : option (R * R);
  maxIteration : R;
  edgeStrength : NumOrFunc Edge;
  nodeStrength : NumOrFunc INode;
  coulombDisScale : R;
  damping : R;
  maxSpeed : R;
  minMovement : R;
  interval : R;
  factor : R;
  getMass : MassOption;
  getCenter : option (INode → option nat → option (R * R * R));
  linkDistance : NumOrFunc Edge;
  gravity : R;
  preventOverlap : bool;
  nodeSize : SizeOption;
  nodeSpacing : SpacingOption;
  tick : bool;          (* is a callback installed *)
  nodes : option (list INode);
  edges : option (list Edge);
  width : R;
  height : R;
  nodeMap : gmap string nat;
  nodeIdxMap : gmap string nat;
  onLayoutEnd : bool;   (* is a callback installed *)
  degrees : list nat;
  timeInterval : option nat
}.

(** *** The forces *)

Definition mass (self : Layout) (d : INode) : R :=
  match getMass self with
  | MassUnset => 1
  | MassByDegree =>
      match nodeIdxMap self !! id d ≫= (degrees self !!.) with
      | Some (S m) => INR (S m)
      | _ => 1
      end
  | MassFunc f => f d
  end.

(** [accArray[k] += v] *)
Definition acc_add (k : nat) (v : R) (accArray : list R) : list R :=
  alter (λ a, a + v) k accArray.

(** [accArray[2 * idx + off] += v] for an index read from [nodeIdxMap];
    with no index the write misses the array. *)
Definition acc_add_at (idx : option nat) (off : nat) (v : R)
    (accArray : list R) : list R :=
  match idx with
  | Some i => acc_add (2 * i + off) v accArray
  | None => accArray
  end.

Definition acc_get (accArray : list R) (k : nat) : R :=
  default 0 (accArray !! k).

(** [vecLength < (nodeSize(ni) + nodeSize(nj)) / 2] *)
Definition overlaps (self : Layout) (ni nj : INode) (vecLength : R)
    : option bool :=
  match nodeSize self with
  | SizeFunc f =>
      Some match f ni, f nj with
           | Some si, Some sj => bool_decide (vecLength < (si + sj) / 2)
           | _, _ => false
           end
  | _ => None
  end.

(** The body of the inner loop of [calRepulsive], for [i < j]. *)
Definition repulsive_pair (self : Layout) (i : nat) (ni : INode)
    (j : nat) (nj : INode) (accArray : list R) : option (list R) :=
  let massi := mass self ni in
  let vecX := num (x ni) - num (x nj) in
  let vecY := num (y ni) - num (y nj) in
  let vecLength := sqrt (vecX * vecX + vecY * vecY) + 0.01 in
  let nVecLength := (vecLength + 0.1) * coulombDisScale self in
  let direX := vecX / vecLength in
  let direY := vecY / vecLength in
  si ← call (nodeStrength self) ni;
  sj ← call (nodeStrength self) nj;
  let param := (((si + sj) / 2) * factor self) / (nVecLength * nVecLength) in
  let massj := mass self nj in
  let acc1 :=
    acc_add (2 * j + 1) (- (direY * param))
      (acc_add (2 * j) (- (direX * param))
        (acc_add (2 * i + 1) (direY * param)
          (acc_add (2 * i) (direX * param) accArray))) in
  overlap ← (if preventOverlap self then overlaps self ni nj vecLength
             else Some false);
  if (overlap : bool) then
    let paramOverlap := (si + sj) / 2 / (vecLength * vecLength) in
    Some (acc_add (2 * j + 1) (- ((direY * paramOverlap) / massj))
           (acc_add (2 * j) (- ((direX * paramOverlap) / massj))
             (acc_add (2 * i + 1) ((direY * paramOverlap) / massi)
               (acc_add (2 * i) ((direX * paramOverlap) / massi) acc1))))
  else Some acc1.

(** The pairs [(i, ni)] of a [forEach((ni, i) => ...)]. *)
Definition indexed {A} (l : list A) : list (nat * A) := imap pair l.

Definition calRepulsive (self : Layout) (accArray : list R)
    (nodes : list INode) : option (list R) :=
  forEachM (λ acc '(i, ni),
    forEachM (λ acc '(j, nj),
      if bool_decide (j ≤ i)%nat then Some acc
      else repulsive_pair self i ni j nj acc)
      (indexed nodes) acc)
    (indexed nodes) accArray.

Definition attractive_edge (self : Layout) (nodes : list INode)
    (accArray : list R) (edge : Edge) : option (list R) :=
  sourceNode ← nodeMap self !! source edge ≫= (nodes !!.);
  targetNode ← nodeMap self !! target edge ≫= (nodes !!.);
  let vecX := num (x targetNode) - num (x sourceNode) in
  let vecY := num (y targetNode) - num (y sourceNode) in
  let vecLength := sqrt (vecX * vecX + vecY * vecY) + 0.01 in
  let direX := vecX / vecLength in
  let direY := vecY / vecLength in
  l ← call (linkDistance self) edge;
  let length := if bool_decide (l = 0) then 1 else l in
  let diff := length - vecLength in
  s ← call (edgeStrength self) edge;
  let param := diff * s in
  let sourceIdx := nodeIdxMap self !! source edge in
  let targetIdx := nodeIdxMap self !! target edge in
  let massSource := mass self sourceNode in
  let massTarget := mass self targetNode in
  Some (acc_add_at targetIdx 1 ((direY * param) / massTarget)
         (acc_add_at targetIdx 0 ((direX * param) / massTarget)
           (acc_add_at sourceIdx 1 (- ((direY * param) / massSource))
             (acc_add_at sourceIdx 0 (- ((direX * param) / massSource))
                accArray)))).

Definition calAttractive (self : Layout) (nodes : list INode)
    (accArray : list R) (edges : list Edge) : option (list R) :=
  forEachM (attractive_edge self nodes) edges accArray.

Definition gravity_node (self : Layout) (accArray : list R)
    (p : nat * INode) : option (list R) :=
  let '(i, node) := p in
  c ← center self;
  let '(vecX, vecY, g) :=
    match getCenter self with
    | Some f =>
        match f node (degrees self !! i) with
        | Some (cx, cy, cg) => (num (x node) - cx, num (y node) - cy, cg)
        | None => (num (x node) - c.1, num (y node) - c.2, gravity self)
        end
    | None => (num (x node) - c.1, num (y node) - c.2, gravity self)
    end in
  if bool_decide (g = 0) then Some accArray
  else Some (acc_add (2 * i + 1) (- (g * vecY))
               (acc_add (2 * i) (- (g * vecX)) accArray)).

Definition calGravity (self : Layout) (accArray : list R)
    (nodes : list INode) : option (list R) :=
  forEachM (gravity_node self) (indexed nodes) accArray.

(** *** Integration *)

(** [v || 0.01] *)
Definition or_default (v : R) : R := if bool_decide (v = 0) then 0.01 else v.

(** The two entries [updateVelocity] stores for node [i]. *)
Definition velocity (self : Layout) (accArray : list R) (stepInterval : R)
    (i : nat) : R * R :=
  let param := stepInterval * damping self in
  let vx := or_default (acc_get accArray (2 * i) * param) in
  let vy := or_default (acc_get accArray (2 * i + 1) * param) in
  let vLength := sqrt (vx * vx + vy * vy) in
  if bool_decide (maxSpeed self < vLength) then
    let param2 := maxSpeed self / vLength in
    (param2 * vx, param2 * vy)
  else (vx, vy).

Definition updateVelocity (self : Layout) (accArray velArray : list R)
    (stepInterval : R) (nodes : list INode) : list R :=
  foldl (λ vel '(i, _),
           let v := velocity self accArray stepInterval i in
           <[2 * i + 1 := v.2]> (<[2 * i := v.1]> vel))%nat
    velArray (indexed nodes).

Definition move (velArray : list R) (stepInterval : R) (i : nat)
    (node : INode) : INode :=
  match fx node, fy node with
  | Some px, Some py => set_xy px py node
  | _, _ =>
      let distX := acc_get velArray (2 * i) * stepInterval in
      let distY := acc_get velArray (2 * i + 1) * stepInterval in
      set_xy (num (x node) + distX) (num (y node) + distY) node
  end.

Definition updatePosition (velArray : list R) (stepInterval : R)
    (nodes : list INode) : list INode :=
  imap (move velArray stepInterval) nodes.

(** *** The scheduler and the layout object *)

(** What the callback given to [setInterval] has captured: [edges] and
    [maxIteration] as they were when [run] was called, and its counter.
    The node array it captured is the one the layout holds. *)
Record Closure := {
  c_edges : option (list Edge);
  c_maxIteration : R;
  iter : nat
}.

(** The layout object, the intervals of [window] that are active, the
    next interval identifier, the number of calls made to
    [Math.random], and the callbacks fired so far (oldest first). *)
Record World := {
  self : Layout;
  timers : gmap nat Closure;
  next_timer : nat;
  draws : nat;
  trace : list Event
}.

(** The host: [window] with its inner width and height, when there is
    one, and the values [Math.random] returns, in order. *)
Record Env := {
  window : option (R * R);
  random : nat → R
}.

Definition set_nodes (ns : option (list INode)) (s : Layout) : Layout :=
  {| center := center s; maxIteration := maxIteration s;
     edgeStrength := edgeStrength s; nodeStrength := nodeStrength s;
     coulombDisScale := coulombDisScale s; damping := damping s;
     maxSpeed := maxSpeed s; minMovement := minMovement s;
     interval := interval s; factor := factor s; getMass := getMass s;
     getCenter := getCenter s; linkDistance := linkDistance s;
     gravity := gravity s; preventOverlap := preventOverlap s;
     nodeSize := nodeSize s; nodeSpacing := nodeSpacing s; tick := tick s;
     nodes := ns; edges := edges s; width := width s; height := height s;
     nodeMap := nodeMap s; nodeIdxMap := nodeIdxMap s;
     onLayoutEnd := onLayoutEnd s; degrees := degrees s;
     timeInterval := timeInterval s |}.

Definition set_timeInterval (t : option nat) (s : Layout) : Layout :=
  {| center := center s; maxIteration := maxIteration s;
     edgeStrength := edgeStrength s; nodeStrength := nodeStrength s;
     coulombDisScale := coulombDisScale s; damping := damping s;
     maxSpeed := maxSpeed s; minMovement := minMovement s;
     interval := interval s; factor := factor s; getMass := getMass s;
     getCenter := getCenter s; linkDistance := linkDistance s;
     gravity := gravity s; preventOverlap := preventOverlap s;
     nodeSize := nodeSize s; nodeSpacing := nodeSpacing s; tick := tick s;
     nodes := nodes s; edges := edges s; width := width s;
     height := height s; nodeMap := nodeMap s; nodeIdxMap := nodeIdxMap s;
     onLayoutEnd := onLayoutEnd s; degrees := degrees s;
     timeInterval := t |}.

Definition with_self (s : Layout) (w : World) : World :=
  {| self := s; timers := timers w; next_timer := next_timer w;
     draws := draws w; trace := trace w |}.

Definition emit (e : Event) (w : World) : World :=
  {| self := self w; timers := timers w; next_timer := next_timer w;
     draws := draws w; trace := trace w ++ [e] |}.

(** [if (self.onLayoutEnd) self.onLayoutEnd();] *)
Definition fire_onLayoutEnd (w : World) : World :=
  if onLayoutEnd (self w) then emit LayoutEnd w else w.

(** [window.clearInterval(self.timeInterval)] *)
Definition clearInterval (w : World) : World :=
  match timeInterval (self w) with
  | Some t =>
      {| self := self w; timers := delete t (timers w);
         next_timer := next_timer w; draws := draws w; trace := trace w |}
  | None => w
  end.

(** *** One step: the callback [run] gives to [setInterval] *)

Definition stepInterval_at (s : Layout) (it : nat) : R :=
  Rmax 0.02 (interval s - INR it * 0.002).

(** The mean distance between the previous and the new positions. *)
Definition movement (previousPos nodes : list INode) : R :=
  foldl (λ m '(p, node),
           let vx := num (x node) - num (x p) in
           let vy := num (y node) - num (y p) in
           m + sqrt (vx * vx + vy * vy))
    0 (zip previousPos nodes)
  / INR (length nodes).

(** The callback, with the closure it runs in: the result is the closure
    with its counter advanced and the state it leaves; [None] when it
    throws. *)
Definition interval_callback (c : Closure) (w : World)
    : option (Closure * World) :=
  match nodes (self w) with
  | None => Some (c, w)
  | Some ns =>
      let accArray := replicate (2 * length ns) 0 in
      let velArray := replicate (2 * length ns) 0 in
      acc1 ← calRepulsive (self w) accArray ns;
      acc2 ← match c_edges c with
              | Some es => calAttractive (self w) ns acc1 es
              | None => Some acc1
              end;
      acc3 ← calGravity (self w) acc2 ns;
      let stepInterval := stepInterval_at (self w) (iter c) in
      let vel := updateVelocity (self w) acc3 velArray stepInterval ns in
      let ns' := updatePosition vel stepInterval ns in
      let w := with_self (set_nodes (Some ns') (self w)) w in
      let w := if tick (self w) then emit Tick w else w in
      let w := if bool_decide (movement ns ns' < minMovement (self w))
               then fire_onLayoutEnd (clearInterval w) else w in
      let c := {| c_edges := c_edges c; c_maxIteration := c_maxIteration c;
                  iter := S (iter c) |} in
      let w := if bool_decide (c_maxIteration c <= INR (iter c))
               then clearInterval (fire_onLayoutEnd w) else w in
      Some (c, w)
  end.

(** The scheduler runs the callback of interval [t], if [t] is still
    active.  An exception in the callback leaves the state as it was:
    the callback writes nothing before the last point where it can
    throw. *)
Definition fire (t : nat) (w : World) : World :=
  match timers w !! t with
  | None => w
  | Some c =>
      match interval_callback c w with
      | Some (c', w') =>
          {| self := self w'; timers := alter (λ _, c') t (timers w');
             next_timer := next_timer w'; draws := draws w';
             trace := trace w' |}
      | None => w
      end
  end.

(** [n] turns of the scheduler for interval [t]. *)
Fixpoint turns (n : nat) (t : nat) (w : World) : World :=
  match n with
  | O => w
  | S n' => turns n' t (fire t w)
  end.

(** [n] steps of the simulation, whether scheduled or not. *)
Fixpoint steps (n : nat) (c : Closure) (w : World)
    : option (Closure * World) :=
  match n with
  | O => Some (c, w)
  | S n' => '(c', w') ← interval_callback c w; steps n' c' w'
  end.

(** *** execute and run *)

Definition run (env : Env) (w : World) : World :=
  match window env with
  | None => w
  | Some _ =>
      let t := next_timer w in
      {| self := set_timeInterval (Some t) (self w);
         timers := <[t := {| c_edges := edges (self w);
                             c_maxIteration := maxIteration (self w);
                             iter := 0 |}]> (timers w);
         next_timer := S t; draws := draws w; trace := trace w |}
  end.

(** [nodeSpacingFunc] *)
Definition spacing_func (sp : SpacingOption) : INode → R :=
  match sp with
  | SpacingNum v => λ _, v
  | SpacingFunc f => f
  | SpacingOther => λ _, 0
  end.

(** [nodeSizeFunc], for [preventOverlap].  A [nodeSize] that is a
    function falls in the last branch, where it is added to a number:
    the sum is not a number. *)
Definition size_func (nodeSize : SizeOption) (spacing : INode → R)
    : INode → option R :=
  let from_node := λ d,
    match size d with
    | Some (Pair a b) => Some ((if bool_decide (b < a) then a else b)
                               + spacing d)
    | Some (Scalar v) =>
        if bool_decide (v = 0) then Some (10 + spacing d)
        else Some (v + spacing d)
    | None => Some (10 + spacing d)
    end in
  match nodeSize with
  | SizeUndefined => from_node
  | SizeNum v =>
      if bool_decide (v = 0) then from_node else λ d, Some (v + spacing d)
  | SizeArr a b =>
      λ d, Some ((if bool_decide (b < a) then a else b) + spacing d)
  | SizeFunc _ => λ _, None
  end.

(** The first [forEach] of [execute]: missing coordinates are drawn at
    random, and both maps are filled. *)
Definition seed_node (env : Env) (width height : R)
    (st : nat * list INode) (node : INode) : nat * list INode :=
  let '(d, seeded) := st in
  let '(px, d) := match x node with
                  | Some v => (v, d)
                  | None => (random env d * width, S d)
                  end in
  let '(py, d) := match y node with
                  | Some v => (v, d)
                  | None => (random env d * height, S d)
                  end in
  (d, (seeded ++ [set_xy px py node])%list).

(** [nodeMap[node.id] = node; nodeIdxMap[node.id] = i;]: a reference to
    a node is its index, so the two maps are one. *)
Definition index_nodes (i : nat) (nodes : list INode) (m : gmap string nat)
    : gmap string nat :=
  index_by id i nodes m.

Definition execute (env : Env) (w : World) : World :=
  let w := match window env with
           | Some _ => clearInterval w
           | None => w
           end in
  let s := self w in
  match nodes s with
  | None | Some [] => fire_onLayoutEnd w
  | Some ns =>
      let width := match window env with
                   | Some (iw, _) =>
                       if bool_decide (width s = 0) then iw else width s
                   | None => width s
                   end in
      let height := match window env with
                    | Some (_, ih) =>
                        if bool_decide (height s = 0) then ih else height s
                    | None => height s
                    end in
      let c := match center s with
               | Some c => c
               | None => (width / 2, height / 2)
               end in
      match ns with
      | [n0] =>
          fire_onLayoutEnd
            (with_self
               {| center := Some c; maxIteration := maxIteration s;
                  edgeStrength := edgeStrength s;
                  nodeStrength := nodeStrength s;
                  coulombDisScale := coulombDisScale s;
                  damping := damping s; maxSpeed := maxSpeed s;
                  minMovement := minMovement s; interval := interval s;
                  factor := factor s; getMass := getMass s;
                  getCenter := getCenter s;
                  linkDistance := linkDistance s; gravity := gravity s;
                  preventOverlap := preventOverlap s;
                  nodeSize := nodeSize s; nodeSpacing := nodeSpacing s;
                  tick := tick s; nodes := Some [set_xy c.1 c.2 n0];
                  edges := edges s; width := width; height := height;
                  nodeMap := nodeMap s; nodeIdxMap := nodeIdxMap s;
                  onLayoutEnd := onLayoutEnd s; degrees := degrees s;
                  timeInterval := timeInterval s |} w)
      | _ =>
          let '(d, seeded) :=
            foldl (seed_node env width height) (draws w, []) ns in
          let idx := index_nodes 0 seeded ∅ in
          let s' :=
            {| center := Some c; maxIteration := maxIteration s;
               edgeStrength := Func (proccessToFunc (edgeStrength s) (Some 1));
               nodeStrength := Func (proccessToFunc (nodeStrength s) (Some 1));
               coulombDisScale := coulombDisScale s;
               damping := damping s; maxSpeed := maxSpeed s;
               minMovement := minMovement s; interval := interval s;
               factor := factor s;
               getMass := match getMass s with
                          | MassUnset => MassByDegree
                          | m => m
                          end;
               getCenter := getCenter s;
               linkDistance := Func (proccessToFunc (linkDistance s) (Some 1));
               gravity := gravity s;
               preventOverlap := preventOverlap s;
               nodeSize := if preventOverlap s
                           then SizeFunc (size_func (nodeSize s)
                                            (spacing_func (nodeSpacing s)))
                           else SizeUndefined;
               nodeSpacing := nodeSpacing s;
               tick := tick s; nodes := Some seeded;
               edges := edges s; width := width; height := height;
               nodeMap := idx; nodeIdxMap := idx;
               onLayoutEnd := onLayoutEnd s;
               degrees := getDegree source target (length seeded) idx
                            (default [] (edges s));
               timeInterval := timeInterval s |} in
          run env {| self := s'; timers := timers w;
                     next_timer := next_timer w; draws := d;
                     trace := trace w |}
      end
  end.

(** [stop()] *)
Definition stop (env : Env) (w : World) : World :=
  match window env, timeInterval (self w) with
  | Some _, Some (S _) => clearInterval w
  | _, _ => w
  end.

End GForce.

(** ** The d3 delegation layout: the guard of [ForceLayout.execute] *)
Module Force.
Section d3.
(** The simulation object belongs to d3-force, and so does everything
    [execute] does once it has passed its guard: building or
    restarting the simulation, registering the tick and end
    handlers.  Both are parameters. *)
Variable Simulation : Type.
Variable Effect : Type.

Record Layout := {
  ticking : option bool;
  forceSimulation : option Simulation
}.

Variable start : bool → Layout → Layout * list Effect.

(** [if (self.ticking) { return; }] and then the rest. *)
Definition execute (reloadData : bool) (self : Layout)
    : Layout * list Effect :=
  match ticking self with
  | Some true => (self, [])
  | _ => start reloadData self
  end.
End d3.
End Force.

(** * Properties *)

(** ** The sort used by the degree ordering *)
Section js_sort_facts.
Import Util.
Context {A : Type} (cmp : A → A → Z) (key : A → nat).

(** On the elements being sorted, the comparator orders by [key]. *)
Definition cmp_by_key (l : list A) : Prop :=
  ∀ a b, a ∈ l → b ∈ l → (cmp a b ≤ 0)%Z ↔ key a ≤ key b.

Lemma cmp_by_key_tail a l : cmp_by_key (a :: l) → cmp_by_key l.
Proof. intros Hc u v Hu Hv. apply Hc; by apply list_elem_of_further. Qed.

Lemma cmp_by_key_skip a b l : cmp_by_key (a :: b :: l) → cmp_by_key (a :: l).
Proof.
  intros Hc u v Hu Hv. apply Hc; rewrite !elem_of_cons in *; tauto.
Qed.

Lemma cmp_by_key_head a b l :
  cmp_by_key (a :: b :: l) → (cmp a b ≤ 0)%Z ↔ key a ≤ key b.
Proof. intros Hc. apply Hc; rewrite !elem_of_cons; tauto. Qed.

Lemma sort_insert_perm a l : sort_insert cmp a l ≡ₚ a :: l.
Proof.
  induction l as [|b l IH]; simpl; [done|].
  case_bool_decide; [done|]. rewrite IH. apply Permutation_swap.
Qed.

Lemma js_sort_perm l : js_sort cmp l ≡ₚ l.
Proof.
  induction l as [|a l IH]; simpl; [done|].
  rewrite sort_insert_perm. by f_equiv.
Qed.

Lemma cmp_by_key_perm l l' : l ≡ₚ l' → cmp_by_key l' → cmp_by_key l.
Proof. intros Hp Hc u v Hu Hv. rewrite Hp in Hu, Hv. by apply Hc. Qed.

Lemma sort_insert_sorted a l :
  cmp_by_key (a :: l) →
  StronglySorted (λ u v, key u ≤ key v) l →
  StronglySorted (λ u v, key u ≤ key v) (sort_insert cmp a l).
Proof.
  intros Hc Hs. induction Hs as [|b l Hs IH Hb]; simpl.
  - repeat constructor.
  - pose proof (cmp_by_key_head _ _ _ Hc) as Hh.
    case_bool_decide as Hab.
    + apply Hh in Hab.
      constructor; [by constructor|]. constructor; [done|].
      eapply Forall_impl; [exact Hb|]. simpl. lia.
    + constructor.
      * apply IH. by eapply cmp_by_key_skip.
      * rewrite sort_insert_perm. constructor; [|done].
        destruct (decide (key b ≤ key a)) as [|Hn]; [done|].
        exfalso. apply Hab, Hh. lia.
Qed.

Lemma js_sort_sorted l :
  cmp_by_key l → StronglySorted (λ u v, key u ≤ key v) (js_sort cmp l).
Proof.
  induction l as [|a l IH]; intros Hc; simpl; [constructor|].
  apply sort_insert_sorted.
  - eapply cmp_by_key_perm; [|exact Hc]. by rewrite js_sort_perm.
  - apply IH. by eapply cmp_by_key_tail.
Qed.

(** Stability, one key at a time: the elements of key [d] come out in
    the order they went in. *)
Lemma sort_insert_stable d a l :
  cmp_by_key (a :: l) →
  filter (λ u, key u = d) (sort_insert cmp a l)
  = filter (λ u, key u = d) (a :: l).
Proof.
  intros Hc. induction l as [|b l IH]; simpl; [done|].
  pose proof (cmp_by_key_head _ _ _ Hc) as Hh.
  case_bool_decide as Hab; [done|].
  assert (key b < key a) as Hlt.
  { destruct (decide (key a ≤ key b)) as [Hle|]; [|lia].
    exfalso. by apply Hab, Hh. }
  rewrite filter_cons, IH by (by eapply cmp_by_key_skip).
  rewrite !filter_cons.
  repeat case_decide; try done; lia.
Qed.

Lemma js_sort_stable d l :
  cmp_by_key l →
  filter (λ u, key u = d) (js_sort cmp l) = filter (λ u, key u = d) l.
Proof.
  induction l as [|a l IH]; intros Hc; simpl; [done|].
  rewrite sort_insert_stable.
  - rewrite !filter_cons, IH; [done|]. by eapply cmp_by_key_tail.
  - eapply cmp_by_key_perm; [|exact Hc]. by rewrite js_sort_perm.
Qed.
End js_sort_facts.

Lemma StronglySorted_weaken {A} (R1 R2 : relation A) (l : list A) :
  (∀ a b, a ∈ l → b ∈ l → R1 a b → R2 a b) →
  StronglySorted R1 l → StronglySorted R2 l.
Proof.
  intros HR Hs. induction Hs as [|a l Hs IH Ha]; constructor.
  - apply IH. intros u v Hu Hv. apply HR; by apply list_elem_of_further.
  - rewrite Forall_forall in *. intros b Hb.
    apply HR; [apply list_elem_of_here|by apply list_elem_of_further|auto].
Qed.

Lemma filter_ext_elem_of {A} (P Q : A → Prop)
    `{!∀ a, Decision (P a)} `{!∀ a, Decision (Q a)} (l : list A) :
  (∀ a, a ∈ l → P a ↔ Q a) → filter P l = filter Q l.
Proof.
  induction l as [|a l IH]; intros Hpq; [done|].
  rewrite !filter_cons.
  assert (P a ↔ Q a) as Ha by apply Hpq, list_elem_of_here.
  rewrite IH by (intros; by apply Hpq, list_elem_of_further).
  repeat case_decide; tauto.
Qed.

Lemma forEachM_ext {A S} (f g : S → A → option S) (l : list A) (s : S) :
  (∀ s a, a ∈ l → f s a = g s a) →
  Util.forEachM f l s = Util.forEachM g l s.
Proof.
  revert s. induction l as [|a l IH]; intros s Hfg; simpl; [done|].
  rewrite Hfg by apply list_elem_of_here.
  destruct (g s a) as [s'|]; simpl; [|done].
  apply IH. intros. by apply Hfg, list_elem_of_further.
Qed.

Lemma fmap_alter_same {A B} (f : A → B) (g : A → A) (l : list A) i :
  (∀ a, f (g a) = f a) → f <$> alter g i l = f <$> l.
Proof.
  intros Hfg. revert i.
  induction l as [|a l IH]; intros [|i]; csimpl; f_equal; auto.
Qed.

(** ** The index of the nodes by identity *)
Section index_by_facts.
Context {A : Type} (key : A → string).

Lemma index_by_spec (nodes : list A) : ∀ i m s,
  Util.index_by key i nodes m !! s
  = match last (filter (λ p, key p.2 = s) (imap (λ j nd, (i + j, nd)) nodes))
    with
    | Some p => Some p.1
    | None => m !! s
    end.
Proof.
  induction nodes as [|nd nodes IH]; intros i m s; simpl; [done|].
  rewrite IH, filter_cons. simpl.
  rewrite (imap_ext ((λ j nd0, (i + j, nd0)) ∘ S)
             (λ j nd0, (S (i + j), nd0)) nodes)
    by (intros; simpl; f_equal; lia).
  destruct (filter _ (imap (λ j nd0, (S (i + j), nd0)) nodes))
    as [|p l] eqn:Hl.
  - case_decide as Hs; simpl.
    + subst s. rewrite lookup_insert_eq. f_equal. lia.
    + by rewrite lookup_insert_ne.
  - destruct (last (p :: l)) as [q|] eqn:Hp; [|by apply last_None in Hp].
    case_decide; [|by rewrite Hp]. by rewrite last_cons, Hp.
Qed.

Lemma index_by_bound (nodes : list A) s j :
  Util.index_by key 0 nodes ∅ !! s = Some j →
  j < length nodes ∧ ∃ nd, nodes !! j = Some nd ∧ key nd = s.
Proof.
  rewrite index_by_spec.
  destruct (last _) as [p|] eqn:Hl; [|done].
  intros [= <-]. apply last_Some_elem_of in Hl.
  apply list_elem_of_filter in Hl as [Hid Hin].
  apply elem_of_lookup_imap in Hin as (i & nd & -> & Hnd). simpl in *.
  split; [by eapply lookup_lt_Some|eauto].
Qed.

Lemma index_by_unique (nodes : list A) j nd :
  NoDup (key <$> nodes) → nodes !! j = Some nd →
  Util.index_by key 0 nodes ∅ !! key nd = Some j.
Proof.
  intros Hu Hnd.
  destruct (Util.index_by key 0 nodes ∅ !! key nd) as [j'|] eqn:Hj'.
  - apply index_by_bound in Hj' as (_ & nd' & Hnd' & Hid).
    f_equal. eapply NoDup_lookup; [exact Hu|..];
      rewrite list_lookup_fmap; [by rewrite Hnd'; simpl; rewrite Hid|].
    by rewrite Hnd.
  - rewrite index_by_spec in Hj'.
    destruct (last _) eqn:Hl; [done|]. apply last_None in Hl.
    assert ((j, nd) ∈ filter (λ p : nat * A, key p.2 = key nd)
              (imap (λ j nd, (0 + j, nd)) nodes)) as Hin.
    { apply list_elem_of_filter. split; [done|].
      apply elem_of_lookup_imap. by exists j, nd. }
    rewrite Hl in Hin. by apply not_elem_of_nil in Hin.
Qed.

Lemma index_by_elem_of (nodes : list A) s :
  NoDup (key <$> nodes) → s ∈ key <$> nodes →
  ∃ j, Util.index_by key 0 nodes ∅ !! s = Some j ∧ j < length nodes.
Proof.
  intros Hu Hs. apply list_elem_of_fmap in Hs as (nd & -> & Hnd).
  apply list_elem_of_lookup in Hnd as [j Hj]. exists j.
  split; [by apply index_by_unique|by eapply lookup_lt_Some].
Qed.
End index_by_facts.

(** ** The circular layout *)
Module CircularFacts.
Import Util Circular.

(** The [degree] field of the node a reference points to. *)
Definition degree_of (ns : list INode) (i : nat) : option nat :=
  ns !! i ≫= degree.

Definition degree_le (ns : list INode) (a b : nat) : Prop :=
  ∃ da db, degree_of ns a = Some da ∧ degree_of ns b = Some db ∧ da ≤ db.

Lemma getDegree_length {E} (src tgt : E → string) n m (es : list E) :
  length (getDegree src tgt n m es) = n.
Proof. unfold getDegree. by rewrite length_fmap, length_seq. Qed.

Section degree_ordering.
Variables (degrees : list nat) (nodes : list INode).
Hypothesis Hlen : length degrees = length nodes.

Let ns := (degreeOrdering degrees nodes).1.
Let order := (degreeOrdering degrees nodes).2.
Let key (i : nat) : nat := default 0 (degrees !! i).

Lemma degreeOrdering_degree i :
  i < length nodes → degree_of ns i = Some (key i).
Proof.
  intros Hi. unfold degree_of, ns, key; simpl.
  destruct (lookup_lt_is_Some_2 nodes i Hi) as [nd Hnd].
  destruct (lookup_lt_is_Some_2 degrees i) as [d Hd]; [lia|].
  rewrite list_lookup_imap, Hnd; simpl. by rewrite Hd.
Qed.

Lemma degreeOrdering_cmp :
  cmp_by_key
    (λ a b, match (degreeOrdering degrees nodes).1 !! a,
                  (degreeOrdering degrees nodes).1 !! b with
            | Some na, Some nb => compareDegree na nb
            | _, _ => 0%Z
            end) key (seq 0 (length nodes)).
Proof.
  intros a b Ha Hb. apply elem_of_seq in Ha, Hb.
  pose proof (degreeOrdering_degree a ltac:(lia)) as Hda.
  pose proof (degreeOrdering_degree b ltac:(lia)) as Hdb.
  unfold degree_of, ns in Hda, Hdb.
  destruct ((degreeOrdering degrees nodes).1 !! a) as [na|]; [|done].
  destruct ((degreeOrdering degrees nodes).1 !! b) as [nb|]; [|done].
  simpl in Hda, Hdb. unfold compareDegree. rewrite Hda, Hdb.
  repeat case_bool_decide; lia.
Qed.

Lemma degreeOrdering_perm : order ≡ₚ seq 0 (length nodes).
Proof. apply js_sort_perm. Qed.

Lemma degreeOrdering_sorted : StronglySorted (degree_le ns) order.
Proof.
  eapply StronglySorted_weaken;
    [|apply (js_sort_sorted _ key), degreeOrdering_cmp].
  intros a b Ha Hb Hab.
  fold order in Ha, Hb. rewrite degreeOrdering_perm in Ha, Hb.
  apply elem_of_seq in Ha, Hb.
  exists (key a), (key b).
  rewrite !degreeOrdering_degree by lia. done.
Qed.

Lemma degreeOrdering_stable d :
  filter (λ i, degree_of ns i = Some d) order
  = filter (λ i, degree_of ns i = Some d) (seq 0 (length nodes)).
Proof.
  assert (∀ l, l ≡ₚ seq 0 (length nodes) →
            filter (λ i, degree_of ns i = Some d) l
            = filter (λ i, key i = d) l) as Hf.
  { intros l Hl. apply filter_ext_elem_of. intros a Ha.
    rewrite Hl in Ha. apply elem_of_seq in Ha.
    rewrite degreeOrdering_degree by lia. split; congruence. }
  rewrite !Hf by (done || apply degreeOrdering_perm).
  apply js_sort_stable, degreeOrdering_cmp.
Qed.
End degree_ordering.

(** C6.  For [ordering = "degree"], with one degree per node,
    [degreeOrdering] returns every node once, writes to each node its
    own degree, orders the nodes by non-decreasing degree (the comparator
    is ascending), and keeps the nodes of one degree in the order they
    have in the input (the sort is stable). *)
Theorem degreeOrdering_ascending_stable
    (degrees : list nat) (nodes : list INode) :
  length degrees = length nodes →
  let ns := (degreeOrdering degrees nodes).1 in
  let order := (degreeOrdering degrees nodes).2 in
  order ≡ₚ seq 0 (length nodes)
  ∧ (∀ i, i < length nodes → degree_of ns i = degrees !! i)
  ∧ StronglySorted (degree_le ns) order
  ∧ ∀ d, filter (λ i, degree_of ns i = Some d) order
         = filter (λ i, degree_of ns i = Some d) (seq 0 (length nodes)).
Proof.
  intros Hlen ns order.
  split_and!.
  - by apply degreeOrdering_perm.
  - intros i Hi. unfold ns. rewrite degreeOrdering_degree by done.
    destruct (lookup_lt_is_Some_2 degrees i) as [d Hd]; [lia|].
    by rewrite Hd.
  - by apply degreeOrdering_sorted.
  - intros d. by apply degreeOrdering_stable.
Qed.

(** *** topologyOrdering *)

(** Node identities are unique, and every edge joins two of the nodes. *)
Definition unique_ids (nodes : list INode) : Prop := NoDup (id <$> nodes).

Definition edges_wf (nodes : list INode) (edges : list Edge) : Prop :=
  Forall (λ e, source e ∈ id <$> nodes ∧ target e ∈ id <$> nodes) edges.

Lemma index_nodes_bound nodes s j :
  index_nodes 0 nodes ∅ !! s = Some j →
  j < length nodes ∧ ∃ nd, nodes !! j = Some nd ∧ id nd = s.
Proof. apply index_by_bound. Qed.

Lemma index_nodes_unique nodes j nd :
  unique_ids nodes → nodes !! j = Some nd →
  index_nodes 0 nodes ∅ !! id nd = Some j.
Proof. apply index_by_unique. Qed.

Lemma index_nodes_elem_of nodes s :
  unique_ids nodes → s ∈ id <$> nodes →
  ∃ j, index_nodes 0 nodes ∅ !! s = Some j ∧ j < length nodes.
Proof. apply index_by_elem_of. Qed.

(** What [initHierarchy] keeps of the node array: the identities, and
    adjacency lists that hold identities of nodes only. *)
Definition hier_ok (nodes cnodes : list INode) : Prop :=
  id <$> cnodes = id <$> nodes
  ∧ Forall (λ c, Forall (λ s, s ∈ id <$> nodes) (children c)) cnodes.

Lemma hier_ok_alter_children nodes cnodes j s :
  s ∈ id <$> nodes → hier_ok nodes cnodes →
  hier_ok nodes (alter (λ n, set_children (children n ++ [s]) n) j cnodes).
Proof.
  intros Hs [Hid Hch]. split.
  - by rewrite fmap_alter_same.
  - apply Forall_alter; [done|]. intros c _ Hc. simpl.
    apply Forall_app. split; [done|by repeat constructor].
Qed.

Lemma hier_ok_alter_parent nodes cnodes j s :
  hier_ok nodes cnodes →
  hier_ok nodes (alter (λ n, set_parent (parent n ++ [s]) n) j cnodes).
Proof.
  intros [Hid Hch]. split.
  - by rewrite fmap_alter_same.
  - apply Forall_alter; [done|]. by intros c _ Hc.
Qed.

Lemma endpoint_index_wf nodes s :
  unique_ids nodes → s ∈ id <$> nodes →
  ∃ j, endpoint_index (index_nodes 0 nodes ∅) s = Some j ∧ j < length nodes.
Proof.
  intros Hu Hs. unfold endpoint_index. case_bool_decide.
  - exists 0. split; [done|].
    destruct nodes; [by apply not_elem_of_nil in Hs|simpl; lia].
  - by apply index_nodes_elem_of.
Qed.

Lemma hierarchy_edge_ok nodes cnodes directed e :
  unique_ids nodes →
  source e ∈ id <$> nodes → target e ∈ id <$> nodes →
  hier_ok nodes cnodes →
  ∃ cnodes', hierarchy_edge (index_nodes 0 nodes ∅) directed cnodes e
             = Some cnodes' ∧ hier_ok nodes cnodes'.
Proof.
  intros Hu Hs Ht Hok.
  destruct (endpoint_index_wf nodes _ Hu Hs) as (si & Hsi & Hsl).
  destruct (endpoint_index_wf nodes _ Hu Ht) as (ti & Hti & Htl).
  assert (length cnodes = length nodes) as Hlen.
  { destruct Hok as [Hid _].
    by rewrite <- (length_fmap id cnodes), Hid, length_fmap. }
  destruct (lookup_lt_is_Some_2 cnodes si) as [sn Hsn]; [lia|].
  destruct (lookup_lt_is_Some_2 cnodes ti) as [tn Htn]; [lia|].
  assert (∀ j c, cnodes !! j = Some c → id c ∈ id <$> nodes) as Hin.
  { intros j c Hc. destruct Hok as [<- _].
    apply list_elem_of_fmap. exists c.
    split; [done|by eapply list_elem_of_lookup_2]. }
  unfold hierarchy_edge. rewrite Hsi, Hti. simpl. rewrite Hsn, Htn. simpl.
  destruct directed; eexists; (split; [done|]).
  - apply hier_ok_alter_parent, hier_ok_alter_children; eauto.
  - apply hier_ok_alter_children, hier_ok_alter_children; eauto.
Qed.

Lemma initHierarchy_ok nodes edges directed :
  unique_ids nodes → edges_wf nodes edges →
  ∃ cnodes, initHierarchy nodes edges (index_nodes 0 nodes ∅) directed
            = Some cnodes ∧ hier_ok nodes cnodes.
Proof.
  intros Hu Hwf. unfold initHierarchy.
  assert (hier_ok nodes ((λ n, set_parent [] (set_children [] n)) <$> nodes))
    as Hok.
  { split.
    - rewrite <- list_fmap_compose. by apply list_fmap_ext.
    - apply Forall_fmap, Forall_true. intros c. simpl. constructor. }
  revert Hok. generalize ((λ n, set_parent [] (set_children [] n)) <$> nodes).
  induction Hwf as [|e edges [Hs Ht] Hwf IH]; intros cnodes Hok; simpl.
  - eauto.
  - destruct (hierarchy_edge_ok nodes cnodes directed e Hu Hs Ht Hok)
      as (cnodes' & -> & Hok'). simpl. by apply IH.
Qed.

(** The invariant of the ordering loop: the indices picked so far are
    distinct and in range, the flags mark exactly them, every reference
    pushed is that of the node picked, and [k] points into the array. *)
Record topo_inv (n : nat) (st : TopoState) : Prop := {
  inv_nodup : NoDup (orderedCNodes st);
  inv_bound : Forall (λ j, j < n) (orderedCNodes st);
  inv_flags : ∀ j, j ∈ pickFlags st ↔ j ∈ orderedCNodes st;
  inv_res : resNodes st = Some <$> orderedCNodes st;
  inv_k : k st < length (orderedCNodes st)
}.

Section topo_loop.
Variables (degrees : list nat) (edges : list Edge).
Variables (cnodes : list INode) (nodeMap : gmap string nat).
Let n := length cnodes.
Hypothesis Href : ∀ idx c,
  cnodes !! idx = Some c → node_ref n nodeMap (id c) = Some idx.
Hypothesis Hchildren : ∀ j c s,
  cnodes !! j = Some c → s ∈ children c →
  ∃ idx, nodeMap !! s = Some idx ∧ idx < n.

Lemma pick_inv idx bump st :
  topo_inv n st → idx < n → idx ∉ pickFlags st →
  ∃ st', pick cnodes nodeMap idx bump st = Some st'
         ∧ topo_inv n st'
         ∧ length (orderedCNodes st') = S (length (orderedCNodes st)).
Proof.
  intros [Hnd Hb Hf Hr Hk] Hidx Hfresh.
  destruct (lookup_lt_is_Some_2 cnodes idx Hidx) as [c Hc].
  unfold pick. rewrite Hc. simpl. eexists. split; [done|].
  split; [split; simpl|simpl].
  - apply NoDup_app. split_and!; [done| |apply NoDup_singleton].
    intros j Hj ->%list_elem_of_singleton. by apply Hfresh, Hf.
  - apply Forall_app. split; [done|by repeat constructor].
  - intros j. rewrite elem_of_union, elem_of_singleton, elem_of_app,
      list_elem_of_singleton, Hf. tauto.
  - rewrite fmap_app, Hr. simpl. fold n. by rewrite (Href idx c).
  - rewrite length_app. simpl. destruct bump; lia.
  - rewrite length_app. simpl. lia.
Qed.

Lemma unpicked_exists st :
  topo_inv n st → length (orderedCNodes st) < n →
  ∃ ii, find (λ ii, bool_decide (ii ∉ pickFlags st)) (seq 0 n) = Some ii
        ∧ ii < n ∧ ii ∉ pickFlags st.
Proof.
  intros [Hnd Hb Hf Hr Hk] Hlt.
  destruct (find _ (seq 0 n)) as [ii|] eqn:Hfind.
  - apply find_some in Hfind as [Hin Hp].
    apply in_seq in Hin. apply bool_decide_eq_true in Hp. eauto with lia.
  - exfalso.
    assert (seq 0 n ⊆+ orderedCNodes st) as Hsub.
    { apply NoDup_submseteq; [apply NoDup_seq|].
      intros j Hj. apply Hf.
      apply list_elem_of_In in Hj.
      pose proof (find_none _ _ Hfind j Hj) as Hp. simpl in Hp.
      apply bool_decide_eq_false in Hp. by apply dec_stable. }
    apply submseteq_length in Hsub. rewrite length_seq in Hsub. lia.
Qed.

Lemma topo_step_inv st i :
  topo_inv n st → 1 ≤ i → length (orderedCNodes st) = i → i < n →
  ∃ st', topo_step degrees edges cnodes nodeMap st i = Some st'
         ∧ topo_inv n st' ∧ length (orderedCNodes st') = S i.
Proof.
  intros Hinv Hi Hlen Hin. pose proof Hinv as [Hnd Hb Hf Hr Hk].
  unfold topo_step. rewrite bool_decide_eq_false_2 by lia.
  destruct (lookup_lt_is_Some_2 cnodes i Hin) as [cnode ->]. simpl.
  destruct (lookup_lt_is_Some_2 _ _ Hk) as [lastIdx Hlast].
  rewrite Hlast. simpl.
  assert (lastIdx < n) as Hlastn.
  { rewrite Forall_forall in Hb. by eapply Hb, list_elem_of_lookup_2. }
  destruct (lookup_lt_is_Some_2 cnodes lastIdx Hlastn) as [lastNode Hln].
  rewrite Hln. simpl. fold n. rewrite <- Hlen.
  destruct (_ && bool_decide (_ ∉ pickFlags st)) eqn:Hcond.
  { apply andb_true_iff in Hcond as [_ Hfresh].
    apply bool_decide_eq_true in Hfresh.
    apply pick_inv; [done|lia|done]. }
  clear Hcond.
  destruct (find _ (children lastNode)) as [c|] eqn:Hfind.
  - apply find_some in Hfind as [Hc Hp]. apply list_elem_of_In in Hc.
    destruct (Hchildren _ _ _ Hln Hc) as (childIdx & Hmap & Hcn).
    rewrite Hmap in Hp |- *. simpl.
    apply andb_true_iff in Hp as [_ Hfresh].
    apply bool_decide_eq_true in Hfresh. by apply pick_inv.
  - destruct (unpicked_exists st Hinv ltac:(lia)) as (ii & -> & Hii & Hfr).
    by apply pick_inv.
Qed.

Lemma topo_loop_inv m : ∀ i st,
  topo_inv n st → 1 ≤ i → length (orderedCNodes st) = i → i + m = n →
  ∃ st', forEachM (topo_step degrees edges cnodes nodeMap) (seq i m) st
         = Some st'
         ∧ topo_inv n st' ∧ length (orderedCNodes st') = n.
Proof.
  induction m as [|m IH]; intros i st Hinv Hi Hlen Hn; simpl.
  - exists st. split_and!; [done..|lia].
  - destruct (topo_step_inv st i Hinv Hi Hlen ltac:(lia))
      as (st' & -> & Hinv' & Hlen'). simpl.
    apply IH; [done|lia|done|lia].
Qed.
End topo_loop.

Lemma topo_step_first degrees edges cnodes nodeMap st :
  topo_step degrees edges cnodes nodeMap st 0 = Some st.
Proof. done. Qed.

Lemma topologyOrdering_refs
    (degrees : list nat) (edges : list Edge) (nodes : list INode)
    (directed : bool) :
  unique_ids nodes → edges_wf nodes edges → 1 ≤ length nodes →
  ∃ res, topologyOrdering degrees edges nodes (index_nodes 0 nodes ∅)
           directed = Some (Some <$> res)
         ∧ res ≡ₚ seq 0 (length nodes)
         ∧ length res = length nodes.
Proof.
  intros Hu Hwf Hn.
  destruct (initHierarchy_ok nodes edges directed Hu Hwf)
    as (cnodes & Hinit & Hid & Hch).
  assert (length cnodes = length nodes) as Hlen
    by (by rewrite <- (length_fmap id cnodes), Hid, length_fmap).
  unfold topologyOrdering. rewrite Hinit. simpl.
  rewrite bool_decide_eq_true_2 by lia.
  set (st0 := {| orderedCNodes := [0]; resNodes := [Some 0];
                 pickFlags := {[0]}; k := 0 |}).
  assert (topo_inv (length cnodes) st0) as Hinv0.
  { split; simpl.
    - apply NoDup_singleton.
    - repeat constructor. lia.
    - intros j. by rewrite elem_of_singleton, list_elem_of_singleton.
    - done.
    - lia. }
  assert (∃ m, length cnodes = S m) as [m Hm]
    by (exists (length cnodes - 1); lia).
  replace (seq 0 (length cnodes)) with (0 :: seq 1 m) by (by rewrite Hm).
  cbn [forEachM]. rewrite topo_step_first. cbn [mbind option_bind].
  edestruct (topo_loop_inv degrees edges cnodes (index_nodes 0 nodes ∅))
    with (m := m) (i := 1) (st := st0) as (st' & -> & Hinv' & Hlen');
    [| |exact Hinv0|lia|done|lia|].
  - intros idx c Hc. unfold node_ref.
    assert (∃ nd, nodes !! idx = Some nd ∧ id nd = id c) as (nd & Hnd & <-).
    { assert ((id <$> nodes) !! idx = Some (id c)) as Hl
        by (by rewrite <- Hid, list_lookup_fmap, Hc).
      rewrite list_lookup_fmap in Hl.
      destruct (nodes !! idx) as [nd|]; [|done].
      exists nd. split; [done|]. by injection Hl. }
    rewrite (index_nodes_unique nodes idx nd Hu Hnd). simpl.
    rewrite bool_decide_eq_true_2; [done|].
    rewrite Hlen. by eapply lookup_lt_Some.
  - intros j c s Hc Hs. rewrite Hlen.
    apply index_nodes_elem_of; [done|].
    rewrite Forall_forall in Hch.
    pose proof (Hch c (list_elem_of_lookup_2 _ _ _ Hc)) as Hcc.
    rewrite Forall_forall in Hcc. by apply Hcc.
  - simpl. destruct Hinv' as [Hnd Hb Hf Hr Hk].
    exists (orderedCNodes st'). rewrite Hr, <- Hlen.
    split_and!; [done| |done].
    apply submseteq_length_Permutation.
    + apply NoDup_submseteq; [done|].
      intros j Hj. apply elem_of_seq. rewrite Forall_forall in Hb.
      apply Hb in Hj. lia.
    + rewrite length_seq. lia.
Qed.

(** C10, as the code has it.  When the node identities are unique and
    every edge joins two of the nodes, [topologyOrdering], directed or
    not and whatever the degrees, returns every node of a non-empty
    input exactly once: the references returned are a permutation of
    the [n] nodes. *)
Theorem topologyOrdering_permutation
    (degrees : list nat) (edges : list Edge) (nodes : list INode)
    (directed : bool) :
  unique_ids nodes → edges_wf nodes edges → 1 ≤ length nodes →
  ∃ res, topologyOrdering degrees edges nodes (index_nodes 0 nodes ∅)
           directed = Some (Some <$> res)
         ∧ res ≡ₚ seq 0 (length nodes)
         ∧ length res = length nodes.
Proof. apply topologyOrdering_refs. Qed.

(** A node as a caller supplies it: an identity and nothing else. *)
Definition fresh (s : string) : INode :=
  {| id := s; x := None; y := None; degree := None; weight := None;
     children := []; parent := [] |}.

(** C10, as stated, fails: with an edge whose target is not a node,
    [initHierarchy] reads a property of [undefined] and the ordering
    throws. *)
Lemma topologyOrdering_dangling_edge :
  ¬ ∀ degrees edges nodes directed,
      1 ≤ length nodes →
      ∃ res, topologyOrdering degrees edges nodes (index_nodes 0 nodes ∅)
               directed = Some (Some <$> res)
             ∧ res ≡ₚ seq 0 (length nodes)
             ∧ length res = length nodes.
Proof.
  intros Hall.
  destruct (Hall [1; 0] [{| source := "a"; target := "z" |}]
              [fresh "a"; fresh "b"] false) as (res & Hres & _);
    [simpl; lia|].
  vm_compute in Hres. discriminate.
Qed.

(** Unique identities are needed as well: the references go through
    [nodeMap], which keeps the last index of an identity.  With the nodes
    x, a, a the second node is returned as the third. *)
Lemma topologyOrdering_duplicate_ids :
  topologyOrdering [0; 0; 0] [] [fresh "x"; fresh "a"; fresh "a"]
    (index_nodes 0 [fresh "x"; fresh "a"; fresh "a"] ∅) false
  = Some [Some 0; Some 2; Some 2].
Proof. by vm_compute. Qed.

(** *** The placement loop *)

Section placement.
Variables (f : nat → INode → INode) (order : list nat).
Variable body : list INode → nat → option (list INode).
Hypothesis Hnd : NoDup order.
Hypothesis Hbody : ∀ ns i,
  body ns i = ref ← mjoin ((Some <$> order) !! i); Some (alter (f i) ref ns).

Lemma place_loop m : ∀ k ns,
  k + m = length order →
  ∃ ns', forEachM body (seq k m) ns = Some ns'
    ∧ length ns' = length ns
    ∧ ∀ ref,
        (∀ i, k ≤ i → order !! i = Some ref →
              ns' !! ref = f i <$> ns !! ref)
        ∧ ((∀ i, k ≤ i → order !! i ≠ Some ref) → ns' !! ref = ns !! ref).
Proof.
  induction m as [|m IH]; intros k ns Hk; simpl.
  - exists ns. split_and!; [done..|]. intros ref. split; [|done].
    intros i Hi Href. apply lookup_lt_Some in Href. lia.
  - destruct (lookup_lt_is_Some_2 order k) as [rk Hrk]; [lia|].
    rewrite Hbody, list_lookup_fmap, Hrk. simpl.
    destruct (IH (S k) (alter (f k) rk ns)) as (ns' & -> & Hlen & Hns');
      [lia|].
    exists ns'. split; [done|]. rewrite Hlen, length_alter.
    split; [done|]. intros ref. destruct (Hns' ref) as [Hin Hout].
    split.
    + intros i Hi Href. destruct (decide (i = k)) as [->|Hne].
      * assert (ref = rk) as -> by congruence.
        rewrite Hout, list_lookup_alter_eq; [done|].
        intros j Hj Hrj.
        assert (j = k) by (eapply NoDup_lookup; eauto). lia.
      * rewrite (Hin i) by (done || lia).
        rewrite list_lookup_alter_ne; [done|].
        intros ->. apply Hne. eapply NoDup_lookup; eauto.
    + intros Hnone. rewrite Hout by (intros; apply Hnone; lia).
      rewrite list_lookup_alter_ne; [done|].
      intros ->. by apply (Hnone k).
Qed.
End placement.

Lemma order_nodes_ok (self : Layout) :
  nodeMap self = index_nodes 0 (nodes self) ∅ →
  1 ≤ length (nodes self) →
  (ordering self = Some "topology" ∨ ordering self = Some "topology-directed"
   → unique_ids (nodes self) ∧ edges_wf (nodes self) (edges self)) →
  ∃ ns order, order_nodes self = Some (ns, Some <$> order)
    ∧ length ns = length (nodes self)
    ∧ order ≡ₚ seq 0 (length (nodes self)).
Proof.
  intros Hmap Hn Hwf. unfold order_nodes.
  repeat case_bool_decide.
  - destruct Hwf as [Hu He]; [by left|]. rewrite Hmap.
    destruct (topologyOrdering_refs (degrees self) _ _ false Hu He Hn)
      as (res & -> & Hp & _). simpl. by exists (nodes self), res.
  - destruct Hwf as [Hu He]; [by right|]. rewrite Hmap.
    destruct (topologyOrdering_refs (degrees self) _ _ true Hu He Hn)
      as (res & -> & Hp & _). simpl. by exists (nodes self), res.
  - destruct (degreeOrdering (degrees self) (nodes self)) as [ns res] eqn:Hd.
    exists ns, res. unfold degreeOrdering in Hd.
    injection Hd as <- <-. split_and!; [done| |apply js_sort_perm].
    by rewrite length_imap.
  - by exists (nodes self), (seq 0 (length (nodes self))).
Qed.

(** *** Angles and radius on one full circle *)

Lemma Zceil_INR (n : nat) : Zceil (INR n / 1) = Z.of_nat n.
Proof.
  apply Zceil_eq. rewrite <- INR_IZR_INZ. lra.
Qed.

Lemma js_rem_small (i n : nat) :
  i < n → js_rem (INR i) (INR n) = INR i ∧ Zfloor (INR i / INR n) = 0%Z.
Proof.
  intros Hi.
  assert (0 <= INR i)%R as H0 by apply pos_INR.
  assert (INR i < INR n)%R as H1 by (by apply lt_INR).
  assert (0 <= INR i / INR n < 1)%R as [Hq0 Hq1].
  { assert (0 < / INR n)%R as Hinv by (apply Rinv_0_lt_compat; lra).
    unfold Rdiv. split.
    - apply Rmult_le_pos; lra.
    - apply (Rmult_lt_reg_r (INR n)); [lra|].
      rewrite Rmult_assoc, Rinv_l; lra. }
  assert (Zfloor (INR i / INR n) = 0%Z) as Hfl
    by (apply Zfloor_eq; simpl; lra).
  split; [|done]. unfold js_rem.
  rewrite bool_decide_eq_true_2, Hfl by done. simpl. lra.
Qed.

Lemma angle_full_circle (n i : nat) :
  i < n →
  angle_at 0 (2 * PI) ((2 * PI - 0) / INR n * 1) 1 true
    (IZR (Zceil (INR n / 1))) i
  = (INR i * (2 * PI / INR n))%R.
Proof.
  intros Hi. unfold angle_at.
  rewrite Zceil_INR, <- INR_IZR_INZ.
  destruct (js_rem_small i n Hi) as [-> ->].
  assert (INR n ≠ 0%R) by (apply not_0_INR; lia).
  simpl. field. done.
Qed.

Lemma radius_fixed (r : R) (sr er : option R) (n i : nat) :
  r ≠ 0%R → radius_at (Some r) sr er n i = r.
Proof.
  intros Hr. unfold radius_at. simpl.
  by rewrite !bool_decide_eq_true_2.
Qed.

(** The radius the placement loop uses at position [i]. *)
Definition placed_radius (window : option (R * R)) (self : Layout)
    (i : nat) : R :=
  let '(r0, sr0, er0) := resolve_radii (resolve_canvas window self) in
  radius_at r0 sr0 er0 (length (nodes self)) i.

Lemma execute_full_circle
    (window : option (R * R)) (self : Layout) (cx cy : R) :
  center (resolve_canvas window self) = Some (cx, cy) →
  divisions self = 1%R → clockwise self = true → angleRatio self = 1%R →
  startAngle self = 0%R → endAngle self = (2 * PI)%R →
  2 ≤ length (nodes self) →
  (ordering self = Some "topology" ∨ ordering self = Some "topology-directed"
   → unique_ids (nodes self) ∧ edges_wf (nodes self) (edges self)) →
  ∃ self' events order,
    execute window self = Some (self', events, Some (Some <$> order))
    ∧ order ≡ₚ seq 0 (length (nodes self))
    ∧ ∀ i ref, order !! i = Some ref →
        ∃ nd, nodes self' !! ref = Some nd
          ∧ x nd = Some (cx + cos (INR i * (2 * PI / INR (length (nodes self))))
                              * placed_radius window self i)%R
          ∧ y nd = Some (cy + sin (INR i * (2 * PI / INR (length (nodes self))))
                              * placed_radius window self i)%R.
Proof.
  intros Hc Hdiv Hcw Har Hsa Hea Hn Hwf.
  unfold execute, placed_radius.
  rewrite !bool_decide_eq_false_2 by lia.
  set (self1 := resolve_canvas window self).
  assert (center self1 = Some (cx, cy)) as -> by exact Hc.
  change (default (0%R, 0%R) (Some (cx, cy))) with (cx, cy). cbv beta iota.
  set (nm := index_nodes 0 (nodes self1) ∅).
  set (degs := getDegree _ _ _ nm (edges self1)).
  set (self2 := set_index nm degs self1).
  change (resolve_radii self2) with (resolve_radii self1).
  destruct (resolve_radii self1) as [[r0 sr0] er0].
  destruct (order_nodes_ok self2) as (ns & order & -> & Hlen & Hperm);
    [done|simpl; lia|done|].
  cbn [mbind option_bind].
  assert (divisions self2 = 1%R) as -> by done.
  assert (clockwise self2 = true) as -> by done.
  assert (angleRatio self2 = 1%R) as -> by done.
  assert (startAngle self1 = 0%R) as -> by done.
  assert (startAngle self2 = 0%R) as -> by done.
  assert (endAngle self1 = (2 * PI)%R) as -> by done.
  assert (endAngle self2 = (2 * PI)%R) as -> by done.
  change (nodes self2) with (nodes self) in *.
  set (n := length (nodes self)) in *.
  assert (NoDup order) as Hnd by (rewrite Hperm; apply NoDup_seq).
  assert (length order = n) as Hlo by (by rewrite Hperm, length_seq).
  set (f := λ i, place (cx + cos (INR i * (2 * PI / INR n))
                             * radius_at r0 sr0 er0 n i)
                       (cy + sin (INR i * (2 * PI / INR n))
                             * radius_at r0 sr0 er0 n i)
                       (degs !! i)).
  destruct (place_loop f order
              (λ ns i, ref ← mjoin ((Some <$> order) !! i);
                       Some (alter (f i) ref ns))
              Hnd ltac:(done) n 0 ns ltac:(lia))
    as (ns' & Hloop & Hlen' & Hns').
  erewrite forEachM_ext; [rewrite Hloop|]; cycle 1.
  { intros s0 i Hi. apply elem_of_seq in Hi. unfold place_at.
    rewrite angle_full_circle by lia. reflexivity. }
  simpl. do 3 eexists. split; [done|]. split; [done|].
  intros i ref Href. cbn [nodes set_nodes].
  destruct (Hns' ref) as [Hin _].
  rewrite (Hin i) by (done || lia).
  assert (ref < length ns) as Hrl.
  { rewrite Hlen.
    assert (ref ∈ seq 0 n) as Hs
      by (rewrite <- Hperm; by eapply list_elem_of_lookup_2).
    apply elem_of_seq in Hs. lia. }
  destruct (lookup_lt_is_Some_2 ns ref Hrl) as [nd ->]. simpl.
  eexists. by split.
Qed.

Lemma placed_radius_fixed window self r i :
  radius self = Some r → r ≠ 0%R → placed_radius window self i = r.
Proof.
  intros Hr Hr0. unfold placed_radius, resolve_radii.
  assert (radius (resolve_canvas window self) = Some r) as -> by done.
  assert (truthy (Some r) = true) as ->
    by (simpl; by rewrite bool_decide_eq_true_2).
  cbn [negb andb]. by apply radius_fixed.
Qed.

(** The center is never missing once the canvas is resolved: it is the
    configured one, or else the middle of the canvas. *)
Lemma resolve_canvas_center (window : option (R * R)) (self : Layout) :
  ∃ cx cy,
    center (resolve_canvas window self) = Some (cx, cy)
    ∧ (∀ c, center self = Some c → (cx, cy) = c)
    ∧ (center self = None →
       (cx, cy) = (width (resolve_canvas window self) / 2,
                   height (resolve_canvas window self) / 2)%R).
Proof.
  unfold resolve_canvas. cbn [center width height].
  destruct (center self) as [[cx cy]|].
  - exists cx, cy. split_and!; [done| |done]. by intros c [= <-].
  - eexists _, _. split_and!; [done|done|done].
Qed.

(** C7, as the code has it.  With [divisions = 1], [clockwise = true],
    [angleRatio = 1], [startAngle = 0], [endAngle = 2π], a configured
    radius [r] that is not zero and [n ≥ 2] nodes (for the topology
    orderings: unique identities and edges between nodes), [execute]
    places the node at index [i] of the chosen order at
    [(cx + r·cos(i·2π/n), cy + r·sin(i·2π/n))], where [(cx, cy)] is the
    center [execute] works with: the configured one, or else the middle
    of the canvas. *)
Theorem execute_full_circle_positions
    (window : option (R * R)) (self : Layout) (r : R) :
  radius self = Some r → r ≠ 0%R →
  divisions self = 1%R → clockwise self = true → angleRatio self = 1%R →
  startAngle self = 0%R → endAngle self = (2 * PI)%R →
  2 ≤ length (nodes self) →
  (ordering self = Some "topology" ∨ ordering self = Some "topology-directed"
   → unique_ids (nodes self) ∧ edges_wf (nodes self) (edges self)) →
  ∃ cx cy self' events order,
    center (resolve_canvas window self) = Some (cx, cy)
    ∧ (∀ c, center self = Some c → (cx, cy) = c)
    ∧ (center self = None →
       (cx, cy) = (width (resolve_canvas window self) / 2,
                   height (resolve_canvas window self) / 2)%R)
    ∧ execute window self = Some (self', events, Some (Some <$> order))
    ∧ order ≡ₚ seq 0 (length (nodes self))
    ∧ ∀ i ref, order !! i = Some ref →
        ∃ nd, nodes self' !! ref = Some nd
          ∧ x nd = Some (cx + r * cos (INR i * (2 * PI / INR (length (nodes self)))))%R
          ∧ y nd = Some (cy + r * sin (INR i * (2 * PI / INR (length (nodes self)))))%R.
Proof.
  intros Hr Hr0 Hdiv Hcw Har Hsa Hea Hn Hwf.
  destruct (resolve_canvas_center window self)
    as (cx & cy & Hc & Hset & Hunset).
  destruct (execute_full_circle window self cx cy)
    as (self' & events & order & Hex & Hperm & Hpos); [done..|].
  exists cx, cy, self', events, order. split_and!; [done..|].
  intros i ref Href. destruct (Hpos i ref Href) as (nd & Hnd & Hx & Hy).
  rewrite (placed_radius_fixed window self r i) in Hx, Hy by done.
  exists nd. split; [done|]. rewrite Hx, Hy. split; f_equal; ring.
Qed.

(** Four nodes, no edge, radius 100 around (150, 150). *)
Definition ring4 : Layout :=
  {| center := Some (150, 150)%R; radius := Some 100%R;
     startRadius := None; endRadius := None;
     startAngle := 0; endAngle := 2 * PI; clockwise := true;
     divisions := 1; ordering := None; angleRatio := 1;
     nodes := [fresh "a"; fresh "b"; fresh "c"; fresh "d"]; edges := [];
     nodeMap := ∅; degrees := []; width := 300; height := 300;
     onLayoutEnd := true |}.

(** The same ring with no center configured. *)
Definition ring4_unset : Layout :=
  {| center := None; radius := Some 100%R;
     startRadius := None; endRadius := None;
     startAngle := 0; endAngle := 2 * PI; clockwise := true;
     divisions := 1; ordering := None; angleRatio := 1;
     nodes := [fresh "a"; fresh "b"; fresh "c"; fresh "d"]; edges := [];
     nodeMap := ∅; degrees := []; width := 300; height := 200;
     onLayoutEnd := true |}.

Lemma execute_full_circle_positions_witness :
  ∃ cx cy self' events order,
    center (resolve_canvas None ring4_unset) = Some (cx, cy)
    ∧ (cx, cy) = (300 / 2, 200 / 2)%R
    ∧ execute None ring4_unset = Some (self', events, Some (Some <$> order))
    ∧ order ≡ₚ seq 0 4
    ∧ ∀ i ref, order !! i = Some ref →
        ∃ nd, nodes self' !! ref = Some nd
          ∧ x nd = Some (cx + 100 * cos (INR i * (2 * PI / INR 4)))%R
          ∧ y nd = Some (cy + 100 * sin (INR i * (2 * PI / INR 4)))%R.
Proof.
  destruct (execute_full_circle_positions None ring4_unset 100)
    as (cx & cy & self' & events & order & Hc & _ & Hunset & Hex & Hperm
        & Hpos);
    [reflexivity|lra|reflexivity..|simpl; lia| |].
  - intros [H|H]; discriminate H.
  - exists cx, cy, self', events, order.
    split; [exact Hc|]. split; [exact (Hunset eq_refl)|].
    split; [exact Hex|]. split; [exact Hperm|exact Hpos].
Defined.

(** The same two-node ring with [radius = 0]. *)
Definition ring2_radius0 : Layout :=
  {| center := Some (0, 0)%R; radius := Some 0%R;
     startRadius := None; endRadius := None;
     startAngle := 0; endAngle := 2 * PI; clockwise := true;
     divisions := 1; ordering := None; angleRatio := 1;
     nodes := [fresh "a"; fresh "b"]; edges := [];
     nodeMap := ∅; degrees := []; width := 300; height := 300;
     onLayoutEnd := false |}.

(** C7, as stated, fails: a radius configured as [0] is falsy, so the
    loop takes the default radius (150 on a 300 by 300 canvas) and the
    first node lands at [x = 150], not at the center. *)
Lemma execute_radius_zero_uses_default :
  ¬ ∀ (window : option (R * R)) (self : Layout) (cx cy r : R),
      center self = Some (cx, cy) → radius self = Some r →
      divisions self = 1%R → clockwise self = true → angleRatio self = 1%R →
      startAngle self = 0%R → endAngle self = (2 * PI)%R →
      2 ≤ length (nodes self) →
      ∃ self' events order,
        execute window self = Some (self', events, Some (Some <$> order))
        ∧ order ≡ₚ seq 0 (length (nodes self))
        ∧ ∀ i ref, order !! i = Some ref →
            ∃ nd, nodes self' !! ref = Some nd
              ∧ x nd = Some (cx + r * cos (INR i * (2 * PI / INR (length (nodes self)))))%R
              ∧ y nd = Some (cy + r * sin (INR i * (2 * PI / INR (length (nodes self)))))%R.
Proof.
  intros Hall.
  destruct (Hall None ring2_radius0 0%R 0%R 0%R)
    as (self' & events & order & Hex & Hperm & Hpos);
    [reflexivity..|simpl; lia|].
  destruct (execute_full_circle None ring2_radius0 0 0)
    as (self2 & events2 & order2 & Hex2 & _ & Hpos2);
    [reflexivity..|simpl; lia|intros [H|H]; discriminate H|].
  rewrite Hex in Hex2. injection Hex2 as <- _ Hord.
  apply (inj (fmap Some)) in Hord as <-.
  destruct (lookup_lt_is_Some_2 order 0) as [ref Href].
  { apply Permutation_length in Hperm. rewrite Hperm. simpl. lia. }
  destruct (Hpos 0 ref Href) as (nd & Hnd & Hx & _).
  destruct (Hpos2 0 ref Href) as (nd2 & Hnd2 & Hx2 & _).
  rewrite Hnd in Hnd2. injection Hnd2 as <-. rewrite Hx in Hx2.
  injection Hx2 as Hx2. revert Hx2.
  unfold placed_radius, resolve_radii, radius_at. simpl.
  rewrite (bool_decide_eq_false_2 (0 ≠ 0)%R) by (intros H; by apply H).
  simpl. rewrite !Rmult_0_l, cos_0.
  repeat case_bool_decide; lra.
Qed.

(** With a topology ordering and an edge to a node that does not exist,
    [execute] throws before it places anything. *)
Lemma execute_topology_dangling_edge :
  execute None
    {| center := Some (0, 0)%R; radius := Some 1%R;
       startRadius := None; endRadius := None;
       startAngle := 0; endAngle := 2 * PI; clockwise := true;
       divisions := 1; ordering := Some "topology"; angleRatio := 1;
       nodes := [fresh "a"; fresh "b"];
       edges := [{| source := "a"; target := "z" |}];
       nodeMap := ∅; degrees := []; width := 300; height := 300;
       onLayoutEnd := false |}
  = None.
Proof. by vm_compute. Qed.

(** Three nodes and the edges a-c, c-b. *)
Definition path3 : list INode := [fresh "a"; fresh "b"; fresh "c"].
Definition path3_edges : list Edge :=
  [{| source := "a"; target := "c" |}; {| source := "c"; target := "b" |}].

(** The degrees of [path3] with its two edges are 1, 1 and 2. *)
Lemma degreeOrdering_ascending_stable_witness :
  let ns := (degreeOrdering [1; 1; 2] path3).1 in
  let order := (degreeOrdering [1; 1; 2] path3).2 in
  order ≡ₚ seq 0 3
  ∧ (∀ i, i < 3 → degree_of ns i = [1; 1; 2] !! i)
  ∧ StronglySorted (degree_le ns) order
  ∧ ∀ d, filter (λ i, degree_of ns i = Some d) order
         = filter (λ i, degree_of ns i = Some d) (seq 0 3).
Proof.
  apply (degreeOrdering_ascending_stable [1; 1; 2] path3). reflexivity.
Defined.

Lemma topologyOrdering_permutation_witness :
  ∃ res, topologyOrdering [1; 1; 2] path3_edges path3
           (index_nodes 0 path3 ∅) false = Some (Some <$> res)
         ∧ res ≡ₚ seq 0 3 ∧ length res = 3.
Proof.
  apply (topologyOrdering_permutation [1; 1; 2] path3_edges path3 false).
  - unfold unique_ids. apply (bool_decide_unpack _). vm_compute. exact I.
  - unfold edges_wf. apply (bool_decide_unpack _). vm_compute. exact I.
  - simpl. lia.
Defined.

(** A star: [a] joined to [b] and to [c], laid out by degree. *)
Definition star3 : Layout :=
  {| center := Some (0, 0)%R; radius := Some 1%R;
     startRadius := None; endRadius := None;
     startAngle := 0; endAngle := 2 * PI; clockwise := true;
     divisions := 1; ordering := Some "degree"; angleRatio := 1;
     nodes := [fresh "a"; fresh "b"; fresh "c"];
     edges := [{| source := "a"; target := "b" |};
               {| source := "a"; target := "c" |}];
     nodeMap := ∅; degrees := []; width := 300; height := 300;
     onLayoutEnd := false |}.

(** C5 does not hold of the code.  The loop writes
    [layoutNodes[i].weight = degrees[i]]: the degree of the node whose
    input index is [i], given to the node whose position in the order is
    [i].  On the star the degrees are 2, 1, 1, the order is b, c, a, and
    the weights written to a, b, c are 1, 2, 1: [a], of degree 2, gets
    weight 1 and [b], of degree 1, gets weight 2. *)
Theorem execute_weight_is_not_own_degree :
  (λ '(self', _, order), (degrees self', order, weight <$> nodes self'))
    <$> execute None star3
  = Some ([2; 1; 1], Some [Some 1; Some 2; Some 0],
          [Some 1; Some 2; Some 1]).
Proof. vm_compute. reflexivity. Qed.

End CircularFacts.

(** ** The gForce simulation *)
Module GForceFacts.
Import Util GForce.
Local Open Scope R_scope.
Local Open Scope list_scope.

(** *** The acceleration buffer *)

Lemma acc_get_add_eq k v acc :
  (k < length acc)%nat → acc_get (acc_add k v acc) k = acc_get acc k + v.
Proof.
  intros Hk. unfold acc_get, acc_add. rewrite list_lookup_alter_eq.
  by destruct (lookup_lt_is_Some_2 acc k Hk) as [a ->].
Qed.

Lemma acc_get_add_ne k k' v acc :
  k ≠ k' → acc_get (acc_add k v acc) k' = acc_get acc k'.
Proof.
  intros Hk. unfold acc_get, acc_add. by rewrite list_lookup_alter_ne.
Qed.

Lemma acc_add_length k v acc : length (acc_add k v acc) = length acc.
Proof. apply length_alter. Qed.

(** What one pass over the pair [(i, j)] adds to the two entries of a
    node. *)
Definition contribution (acc acc' : list R) (i : nat) : R * R :=
  (acc_get acc' (2 * i) - acc_get acc (2 * i),
   acc_get acc' (2 * i + 1) - acc_get acc (2 * i + 1)).

Definition negated (u v : R * R) : Prop := u.1 = - v.1 ∧ u.2 = - v.2.

(** The distance [calRepulsive] computes for a pair. *)
Definition pair_distance (ni nj : INode) : R :=
  let vecX := num (x ni) - num (x nj) in
  let vecY := num (y ni) - num (y nj) in
  sqrt (vecX * vecX + vecY * vecY) + 0.01.

(** The overlap term is added for the pair. *)
Definition overlap_applies (self : Layout) (ni nj : INode) : Prop :=
  preventOverlap self = true
  ∧ overlaps self ni nj (pair_distance ni nj) = Some true.

Ltac acc_simpl :=
  repeat first
    [ rewrite acc_get_add_eq by (rewrite ?acc_add_length; lia)
    | rewrite acc_get_add_ne by lia ].

(** C1, as the code has it.  For a pair [i < j], what [calRepulsive]
    adds to the accumulator of [i] is the exact negation of what it adds
    to the accumulator of [j] whenever the overlap term is not applied
    to the pair, or the two nodes have the same mass. *)
Theorem repulsive_pair_antisymmetric
    (self : Layout) (i j : nat) (ni nj : INode) (acc acc' : list R) :
  (i < j)%nat → (2 * j + 1 < length acc)%nat →
  (overlap_applies self ni nj → mass self ni = mass self nj) →
  repulsive_pair self i ni j nj acc = Some acc' →
  negated (contribution acc acc' i) (contribution acc acc' j).
Proof.
  intros Hij Hlen Hmass. unfold repulsive_pair.
  destruct (call (nodeStrength self) ni) as [si|];
    cbn [mbind option_bind]; [|discriminate].
  destruct (call (nodeStrength self) nj) as [sj|];
    cbn [mbind option_bind]; [|discriminate].
  fold (pair_distance ni nj).
  destruct (if preventOverlap self then _ else _) as [[|]|] eqn:Hov;
    cbn [mbind option_bind]; [| |discriminate]; intros [= <-].
  - rewrite Hmass.
    + unfold negated, contribution. simpl. acc_simpl. split; lra.
    + unfold overlap_applies. revert Hov.
      destruct (preventOverlap self); [done|discriminate].
  - unfold negated, contribution. simpl. acc_simpl. split; lra.
Qed.

(** On two nodes [calRepulsive] is the pass over their pair. *)
Lemma calRepulsive_two_nodes self ni nj acc :
  calRepulsive self acc [ni; nj] = repulsive_pair self 0 ni 1 nj acc.
Proof.
  unfold calRepulsive, indexed. simpl.
  by destruct (repulsive_pair self 0 ni 1 nj acc).
Qed.

(** A free node, and a node pinned where it stands. *)
Definition node_at (s : string) (px py : R) : INode :=
  {| id := s; x := Some px; y := Some py; fx := None; fy := None;
     size := None |}.

Definition pinned_at (s : string) (px py : R) : INode :=
  {| id := s; x := Some px; y := Some py; fx := Some px; fy := Some py;
     size := None |}.

(** A layout as [execute] leaves it, with overlap prevention on, every
    node of size 10, strength 1000, and a mass function that makes the
    node "hub" twice as heavy as the others. *)
Definition overlap_layout : Layout :=
  {| center := Some (150, 150); maxIteration := 1000;
     edgeStrength := Func (λ _, 200); nodeStrength := Func (λ _, 1000);
     coulombDisScale := 0.005; damping := 0.9; maxSpeed := 1000;
     minMovement := 0.5; interval := 0.02; factor := 1;
     getMass := MassFunc (λ d, if bool_decide (id d = "hub") then 2 else 1);
     getCenter := None; linkDistance := Func (λ _, 1); gravity := 10;
     preventOverlap := true; nodeSize := SizeFunc (λ _, Some 10);
     nodeSpacing := SpacingOther; tick := true;
     nodes := Some [node_at "hub" 1 0; node_at "leaf" 0 0];
     edges := Some []; width := 300; height := 300;
     nodeMap := ∅; nodeIdxMap := ∅; onLayoutEnd := true; degrees := [];
     timeInterval := None |}.

Lemma sqrt_unit_x : sqrt ((1 - 0) * (1 - 0) + (0 - 0) * (0 - 0)) = 1.
Proof.
  replace ((1 - 0) * (1 - 0) + (0 - 0) * (0 - 0)) with 1 by ring.
  apply sqrt_1.
Qed.

(** C1, as stated, fails.  Two nodes at distance 1 (plus 0.01) overlap,
    their sizes being 10; the overlap term is divided by the mass of
    each node, 2 for the one and 1 for the other, so what the pair adds
    to the first accumulator is not the negation of what it adds to the
    second. *)
Lemma repulsive_pair_overlap_unequal_mass :
  ¬ ∀ (self : Layout) (i j : nat) (ni nj : INode) (acc acc' : list R),
      (i < j)%nat → (2 * j + 1 < length acc)%nat →
      repulsive_pair self i ni j nj acc = Some acc' →
      negated (contribution acc acc' i) (contribution acc acc' j).
Proof.
  intros Hall.
  pose proof (Hall overlap_layout 0%nat 1%nat (node_at "hub" 1 0)
                (node_at "leaf" 0 0) [0; 0; 0; 0]) as H.
  unfold repulsive_pair in H. cbn in H.
  rewrite !sqrt_unit_x in H.
  rewrite bool_decide_eq_true_2 in H by lra.
  rewrite (bool_decide_eq_true_2 ("hub" = "hub")) in H by done.
  rewrite (bool_decide_eq_false_2 ("leaf" = "hub")) in H by done.
  destruct (H _ ltac:(lia) ltac:(lia) eq_refl) as [Hx _].
  unfold contribution, acc_get in Hx. simpl in Hx. lra.
Qed.

(** The same configuration with overlap prevention off. *)
Definition plain_layout : Layout :=
  {| center := Some (150, 150); maxIteration := 1000;
     edgeStrength := Func (λ _, 200); nodeStrength := Func (λ _, 1000);
     coulombDisScale := 0.005; damping := 0.9; maxSpeed := 1000;
     minMovement := 0.5; interval := 0.02; factor := 1;
     getMass := MassFunc (λ d, if bool_decide (id d = "hub") then 2 else 1);
     getCenter := None; linkDistance := Func (λ _, 1); gravity := 10;
     preventOverlap := false; nodeSize := SizeUndefined;
     nodeSpacing := SpacingOther; tick := true;
     nodes := Some [node_at "hub" 1 0; node_at "leaf" 0 0];
     edges := Some []; width := 300; height := 300;
     nodeMap := ∅; nodeIdxMap := ∅; onLayoutEnd := true; degrees := [];
     timeInterval := None |}.

(** The buffer after the pass over that pair, from zeros. *)
Definition plain_pair_acc : list R :=
  default [] (repulsive_pair plain_layout 0 (node_at "hub" 1 0)
                1 (node_at "leaf" 0 0) [0; 0; 0; 0]).

Lemma repulsive_pair_antisymmetric_witness :
  negated (contribution [0; 0; 0; 0] plain_pair_acc 0)
          (contribution [0; 0; 0; 0] plain_pair_acc 1).
Proof.
  apply (repulsive_pair_antisymmetric plain_layout 0 1
           (node_at "hub" 1 0) (node_at "leaf" 0 0) [0; 0; 0; 0]
           plain_pair_acc).
  - lia.
  - simpl. lia.
  - intros [Hp _]. discriminate Hp.
  - reflexivity.
Defined.

(** *** updateVelocity *)

Lemma indexed_snoc {A} (l : list A) (a : A) :
  indexed (l ++ [a]) = indexed l ++ [(length l, a)].
Proof.
  unfold indexed. rewrite imap_app. simpl. do 3 f_equal. lia.
Qed.

Lemma updateVelocity_snoc self acc vel si nodes a :
  updateVelocity self acc vel si (nodes ++ [a])
  = <[(2 * length nodes + 1)%nat := (velocity self acc si (length nodes)).2]>
      (<[(2 * length nodes)%nat := (velocity self acc si (length nodes)).1]>
         (updateVelocity self acc vel si nodes)).
Proof.
  unfold updateVelocity. by rewrite indexed_snoc, foldl_app.
Qed.

Lemma updateVelocity_length self acc vel si nodes :
  length (updateVelocity self acc vel si nodes) = length vel.
Proof.
  induction nodes as [|a nodes IH] using rev_ind; [done|].
  by rewrite updateVelocity_snoc, !length_insert.
Qed.

(** The two entries of node [i] hold what [velocity] computes for it. *)
Lemma updateVelocity_entries self acc vel si nodes i :
  (i < length nodes)%nat → (2 * length nodes ≤ length vel)%nat →
  acc_get (updateVelocity self acc vel si nodes) (2 * i)
  = (velocity self acc si i).1
  ∧ acc_get (updateVelocity self acc vel si nodes) (2 * i + 1)
    = (velocity self acc si i).2.
Proof.
  induction nodes as [|a nodes IH] using rev_ind; intros Hi Hlen;
    [simpl in Hi; lia|].
  rewrite length_app in Hi, Hlen. simpl in Hi, Hlen.
  rewrite updateVelocity_snoc.
  pose proof (updateVelocity_length self acc vel si nodes) as Hl.
  unfold acc_get.
  destruct (decide (i = length nodes)) as [->|Hne].
  - rewrite list_lookup_insert_ne by lia.
    rewrite list_lookup_insert_eq by lia.
    rewrite list_lookup_insert_eq by (rewrite length_insert; lia). done.
  - rewrite !list_lookup_insert_ne by lia.
    apply IH; lia.
Qed.

(** The velocity before the speed limit: the acceleration times
    [stepInterval × damping], a zero product replaced by 0.01. *)
Definition raw_velocity (self : Layout) (acc : list R) (si : R) (i : nat)
    : R * R :=
  (or_default (acc_get acc (2 * i) * (si * damping self)),
   or_default (acc_get acc (2 * i + 1) * (si * damping self))).

Definition norm (v : R * R) : R := sqrt (v.1 * v.1 + v.2 * v.2).

Lemma or_default_nonzero v : v ≠ 0 → or_default v = v.
Proof. intros. unfold or_default. by rewrite bool_decide_eq_false_2. Qed.

Lemma or_default_zero : or_default 0 = 0.01.
Proof. unfold or_default. by rewrite bool_decide_eq_true_2. Qed.

Lemma norm_scale (k : R) (v : R * R) :
  0 <= k → norm (k * v.1, k * v.2) = k * norm v.
Proof.
  intros Hk. unfold norm. simpl.
  assert (0 <= v.1 * v.1 + v.2 * v.2) as Hs by nra.
  apply sqrt_lem_1; [nra|by apply Rmult_le_pos, sqrt_pos|].
  pose proof (sqrt_sqrt _ Hs) as Hq.
  replace (k * sqrt (v.1 * v.1 + v.2 * v.2) * (k * sqrt (v.1 * v.1 + v.2 * v.2)))
    with (k * k * (sqrt (v.1 * v.1 + v.2 * v.2) * sqrt (v.1 * v.1 + v.2 * v.2)))
    by ring.
  rewrite Hq. ring.
Qed.

Lemma velocity_raw self acc si i :
  velocity self acc si i
  = let raw := raw_velocity self acc si i in
    if bool_decide (maxSpeed self < norm raw)
    then (maxSpeed self / norm raw * raw.1, maxSpeed self / norm raw * raw.2)
    else raw.
Proof. reflexivity. Qed.

(** C8, as the code has it.  For every node [i], [updateVelocity] takes
    the accumulated acceleration multiplied componentwise by
    [stepInterval × damping], a component whose product is zero being
    replaced by 0.01; it stores that vector when its length does not
    exceed [maxSpeed], and otherwise (for [maxSpeed ≥ 0]) stores it
    scaled by a factor [k ≥ 0] to length exactly [maxSpeed]. *)
Theorem updateVelocity_stored
    (self : Layout) (acc vel : list R) (si : R) (nodes : list INode)
    (i : nat) :
  (i < length nodes)%nat → (2 * length nodes ≤ length vel)%nat →
  0 <= maxSpeed self →
  let param := si * damping self in
  let raw := raw_velocity self acc si i in
  let vel' := updateVelocity self acc vel si nodes in
  let stored := (acc_get vel' (2 * i), acc_get vel' (2 * i + 1)) in
  (acc_get acc (2 * i) * param ≠ 0 → raw.1 = acc_get acc (2 * i) * param)
  ∧ (acc_get acc (2 * i) * param = 0 → raw.1 = 0.01)
  ∧ (acc_get acc (2 * i + 1) * param ≠ 0 →
     raw.2 = acc_get acc (2 * i + 1) * param)
  ∧ (acc_get acc (2 * i + 1) * param = 0 → raw.2 = 0.01)
  ∧ (norm raw <= maxSpeed self → stored = raw)
  ∧ (maxSpeed self < norm raw →
     norm stored = maxSpeed self
     ∧ ∃ k, 0 <= k ∧ stored = (k * raw.1, k * raw.2)).
Proof.
  intros Hi Hlen Hmax param raw vel' stored.
  destruct (updateVelocity_entries self acc vel si nodes i Hi Hlen)
    as [Hx Hy].
  assert (stored = velocity self acc si i) as Hst.
  { unfold stored, vel'. rewrite Hx, Hy. by destruct (velocity _ _ _ _). }
  split_and!.
  - intros Hnz. by apply or_default_nonzero.
  - intros Hz. subst raw param. unfold raw_velocity. cbn [fst snd].
    rewrite Hz. apply or_default_zero.
  - intros Hnz. by apply or_default_nonzero.
  - intros Hz. subst raw param. unfold raw_velocity. cbn [fst snd].
    rewrite Hz. apply or_default_zero.
  - intros Hle. rewrite Hst, velocity_raw. cbv zeta. fold raw.
    rewrite bool_decide_eq_false_2 by lra. done.
  - intros Hgt. rewrite Hst, velocity_raw. cbv zeta. fold raw.
    rewrite bool_decide_eq_true_2 by lra.
    assert (0 <= maxSpeed self / norm raw) as Hk.
    { apply Rmult_le_pos; [done|]. left. apply Rinv_0_lt_compat. lra. }
    split.
    + rewrite (norm_scale _ raw Hk). field. lra.
    + by exists (maxSpeed self / norm raw).
Qed.

Lemma updateVelocity_stored_witness :
  let raw := raw_velocity plain_layout [0; 0; 0; 0] 0.02 0 in
  let vel' := updateVelocity plain_layout [0; 0; 0; 0] [0; 0; 0; 0] 0.02
                [node_at "hub" 1 0; node_at "leaf" 0 0] in
  let stored := (acc_get vel' (2 * 0), acc_get vel' (2 * 0 + 1)) in
  (acc_get [0; 0; 0; 0] (2 * 0) * (0.02 * 0.9) ≠ 0 →
   raw.1 = acc_get [0; 0; 0; 0] (2 * 0) * (0.02 * 0.9))
  ∧ (acc_get [0; 0; 0; 0] (2 * 0) * (0.02 * 0.9) = 0 → raw.1 = 0.01)
  ∧ (acc_get [0; 0; 0; 0] (2 * 0 + 1) * (0.02 * 0.9) ≠ 0 →
     raw.2 = acc_get [0; 0; 0; 0] (2 * 0 + 1) * (0.02 * 0.9))
  ∧ (acc_get [0; 0; 0; 0] (2 * 0 + 1) * (0.02 * 0.9) = 0 → raw.2 = 0.01)
  ∧ (norm raw <= 1000 → stored = raw)
  ∧ (1000 < norm raw →
     norm stored = 1000 ∧ ∃ k, 0 <= k ∧ stored = (k * raw.1, k * raw.2)).
Proof.
  apply (updateVelocity_stored plain_layout [0; 0; 0; 0] [0; 0; 0; 0] 0.02
           [node_at "hub" 1 0; node_at "leaf" 0 0] 0).
  - simpl. lia.
  - simpl. lia.
  - simpl. lra.
Defined.

(** C8, as stated, fails: with a zero acceleration the product is zero
    and the velocity stored is (0.01, 0.01), not (0, 0). *)
Lemma updateVelocity_zero_acceleration :
  ¬ ∀ (self : Layout) (acc vel : list R) (si : R) (nodes : list INode)
      (i : nat),
      (i < length nodes)%nat → (2 * length nodes ≤ length vel)%nat →
      let param := si * damping self in
      let v := (acc_get acc (2 * i) * param,
                acc_get acc (2 * i + 1) * param) in
      let vel' := updateVelocity self acc vel si nodes in
      norm v <= maxSpeed self →
      (acc_get vel' (2 * i), acc_get vel' (2 * i + 1)) = v.
Proof.
  intros Hall.
  pose proof (Hall plain_layout [0; 0; 0; 0] [0; 0; 0; 0] 0.02
                [node_at "hub" 1 0; node_at "leaf" 0 0] 0%nat
                ltac:(simpl; lia) ltac:(simpl; lia)) as H.
  cbv zeta in H.
  destruct (updateVelocity_entries plain_layout [0; 0; 0; 0] [0; 0; 0; 0]
              0.02 [node_at "hub" 1 0; node_at "leaf" 0 0] 0)
    as [Hx _]; [simpl; lia..|].
  rewrite Hx in H. rewrite velocity_raw in H.
  unfold raw_velocity, norm, acc_get in H. simpl in H.
  rewrite !Rmult_0_l in H. rewrite !or_default_zero in H.
  assert (sqrt (0 + 0) = 0) as Hs0.
  { replace (0 + 0) with 0 by ring. apply sqrt_0. }
  rewrite Hs0 in H.
  assert (sqrt (0.01 * 0.01 + 0.01 * 0.01) <= 1) as Hs1.
  { rewrite <- sqrt_1. apply sqrt_le_1_alt. lra. }
  rewrite bool_decide_eq_false_2 in H by lra.
  specialize (H ltac:(lra)). simpl in H. injection H as H _. lra.
Qed.

(** *** One step of the simulation *)

Lemma self_fire_onLayoutEnd w : self (fire_onLayoutEnd w) = self w.
Proof. unfold fire_onLayoutEnd. by destruct (onLayoutEnd (self w)). Qed.

Lemma self_clearInterval w : self (clearInterval w) = self w.
Proof. unfold clearInterval. by destruct (timeInterval (self w)). Qed.

Lemma trace_fire_onLayoutEnd w :
  trace (fire_onLayoutEnd w)
  = trace w ++ (if onLayoutEnd (self w) then [LayoutEnd] else []).
Proof.
  unfold fire_onLayoutEnd.
  destruct (onLayoutEnd (self w)); simpl; [done|by rewrite app_nil_r].
Qed.

Lemma trace_clearInterval w : trace (clearInterval w) = trace w.
Proof. unfold clearInterval. by destruct (timeInterval (self w)). Qed.

(** The state a step leaves, given the velocities it has computed: the
    positions are updated, the callbacks fired, the interval cleared when
    the layout has converged or the counter has reached its cap. *)
Definition finish_step (c : Closure) (w : World) (ns ns' : list INode)
    : Closure * World :=
  let w := with_self (set_nodes (Some ns') (self w)) w in
  let w := if tick (self w) then emit Tick w else w in
  let w := if bool_decide (movement ns ns' < minMovement (self w))
           then fire_onLayoutEnd (clearInterval w) else w in
  let c := {| c_edges := c_edges c; c_maxIteration := c_maxIteration c;
              iter := S (iter c) |} in
  let w := if bool_decide (c_maxIteration c <= INR (iter c))
           then clearInterval (fire_onLayoutEnd w) else w in
  (c, w).

Lemma interval_callback_finish c w ns r :
  nodes (self w) = Some ns → interval_callback c w = Some r →
  ∃ vel, r = finish_step c w ns
                 (updatePosition vel (stepInterval_at (self w) (iter c)) ns).
Proof.
  intros Hns. unfold interval_callback. rewrite Hns.
  destruct (calRepulsive _ _ _) as [acc1|]; cbn [mbind option_bind];
    [|discriminate].
  destruct (match c_edges c with Some _ => _ | None => _ end) as [acc2|];
    cbn [mbind option_bind]; [|discriminate].
  destruct (calGravity _ _ _) as [acc3|]; cbn [mbind option_bind];
    [|discriminate].
  intros [= <-]. by eexists.
Qed.

Lemma self_finish_step c w ns ns' :
  self (finish_step c w ns ns').2 = set_nodes (Some ns') (self w).
Proof.
  unfold finish_step. cbv zeta. cbn [snd].
  repeat first
    [ rewrite self_clearInterval | rewrite self_fire_onLayoutEnd
    | match goal with |- context [if ?b then _ else _] => destruct b end ];
    done.
Qed.

Lemma closure_finish_step c w ns ns' :
  (finish_step c w ns ns').1
  = {| c_edges := c_edges c; c_maxIteration := c_maxIteration c;
       iter := S (iter c) |}.
Proof. done. Qed.

(** What a step adds to the trace. *)
Lemma trace_finish_step c w ns ns' :
  trace (finish_step c w ns ns').2
  = trace w
    ++ (if tick (self w) then [Tick] else [])
    ++ (if bool_decide (movement ns ns' < minMovement (self w))
        then (if onLayoutEnd (self w) then [LayoutEnd] else []) else [])
    ++ (if bool_decide (c_maxIteration c <= INR (S (iter c)))
        then (if onLayoutEnd (self w) then [LayoutEnd] else []) else []).
Proof.
  unfold finish_step. cbv zeta. cbn [snd iter c_maxIteration].
  destruct (tick (self w)) eqn:Ht; cbn [self with_self set_nodes tick];
    rewrite ?Ht; cbn [self emit minMovement set_nodes];
    destruct (bool_decide (movement ns ns' < _));
    destruct (bool_decide (c_maxIteration c <= _));
    rewrite ?trace_clearInterval, ?trace_fire_onLayoutEnd,
      ?trace_clearInterval, ?self_fire_onLayoutEnd, ?self_clearInterval;
    cbn [self trace emit with_self onLayoutEnd set_nodes];
    by rewrite <- ?app_assoc, ?app_nil_r.
Qed.

(** *** The step does not throw *)

Lemma forEachM_is_Some {A S} (f : S → A → option S) (l : list A) (s : S) :
  (∀ s a, a ∈ l → is_Some (f s a)) → is_Some (forEachM f l s).
Proof.
  revert s. induction l as [|a l IH]; intros s Hf; simpl; [by eexists|].
  destruct (Hf s a) as [s' ->]; [apply list_elem_of_here|]. simpl.
  apply IH. intros. by apply Hf, list_elem_of_further.
Qed.

(** What [execute] sets up before it calls [run]: the strengths and the
    link distance are functions, so is the node size when overlaps are
    prevented, the center is set, and the edges the callback has captured
    join nodes of the array. *)
Record ready (c : Closure) (s : Layout) : Prop := {
  ready_nodeStrength : ∃ f, nodeStrength s = Func f;
  ready_nodeSize : preventOverlap s = true → ∃ f, nodeSize s = SizeFunc f;
  ready_center : is_Some (center s);
  ready_linkDistance : ∃ f, linkDistance s = Func f;
  ready_edgeStrength : ∃ f, edgeStrength s = Func f;
  ready_edges : ∀ es ns, c_edges c = Some es → nodes s = Some ns →
    Forall (λ e, (∃ i, nodeMap s !! source e = Some i ∧ (i < length ns)%nat)
               ∧ (∃ j, nodeMap s !! target e = Some j ∧ (j < length ns)%nat))
      es
}.

Lemma repulsive_pair_is_Some s c i ni j nj acc :
  ready c s → is_Some (repulsive_pair s i ni j nj acc).
Proof.
  intros [[f Hf] Hsize _ _ _ _]. unfold repulsive_pair. rewrite Hf. simpl.
  destruct (preventOverlap s); simpl.
  - destruct Hsize as [g Hg]; [done|]. unfold overlaps. rewrite Hg. simpl.
    by destruct (match g ni with Some _ => _ | None => _ end).
  - done.
Qed.

Lemma calRepulsive_is_Some s c acc ns :
  ready c s → is_Some (calRepulsive s acc ns).
Proof.
  intros Hr. unfold calRepulsive.
  apply forEachM_is_Some. intros acc1 [i ni] _.
  apply forEachM_is_Some. intros acc2 [j nj] _.
  case_bool_decide; [done|]. by eapply repulsive_pair_is_Some.
Qed.

Lemma calAttractive_is_Some s c acc ns es :
  ready c s → c_edges c = Some es → nodes s = Some ns →
  is_Some (calAttractive s ns acc es).
Proof.
  intros [_ _ _ [fl Hl] [fs Hs] Hedges] Hes Hns. unfold calAttractive.
  specialize (Hedges es ns Hes Hns). rewrite Forall_forall in Hedges.
  apply forEachM_is_Some. intros acc1 e He.
  destruct (Hedges e He) as [(i & Hi & Hil) (j & Hj & Hjl)].
  unfold attractive_edge. rewrite Hi, Hj, Hl, Hs. simpl.
  destruct (lookup_lt_is_Some_2 ns i Hil) as [si ->].
  destruct (lookup_lt_is_Some_2 ns j Hjl) as [sj ->]. done.
Qed.

Lemma calGravity_is_Some s c acc ns :
  ready c s → is_Some (calGravity s acc ns).
Proof.
  intros [_ _ [ctr Hc] _ _ _]. unfold calGravity.
  apply forEachM_is_Some. intros acc1 [i node] _.
  unfold gravity_node. rewrite Hc. simpl.
  destruct (match getCenter s with Some _ => _ | None => _ end) as [[vx vy] g].
  by case_bool_decide.
Qed.

Lemma interval_callback_is_Some c w ns :
  ready c (self w) → nodes (self w) = Some ns →
  ∃ vel, interval_callback c w
         = Some (finish_step c w ns
                   (updatePosition vel (stepInterval_at (self w) (iter c)) ns)).
Proof.
  intros Hr Hns.
  assert (is_Some (interval_callback c w)) as [r Hcb].
  { unfold interval_callback. rewrite Hns.
    destruct (calRepulsive_is_Some (self w) c
                (replicate (2 * length ns) 0) ns Hr) as [acc1 ->].
    cbn [mbind option_bind].
    assert (is_Some (match c_edges c with
                     | Some es => calAttractive (self w) ns acc1 es
                     | None => Some acc1
                     end)) as [acc2 ->].
    { destruct (c_edges c) as [es|] eqn:Hes; [|done].
      by eapply calAttractive_is_Some. }
    cbn [mbind option_bind].
    destruct (calGravity_is_Some (self w) c acc2 ns Hr) as [acc3 ->].
    done. }
  destruct (interval_callback_finish c w ns r Hns Hcb) as [vel ->].
  by exists vel.
Qed.

Lemma updatePosition_length vel si ns :
  length (updatePosition vel si ns) = length ns.
Proof. apply length_imap. Qed.

Lemma ready_finish_step c w ns ns' :
  ready c (self w) → nodes (self w) = Some ns → length ns' = length ns →
  ready (finish_step c w ns ns').1 (self (finish_step c w ns ns').2).
Proof.
  intros [H1 H2 H3 H4 H5 H6] Hns Hlen.
  rewrite self_finish_step, closure_finish_step.
  split; try done. simpl. intros es ns0 Hes [= <-].
  rewrite Hlen. by apply H6.
Qed.

(** *** Pinned nodes *)

Lemma updatePosition_lookup vel si ns i nd :
  ns !! i = Some nd → updatePosition vel si ns !! i = Some (move vel si i nd).
Proof. intros Hnd. unfold updatePosition. by rewrite list_lookup_imap, Hnd. Qed.

Lemma move_pinned vel si i nd a b :
  fx nd = Some a → fy nd = Some b →
  x (move vel si i nd) = Some a ∧ y (move vel si i nd) = Some b
  ∧ fx (move vel si i nd) = Some a ∧ fy (move vel si i nd) = Some b.
Proof. intros Ha Hb. unfold move. by rewrite Ha, Hb. Qed.

(** The nodes keep their place in the array, and their pins. *)
Lemma steps_pinned (k : nat) : ∀ c w ns i nd a b c' w',
  nodes (self w) = Some ns →
  ns !! i = Some nd → fx nd = Some a → fy nd = Some b →
  steps (S k) c w = Some (c', w') →
  ∃ ns' nd', nodes (self w') = Some ns' ∧ ns' !! i = Some nd'
             ∧ x nd' = Some a ∧ y nd' = Some b.
Proof.
  induction k as [|k IH]; intros c w ns i nd a b c' w' Hns Hnd Ha Hb Hsteps;
    cbn [steps] in Hsteps;
    destruct (interval_callback c w) as [r|] eqn:Hcb;
    cbn [mbind option_bind] in Hsteps; try discriminate;
    destruct (interval_callback_finish c w ns r Hns Hcb) as [vel ->];
    set (si := stepInterval_at (self w) (iter c)) in *;
    pose proof (updatePosition_lookup vel si ns i nd Hnd) as Hnd1;
    destruct (move_pinned vel si i nd a b Ha Hb) as (Hx1 & Hy1 & Ha1 & Hb1);
    pose proof (self_finish_step c w ns (updatePosition vel si ns)) as Hself;
    destruct (finish_step c w ns (updatePosition vel si ns)) as [c1 w1];
    cbn [snd] in Hself.
  - injection Hsteps as <- <-.
    exists (updatePosition vel si ns), (move vel si i nd).
    by rewrite Hself.
  - eapply (IH c1 w1 (updatePosition vel si ns) i (move vel si i nd));
      [by rewrite Hself|done..].
Qed.

(** From the state [execute] sets up, steps run: none throws. *)
Lemma steps_run (k : nat) : ∀ c w ns,
  ready c (self w) → nodes (self w) = Some ns → is_Some (steps k c w).
Proof.
  induction k as [|k IH]; intros c w ns Hr Hns; cbn [steps]; [done|].
  destruct (interval_callback_is_Some c w ns Hr Hns) as [vel ->].
  cbn [mbind option_bind].
  pose proof (ready_finish_step c w ns _ Hr Hns
                (updatePosition_length vel
                   (stepInterval_at (self w) (iter c)) ns)) as Hr1.
  pose proof (self_finish_step c w ns
                (updatePosition vel (stepInterval_at (self w) (iter c)) ns))
    as Hself.
  destruct (finish_step c w ns _) as [c1 w1]. cbn [fst snd] in *.
  eapply IH; [done|by rewrite Hself].
Qed.

(** C3.  A node whose [fx] and [fy] are both numbers stands exactly at
    [(fx, fy)] after any number of simulation steps (one or more),
    whatever the forces accumulated for it; and from the state [execute]
    sets up, the steps do run. *)
Theorem pinned_node_stays
    (k : nat) (c : Closure) (w : World) (ns : list INode) (i : nat)
    (nd : INode) (a b : R) :
  nodes (self w) = Some ns →
  ns !! i = Some nd → fx nd = Some a → fy nd = Some b →
  (∀ c' w', steps (S k) c w = Some (c', w') →
     ∃ ns' nd', nodes (self w') = Some ns' ∧ ns' !! i = Some nd'
                ∧ x nd' = Some a ∧ y nd' = Some b)
  ∧ (ready c (self w) → is_Some (steps (S k) c w)).
Proof.
  intros Hns Hnd Ha Hb. split.
  - intros c' w'. by apply steps_pinned with (ns := ns) (nd := nd).
  - intros Hr. by eapply steps_run.
Qed.

(** A browser window of 300 by 300 where [Math.random] always answers
    one half. *)
Definition browser : Env := {| window := Some (300, 300); random := λ _, 0.5 |}.

(** A layout object with the values of its field initialisers, on the
    given graph, with the given iteration cap, listening to [tick] and to
    [onLayoutEnd]. *)
Definition initial_layout (ns : list INode) (es : list Edge) (cap : R)
    : Layout :=
  {| center := None; maxIteration := cap;
     edgeStrength := Num 200; nodeStrength := Num 1000;
     coulombDisScale := 0.005; damping := 0.9; maxSpeed := 1000;
     minMovement := 0.5; interval := 0.02; factor := 1;
     getMass := MassUnset; getCenter := None; linkDistance := Num 1;
     gravity := 10; preventOverlap := true; nodeSize := SizeUndefined;
     nodeSpacing := SpacingOther; tick := true;
     nodes := Some ns; edges := Some es; width := 300; height := 300;
     nodeMap := ∅; nodeIdxMap := ∅; onLayoutEnd := true; degrees := [];
     timeInterval := None |}.

Definition initial_world (s : Layout) : World :=
  {| self := s; timers := ∅; next_timer := 1; draws := 0; trace := [] |}.

(** Node "a" is pinned at (5, 5) and stands at the origin; "b" is free;
    one edge joins them. *)
Definition pinned_pair : list INode :=
  [{| id := "a"; x := Some 0; y := Some 0; fx := Some 5; fy := Some 5;
      size := None |};
   node_at "b" 100 0].

Definition pinned_pair_world : World :=
  execute browser
    (initial_world
       (initial_layout pinned_pair [{| source := "a"; target := "b" |}] 1000)).

Definition pinned_pair_closure : Closure :=
  {| c_edges := Some [{| source := "a"; target := "b" |}];
     c_maxIteration := 1000; iter := 0 |}.

Lemma pinned_pair_ready : ready pinned_pair_closure (self pinned_pair_world).
Proof.
  split.
  - by eexists.
  - intros _. by eexists.
  - by eexists.
  - by eexists.
  - by eexists.
  - intros es ns [= <-] [= <-]. repeat constructor.
    + exists 0%nat. split; [by vm_compute|simpl; lia].
    + exists 1%nat. split; [by vm_compute|simpl; lia].
Qed.

Lemma pinned_node_stays_witness :
  ∃ c' w' ns' nd',
    steps 3 pinned_pair_closure pinned_pair_world = Some (c', w')
    ∧ nodes (self w') = Some ns' ∧ ns' !! 0%nat = Some nd'
    ∧ x nd' = Some 5 ∧ y nd' = Some 5.
Proof.
  destruct (pinned_node_stays 2 pinned_pair_closure pinned_pair_world
              pinned_pair 0
              {| id := "a"; x := Some 0; y := Some 0; fx := Some 5;
                 fy := Some 5; size := None |} 5 5)
    as [Hpinned Hrun]; [reflexivity..|].
  destruct (Hrun pinned_pair_ready) as [[c' w'] Hsteps].
  destruct (Hpinned c' w' Hsteps) as (ns' & nd' & Hrest).
  exists c', w', ns', nd'. split; [exact Hsteps|exact Hrest].
Defined.

(** *** The end-of-layout callback *)

(** A node that stands where it is pinned. *)
Definition in_place (nd : INode) : Prop :=
  ∃ a b, x nd = Some a ∧ y nd = Some b ∧ fx nd = Some a ∧ fy nd = Some b.

Lemma move_in_place vel si i nd :
  in_place nd →
  num (x (move vel si i nd)) = num (x nd)
  ∧ num (y (move vel si i nd)) = num (y nd).
Proof.
  intros (a & b & Hx & Hy & Hfx & Hfy). unfold move.
  by rewrite Hfx, Hfy, Hx, Hy.
Qed.

Lemma distance_sum_still (g : nat → INode → INode) (ns : list INode) (m : R) :
  (∀ i nd, nd ∈ ns → num (x (g i nd)) = num (x nd)
                     ∧ num (y (g i nd)) = num (y nd)) →
  foldl (λ m '(p, node),
           let vx := num (x node) - num (x p) in
           let vy := num (y node) - num (y p) in
           m + sqrt (vx * vx + vy * vy))
    m (zip ns (imap g ns)) = m.
Proof.
  revert g m. induction ns as [|nd ns IH]; intros g m Hg; simpl; [done|].
  destruct (Hg 0%nat nd) as [-> ->]; [apply list_elem_of_here|].
  rewrite IH by (intros; by apply Hg, list_elem_of_further).
  replace ((num (x nd) - num (x nd)) * (num (x nd) - num (x nd))
           + (num (y nd) - num (y nd)) * (num (y nd) - num (y nd)))
    with 0 by ring.
  rewrite sqrt_0. lra.
Qed.

Lemma movement_in_place vel si ns :
  Forall in_place ns → movement ns (updatePosition vel si ns) = 0.
Proof.
  intros Hns. unfold movement, updatePosition.
  rewrite distance_sum_still; [lra|].
  intros i nd Hnd. rewrite Forall_forall in Hns.
  by apply move_in_place, Hns.
Qed.

Lemma timers_cleared_at_cap c w ns ns' t :
  timeInterval (self w) = Some t →
  c_maxIteration c <= INR (S (iter c)) →
  timers (finish_step c w ns ns').2 !! t = None.
Proof.
  intros Ht Hcap. unfold finish_step. cbv zeta. cbn [snd iter c_maxIteration].
  rewrite (bool_decide_eq_true_2 _ Hcap).
  unfold clearInterval at 1. rewrite self_fire_onLayoutEnd.
  match goal with
  | |- context [timeInterval (self ?w0)] =>
      assert (timeInterval (self w0) = Some t) as ->
  end.
  { destruct (tick _); destruct (bool_decide (movement _ _ < _));
      rewrite ?self_fire_onLayoutEnd, ?self_clearInterval; done. }
  simpl. apply lookup_delete_eq.
Qed.

Lemma fire_inactive t w : timers w !! t = None → fire t w = w.
Proof. intros Ht. unfold fire. by rewrite Ht. Qed.

Lemma turns_inactive n t w : timers w !! t = None → turns n t w = w.
Proof.
  intros Ht. induction n as [|n IH]; simpl; [done|].
  by rewrite fire_inactive.
Qed.

(** Two nodes that stand where they are pinned, and one iteration
    allowed. *)
Definition still_pair : list INode :=
  [pinned_at "a" 0 0; pinned_at "b" 100 0].

Definition capped_world : World :=
  execute browser (initial_world (initial_layout still_pair [] 1)).

Definition capped_closure : Closure :=
  {| c_edges := Some []; c_maxIteration := 1; iter := 0 |}.

Lemma capped_ready : ready capped_closure (self capped_world).
Proof.
  split; try by eexists.
  intros es ns Hes _. simpl in Hes. injection Hes as <-. constructor.
Qed.

(** C2 does not hold of the code.  [execute] on two nodes that do not
    move, with [maxIteration = 1]: the first step finds the mean movement
    below [minMovement], clears the interval and calls [onLayoutEnd];
    it then increments [iter], finds it has reached [maxIteration], and
    calls [onLayoutEnd] a second time.  However many turns the scheduler
    takes, the callbacks fired are [tick] once and [onLayoutEnd] twice. *)
Theorem onLayoutEnd_fired_twice (n : nat) :
  trace (turns (S n) 1 capped_world) = [Tick; LayoutEnd; LayoutEnd].
Proof.
  destruct (interval_callback_is_Some capped_closure capped_world still_pair
              capped_ready eq_refl) as [vel Hcb].
  set (ns' := updatePosition vel _ still_pair) in Hcb.
  assert (fire 1 capped_world
          = {| self := self (finish_step capped_closure capped_world
                               still_pair ns').2;
               timers := alter (λ _, (finish_step capped_closure capped_world
                                        still_pair ns').1) 1%nat
                           (timers (finish_step capped_closure capped_world
                                      still_pair ns').2);
               next_timer := next_timer (finish_step capped_closure
                                           capped_world still_pair ns').2;
               draws := draws (finish_step capped_closure capped_world
                                 still_pair ns').2;
               trace := trace (finish_step capped_closure capped_world
                                 still_pair ns').2 |}) as Hfire.
  { unfold fire.
    assert (timers capped_world !! 1%nat = Some capped_closure) as ->
      by (by vm_compute).
    rewrite Hcb. by destruct (finish_step _ _ _ _). }
  cbn [turns]. rewrite Hfire, turns_inactive.
  - cbn [trace]. rewrite trace_finish_step.
    assert (movement still_pair ns' = 0) as ->.
    { apply movement_in_place. repeat constructor; by do 2 eexists. }
    assert (tick (self capped_world) = true) as -> by done.
    assert (onLayoutEnd (self capped_world) = true) as -> by done.
    assert (minMovement (self capped_world) = 0.5) as -> by done.
    rewrite !bool_decide_eq_true_2; [done|simpl; lra|lra].
  - cbn [timers]. rewrite lookup_alter_eq.
    rewrite timers_cleared_at_cap; [done|done|simpl; lra].
Qed.

(** *** execute on a layout that is running *)

(** Both coordinates of the node are numbers. *)
Definition placed (nd : INode) : Prop := is_Some (x nd) ∧ is_Some (y nd).

Lemma seed_placed env width height ns : ∀ d seeded,
  Forall placed ns →
  foldl (seed_node env width height) (d, seeded) ns = (d, seeded ++ ns).
Proof.
  induction ns as [|nd ns IH]; intros d seeded Hns; simpl.
  - by rewrite app_nil_r.
  - apply Forall_cons in Hns as [[[px Hx] [py Hy]] Hns].
    rewrite Hx, Hy, IH by done.
    rewrite <- app_assoc. do 3 f_equal.
    destruct nd; simpl in *; by subst.
Qed.

Lemma seed_ids env width height ns : ∀ d seeded,
  ∃ d' ns', foldl (seed_node env width height) (d, seeded) ns
            = (d', seeded ++ ns')
            ∧ id <$> ns' = id <$> ns.
Proof.
  induction ns as [|nd ns IH]; intros d seeded; simpl.
  - exists d, []. by rewrite app_nil_r.
  - destruct (x nd) as [px|]; destruct (y nd) as [py|];
      match goal with
      | |- context [foldl _ (?d0, seeded ++ [?n0]) ns] =>
          destruct (IH d0 (seeded ++ [n0])) as (d' & ns' & -> & Hids);
          exists d', (n0 :: ns'); rewrite <- app_assoc;
          split; [done|by rewrite !fmap_cons, Hids]
      end.
Qed.

(** [execute] sets up what the steps need: on a graph of two nodes or
    more with unique identities, whose edges join nodes, in a window, the
    interval it schedules finds the layout [ready]. *)
Lemma execute_ready env win w ns :
  window env = Some win → nodes (self w) = Some ns → (2 ≤ length ns)%nat →
  NoDup (id <$> ns) →
  (∀ es, edges (self w) = Some es →
         Forall (λ e, source e ∈ id <$> ns ∧ target e ∈ id <$> ns) es) →
  ∃ c, timers (execute env w) !! next_timer w = Some c
       ∧ iter c = 0%nat
       ∧ ready c (self (execute env w)).
Proof.
  intros Hwin Hns Hlen Hnd Hedges. unfold execute. rewrite Hwin.
  rewrite self_clearInterval, Hns.
  destruct ns as [|n0 [|n1 ns]]; [simpl in Hlen; lia..|].
  destruct win as [iw ih].
  destruct (seed_ids env
              (if bool_decide (width (self w) = 0) then iw
               else width (self w))
              (if bool_decide (height (self w) = 0) then ih
               else height (self w))
              (n0 :: n1 :: ns) (draws (clearInterval w)) [])
    as (d & seeded & -> & Hids).
  rewrite app_nil_l. unfold run. rewrite Hwin. cbn.
  assert (next_timer (clearInterval w) = next_timer w) as ->
    by (unfold clearInterval; by destruct (timeInterval (self w))).
  eexists. split; [apply lookup_insert_eq|]. split; [done|].
  split; cbn; try by eexists.
  - intros ->. by eexists.
  - intros es ns0 Hes [= <-].
    specialize (Hedges es Hes). rewrite <- Hids in Hedges, Hnd.
    eapply Forall_impl; [exact Hedges|]. intros e [Hs Ht]. simpl in *.
    split; by apply index_by_elem_of.
Qed.

(** With a window and two nodes or more, [execute] clears the interval
    the layout holds, if any, and schedules a new one whose counter starts
    at zero; it fires no callback, and it leaves the nodes that have
    coordinates where they are. *)
Lemma execute_schedules env win w ns :
  window env = Some win → nodes (self w) = Some ns → (2 ≤ length ns)%nat →
  timers (execute env w)
  = <[next_timer w := {| c_edges := edges (self w);
                         c_maxIteration := maxIteration (self w);
                         iter := 0 |}]> (timers (clearInterval w))
  ∧ timeInterval (self (execute env w)) = Some (next_timer w)
  ∧ next_timer (execute env w) = S (next_timer w)
  ∧ trace (execute env w) = trace w
  ∧ (Forall placed ns → nodes (self (execute env w)) = Some ns).
Proof.
  intros Hwin Hns Hlen. unfold execute. rewrite Hwin.
  rewrite self_clearInterval, Hns.
  destruct ns as [|n0 [|n1 ns]]; [simpl in Hlen; lia..|].
  destruct win as [iw ih].
  destruct (foldl _ _ _) as [d seeded] eqn:Hseed.
  unfold run. rewrite Hwin. cbn.
  split_and!; try (unfold clearInterval; by destruct (timeInterval (self w))).
  intros Hplaced. rewrite seed_placed in Hseed by done.
  by injection Hseed as _ <-.
Qed.

(** C4, as the code has it.  A [ForceLayout] (the d3 delegation) that is
    ticking ignores [execute]: nothing changes and nothing is called.  A
    [GForceLayout] whose interval is active (two nodes or more, in a
    window) does not ignore it: [execute] cancels that interval and
    schedules a new one whose iteration counter starts at zero, so that
    one interval is scheduled afterwards, as before; it fires no
    callback and moves no node. *)
Theorem execute_while_running
    (Simulation Effect : Type)
    (start : bool → Force.Layout Simulation
             → Force.Layout Simulation * list Effect)
    (reloadData : bool) (d3 : Force.Layout Simulation)
    (env : Env) (win : R * R) (w : World) (t : nat) (c : Closure)
    (ns : list INode) :
  Force.ticking Simulation d3 = Some true →
  window env = Some win → timeInterval (self w) = Some t →
  timers w = {[t := c]} →
  nodes (self w) = Some ns → (2 ≤ length ns)%nat → Forall placed ns →
  Force.execute Simulation Effect start reloadData d3 = (d3, [])
  ∧ timers (execute env w)
    = {[next_timer w := {| c_edges := edges (self w);
                           c_maxIteration := maxIteration (self w);
                           iter := 0 |}]}
  ∧ timeInterval (self (execute env w)) = Some (next_timer w)
  ∧ trace (execute env w) = trace w
  ∧ nodes (self (execute env w)) = Some ns.
Proof.
  intros Htick Hwin Ht Htimers Hns Hlen Hplaced. split.
  - unfold Force.execute. by rewrite Htick.
  - destruct (execute_schedules env win w ns Hwin Hns Hlen)
      as (Htm & Hti & _ & Htr & Hnodes).
    split_and!; [|done|done|by apply Hnodes].
    rewrite Htm. unfold clearInterval. rewrite Ht. cbn [timers].
    rewrite Htimers, delete_singleton_eq. done.
Qed.

(** The layout of [pinned_pair_world] three steps into its run. *)
Definition midrun_world : World :=
  {| self := self pinned_pair_world;
     timers := {[1%nat := {| c_edges := c_edges pinned_pair_closure;
                             c_maxIteration := 1000; iter := 3 |}]};
     next_timer := 2; draws := 0; trace := [] |}.

Lemma execute_while_running_witness :
  Force.execute unit unit (λ _ s, (s, [])) false
    {| Force.ticking := Some true; Force.forceSimulation := Some () |}
  = ({| Force.ticking := Some true; Force.forceSimulation := Some () |}, [])
  ∧ timers (execute browser midrun_world)
    = {[2%nat := {| c_edges := edges (self midrun_world);
                    c_maxIteration := maxIteration (self midrun_world);
                    iter := 0 |}]}
  ∧ timeInterval (self (execute browser midrun_world)) = Some 2%nat
  ∧ trace (execute browser midrun_world) = []
  ∧ nodes (self (execute browser midrun_world)) = Some pinned_pair.
Proof.
  apply (execute_while_running unit unit (λ _ s, (s, [])) false
           {| Force.ticking := Some true; Force.forceSimulation := Some () |}
           browser (300, 300) midrun_world 1
           {| c_edges := c_edges pinned_pair_closure;
              c_maxIteration := 1000; iter := 3 |}
           pinned_pair).
  - reflexivity.
  - reflexivity.
  - reflexivity.
  - reflexivity.
  - reflexivity.
  - simpl. lia.
  - repeat constructor; by eexists.
Defined.

(** C4, as stated, fails for [GForceLayout]: three steps into a run, a
    second [execute] leaves an interval whose counter is 0, not 3. *)
Lemma execute_resets_iteration_counter :
  ¬ ∀ (env : Env) (w : World) (t : nat) (c : Closure),
      timeInterval (self w) = Some t → timers w !! t = Some c →
      ∃ t' c', timeInterval (self (execute env w)) = Some t'
               ∧ timers (execute env w) !! t' = Some c'
               ∧ iter c' = iter c.
Proof.
  intros Hall.
  destruct (Hall browser midrun_world 1%nat
              {| c_edges := c_edges pinned_pair_closure;
                 c_maxIteration := 1000; iter := 3 |})
    as (t' & c' & Ht' & Hc' & Hiter); [reflexivity|by vm_compute|].
  destruct (execute_schedules browser (300, 300) midrun_world pinned_pair)
    as (Htm & Hti & _); [reflexivity..|simpl; lia|].
  rewrite Hti in Ht'. injection Ht' as <-.
  rewrite Htm in Hc'. cbn [next_timer midrun_world] in Hc'.
  rewrite lookup_insert_eq in Hc'. injection Hc' as <-.
  discriminate Hiter.
Qed.

End GForceFacts.

(** ** A graph without nodes *)

Local Open Scope list_scope.

(** C9.  With no node, both engines return at once: the circular
    [execute] returns nothing and leaves the layout as it was, the gForce
    [execute] leaves the layout object as it was, draws no random
    coordinate and schedules no interval; each calls [onLayoutEnd], once,
    when one is installed, and nothing else. *)
Theorem execute_without_nodes
    (window : option (R * R)) (circular : Circular.Layout)
    (env : GForce.Env) (w : GForce.World) :
  Circular.nodes circular = [] →
  (GForce.nodes (GForce.self w) = None
   ∨ GForce.nodes (GForce.self w) = Some []) →
  Circular.execute window circular
  = Some (circular,
          if Circular.onLayoutEnd circular then [Circular.LayoutEnd] else [],
          None)
  ∧ GForce.self (GForce.execute env w) = GForce.self w
  ∧ GForce.trace (GForce.execute env w)
    = GForce.trace w
      ++ (if GForce.onLayoutEnd (GForce.self w) then [GForce.LayoutEnd]
          else [])
  ∧ GForce.draws (GForce.execute env w) = GForce.draws w
  ∧ GForce.next_timer (GForce.execute env w) = GForce.next_timer w
  ∧ GForce.timers (GForce.execute env w) ⊆ GForce.timers w.
Proof.
  intros Hc Hg. split.
  - unfold Circular.execute. rewrite Hc. done.
  - assert (GForce.execute env w
            = GForce.fire_onLayoutEnd
                match GForce.window env with
                | Some _ => GForce.clearInterval w
                | None => w
                end) as ->.
    { unfold GForce.execute.
      destruct (GForce.window env);
        rewrite ?GForceFacts.self_clearInterval;
        by destruct Hg as [-> | ->]. }
    rewrite GForceFacts.self_fire_onLayoutEnd,
      GForceFacts.trace_fire_onLayoutEnd.
    assert (∀ w0, GForce.draws (GForce.fire_onLayoutEnd w0) = GForce.draws w0
                  ∧ GForce.next_timer (GForce.fire_onLayoutEnd w0)
                    = GForce.next_timer w0
                  ∧ GForce.timers (GForce.fire_onLayoutEnd w0)
                    = GForce.timers w0) as Hfire.
    { intros w0. unfold GForce.fire_onLayoutEnd.
      by destruct (GForce.onLayoutEnd (GForce.self w0)). }
    destruct (Hfire match GForce.window env with
                    | Some _ => GForce.clearInterval w
                    | None => w
                    end) as (-> & -> & ->).
    destruct (GForce.window env); [|done].
    rewrite GForceFacts.self_clearInterval, GForceFacts.trace_clearInterval.
    unfold GForce.clearInterval.
    destruct (GForce.timeInterval (GForce.self w)); [|done].
    split_and!; try done. simpl. apply delete_subseteq.
Qed.

Lemma execute_without_nodes_witness :
  Circular.execute None
    {| Circular.center := None; Circular.radius := None;
       Circular.startRadius := None; Circular.endRadius := None;
       Circular.startAngle := 0; Circular.endAngle := 2 * PI;
       Circular.clockwise := true; Circular.divisions := 1;
       Circular.ordering := None; Circular.angleRatio := 1;
       Circular.nodes := []; Circular.edges := [];
       Circular.nodeMap := ∅; Circular.degrees := [];
       Circular.width := 300; Circular.height := 300;
       Circular.onLayoutEnd := true |}
  = Some ({| Circular.center := None; Circular.radius := None;
             Circular.startRadius := None; Circular.endRadius := None;
             Circular.startAngle := 0; Circular.endAngle := 2 * PI;
             Circular.clockwise := true; Circular.divisions := 1;
             Circular.ordering := None; Circular.angleRatio := 1;
             Circular.nodes := []; Circular.edges := [];
             Circular.nodeMap := ∅; Circular.degrees := [];
             Circular.width := 300; Circular.height := 300;
             Circular.onLayoutEnd := true |},
          [Circular.LayoutEnd], None)
  ∧ GForce.self (GForce.execute GForceFacts.browser
                   (GForceFacts.initial_world
                      (GForceFacts.initial_layout [] [] 1000)))
    = GForceFacts.initial_layout [] [] 1000
  ∧ GForce.trace (GForce.execute GForceFacts.browser
                    (GForceFacts.initial_world
                       (GForceFacts.initial_layout [] [] 1000)))
    = [] ++ [GForce.LayoutEnd]
  ∧ GForce.draws (GForce.execute GForceFacts.browser
                    (GForceFacts.initial_world
                       (GForceFacts.initial_layout [] [] 1000))) = 0
  ∧ GForce.next_timer (GForce.execute GForceFacts.browser
                         (GForceFacts.initial_world
                            (GForceFacts.initial_layout [] [] 1000))) = 1
  ∧ GForce.timers (GForce.execute GForceFacts.browser
                     (GForceFacts.initial_world
                        (GForceFacts.initial_layout [] [] 1000))) ⊆ ∅.
Proof.
  apply (execute_without_nodes None
           {| Circular.center := None; Circular.radius := None;
              Circular.startRadius := None; Circular.endRadius := None;
              Circular.startAngle := 0; Circular.endAngle := 2 * PI;
              Circular.clockwise := true; Circular.divisions := 1;
              Circular.ordering := None; Circular.angleRatio := 1;
              Circular.nodes := []; Circular.edges := [];
              Circular.nodeMap := ∅; Circular.degrees := [];
              Circular.width := 300; Circular.height := 300;
              Circular.onLayoutEnd := true |}
           GForceFacts.browser
           (GForceFacts.initial_world (GForceFacts.initial_layout [] [] 1000))).
  - reflexivity.
  - right. reflexivity.
Defined.

(** * Further properties *)

(** ** The circular layout: placement in general *)
Module CircularMore.
Import Util Circular CircularFacts.

(** The center, the angle and the node array [execute] works with. *)
Definition placed_center (window : option (R * R)) (self : Layout) : R * R :=
  default (0%R, 0%R) (center (resolve_canvas window self)).

Definition placed_angle (self : Layout) (i : nat) : R :=
  let n := length (nodes self) in
  angle_at (startAngle self) (endAngle self)
    ((endAngle self - startAngle self) / INR n * angleRatio self)
    (divisions self) (clockwise self)
    (IZR (Zceil (INR n / divisions self))) i.

Definition indexed_layout (window : option (R * R)) (self : Layout) : Layout :=
  let canvas := resolve_canvas window self in
  let nm := index_nodes 0 (nodes canvas) ∅ in
  set_index nm
    (getDegree source target (length (nodes canvas)) nm (edges canvas)) canvas.

(** The graph suits the ordering asked for: the topology orderings need
    unique identities and edges that join nodes. *)
Definition orderable (self : Layout) : Prop :=
  ordering self = Some "topology" ∨ ordering self = Some "topology-directed"
  → unique_ids (nodes self) ∧ edges_wf (nodes self) (edges self).

Lemma order_nodes_ids (self : Layout) ns o :
  order_nodes self = Some (ns, o) → id <$> ns = id <$> nodes self.
Proof.
  unfold order_nodes. repeat case_bool_decide.
  - destruct (topologyOrdering _ _ _ _ _); simpl; [|discriminate].
    by intros [= <- _].
  - destruct (topologyOrdering _ _ _ _ _); simpl; [|discriminate].
    by intros [= <- _].
  - unfold degreeOrdering. intros [= <- _].
    apply list_eq. intros i. rewrite !list_lookup_fmap, list_lookup_imap.
    by destruct (nodes self !! i).
  - by intros [= <- _].
Qed.

(** What [execute] does on two nodes or more: it lays the nodes out in the
    chosen order, each at its angle and radius around the center, writes
    [degrees[i]] as the weight of the node at position [i], calls
    [onLayoutEnd] and returns the order. *)
Lemma execute_places (window : option (R * R)) (self : Layout) :
  2 ≤ length (nodes self) → orderable self →
  ∃ ns order nodes',
    order_nodes (indexed_layout window self) = Some (ns, Some <$> order)
    ∧ order ≡ₚ seq 0 (length (nodes self))
    ∧ id <$> ns = id <$> nodes self
    ∧ execute window self
      = Some (set_nodes nodes' (indexed_layout window self),
              fire_onLayoutEnd self, Some (Some <$> order))
    ∧ length nodes' = length (nodes self)
    ∧ ∀ i ref, order !! i = Some ref →
        nodes' !! ref
        = place ((placed_center window self).1
                 + cos (placed_angle self i) * placed_radius window self i)
                ((placed_center window self).2
                 + sin (placed_angle self i) * placed_radius window self i)
                (degrees (indexed_layout window self) !! i)
          <$> ns !! ref.
Proof.
  intros Hn Hwf.
  unfold execute, placed_radius, placed_center, placed_angle, indexed_layout.
  rewrite !bool_decide_eq_false_2 by lia.
  set (self1 := resolve_canvas window self).
  destruct (default (0%R, 0%R) (center self1)) as [cx cy] eqn:Hc.
  set (nm := index_nodes 0 (nodes self1) ∅).
  set (degs := getDegree _ _ _ nm (edges self1)).
  set (self2 := set_index nm degs self1).
  change (resolve_radii self2) with (resolve_radii self1).
  destruct (resolve_radii self1) as [[r0 sr0] er0].
  destruct (order_nodes_ok self2) as (ns & order & Hord & Hlen & Hperm);
    [done|simpl; lia|done|].
  pose proof (order_nodes_ids self2 ns _ Hord) as Hids.
  rewrite Hord. cbn [mbind option_bind].
  change (nodes self2) with (nodes self) in *.
  change (nodes self1) with (nodes self) in *.
  set (n := length (nodes self)) in *.
  assert (NoDup order) as Hnd by (rewrite Hperm; apply NoDup_seq).
  assert (length order = n) as Hlo by (by rewrite Hperm, length_seq).
  set (f := λ i,
         place (cx + cos (angle_at (startAngle self) (endAngle self)
                            ((endAngle self - startAngle self) / INR n
                             * angleRatio self)
                            (divisions self) (clockwise self)
                            (IZR (Zceil (INR n / divisions self))) i)
                     * radius_at r0 sr0 er0 n i)
               (cy + sin (angle_at (startAngle self) (endAngle self)
                            ((endAngle self - startAngle self) / INR n
                             * angleRatio self)
                            (divisions self) (clockwise self)
                            (IZR (Zceil (INR n / divisions self))) i)
                     * radius_at r0 sr0 er0 n i)
               (degs !! i)).
  destruct (place_loop f order
              (λ ns i, ref ← mjoin ((Some <$> order) !! i);
                       Some (alter (f i) ref ns))
              Hnd ltac:(done) n 0 ns ltac:(lia))
    as (ns' & Hloop & Hlen' & Hns').
  exists ns, order, ns'. split_and!; [done..| | |].
  - erewrite forEachM_ext; [rewrite Hloop|]; [done|].
    intros s0 i Hi. reflexivity.
  - by rewrite Hlen', Hlen.
  - intros i ref Href. destruct (Hns' ref) as [Hin _].
    by rewrite (Hin i) by (done || lia).
Qed.

Lemma perm_seq_position (order : list nat) (n ref : nat) :
  order ≡ₚ seq 0 n → ref < n → ∃ i, order !! i = Some ref.
Proof.
  intros Hperm Href. apply list_elem_of_lookup. rewrite Hperm.
  apply elem_of_seq. lia.
Qed.

(** X1.  [execute] never adds, drops or renames a node, and calls
    [onLayoutEnd] exactly once when one is installed: on any number of
    nodes, provided the graph suits the ordering, the call returns, the
    identities of the node array are what they were, in the same places,
    and the callbacks fired are that one. *)
Theorem execute_keeps_nodes (window : option (R * R)) (self : Layout) :
  orderable self →
  ∃ self' res,
    execute window self
    = Some (self', if onLayoutEnd self then [LayoutEnd] else [], res)
    ∧ id <$> nodes self' = id <$> nodes self.
Proof.
  intros Hwf.
  destruct (decide (length (nodes self) = 0)) as [H0|H0].
  { unfold execute. rewrite bool_decide_eq_true_2 by done. by eexists _, _. }
  destruct (decide (length (nodes self) = 1)) as [H1|H1].
  { unfold execute. rewrite bool_decide_eq_false_2 by done.
    destruct (default _ _) as [cx cy].
    rewrite bool_decide_eq_true_2 by done.
    eexists _, _. split; [done|]. simpl. by rewrite fmap_alter_same. }
  destruct (execute_places window self) as
    (ns & order & nodes' & _ & Hperm & Hids & -> & Hlen & Hpos); [lia|done|].
  eexists _, _. split; [done|]. cbn [nodes set_nodes].
  rewrite <- Hids. apply list_eq. intros ref. rewrite !list_lookup_fmap.
  destruct (decide (ref < length (nodes self))) as [Hlt|Hge].
  - destruct (perm_seq_position order _ ref Hperm Hlt) as [i Hi].
    rewrite (Hpos i ref Hi). by destruct (ns !! ref).
  - assert (length ns = length (nodes self)) as Hlns
      by (by rewrite <- (length_fmap id ns), Hids, length_fmap).
    rewrite !lookup_ge_None_2 by lia. done.
Qed.

Lemma execute_keeps_nodes_witness :
  ∃ self' res,
    execute None star3 = Some (self', [], res)
    ∧ id <$> nodes self' = ["a"; "b"; "c"].
Proof.
  apply (execute_keeps_nodes None star3).
  intros [H|H]; discriminate H.
Defined.

(** X2.  Every node is placed on the circle its position in the order
    gives it: whatever the angles, the divisions, the direction and the
    ordering, the node at position [i] ends at distance [|r|] from the
    center, [r] being the radius of the radius rule at [i]; with a
    configured radius that is not zero, all nodes lie on one circle. *)
Theorem execute_on_circle (window : option (R * R)) (self : Layout) :
  2 ≤ length (nodes self) → orderable self →
  ∃ self' events order,
    execute window self = Some (self', events, Some (Some <$> order))
    ∧ order ≡ₚ seq 0 (length (nodes self))
    ∧ (∀ i ref, order !! i = Some ref →
         ∃ nd px py, nodes self' !! ref = Some nd
           ∧ x nd = Some px ∧ y nd = Some py
           ∧ ((px - (placed_center window self).1)
              * (px - (placed_center window self).1)
              + (py - (placed_center window self).2)
                * (py - (placed_center window self).2)
              = placed_radius window self i * placed_radius window self i)%R)
    ∧ (∀ r i, radius self = Some r → r ≠ 0%R →
              placed_radius window self i = r).
Proof.
  intros Hn Hwf.
  destruct (execute_places window self Hn Hwf) as
    (ns & order & nodes' & _ & Hperm & Hids & -> & Hlen & Hpos).
  eexists _, _, order. split_and!; [done..| |].
  - intros i ref Hi. cbn [nodes set_nodes]. rewrite (Hpos i ref Hi).
    assert (ref < length ns) as Hrl.
    { assert (ref ∈ seq 0 (length (nodes self))) as Hs
        by (rewrite <- Hperm; by eapply list_elem_of_lookup_2).
      apply elem_of_seq in Hs.
      rewrite <- (length_fmap id ns), Hids, length_fmap. lia. }
    destruct (lookup_lt_is_Some_2 ns ref Hrl) as [nd ->]. simpl.
    eexists _, _, _. split_and!; [done..|]. simpl.
    pose proof (sin2_cos2 (placed_angle self i)) as Hsc.
    unfold Rsqr in Hsc.
    set (c := cos (placed_angle self i)) in *.
    set (sn := sin (placed_angle self i)) in *.
    set (r := placed_radius window self i).
    replace ((placed_center window self).1 + c * r
             - (placed_center window self).1)%R with (c * r)%R by ring.
    replace ((placed_center window self).2 + sn * r
             - (placed_center window self).2)%R with (sn * r)%R by ring.
    replace (c * r * (c * r) + sn * r * (sn * r))%R
      with ((sn * sn + c * c) * (r * r))%R by ring.
    rewrite Hsc. ring.
  - intros r i Hr Hr0. by apply placed_radius_fixed.
Qed.

Lemma execute_on_circle_witness :
  ∃ self' events order,
    execute None ring4 = Some (self', events, Some (Some <$> order))
    ∧ order ≡ₚ seq 0 4
    ∧ (∀ i ref, order !! i = Some ref →
         ∃ nd px py, nodes self' !! ref = Some nd
           ∧ x nd = Some px ∧ y nd = Some py
           ∧ ((px - (placed_center None ring4).1)
              * (px - (placed_center None ring4).1)
              + (py - (placed_center None ring4).2)
                * (py - (placed_center None ring4).2)
              = placed_radius None ring4 i * placed_radius None ring4 i)%R)
    ∧ (∀ r i, radius ring4 = Some r → r ≠ 0%R →
              placed_radius None ring4 i = r).
Proof.
  apply (execute_on_circle None ring4).
  - simpl. lia.
  - intros [H|H]; discriminate H.
Defined.

(** X3.  With any ordering other than the three that are recognised
    ([null], or a string that names no strategy), the nodes are laid out
    in input order and each node gets its own degree as its weight. *)
Theorem execute_identity_order (window : option (R * R)) (self : Layout) :
  ordering self ≠ Some "topology" →
  ordering self ≠ Some "topology-directed" →
  ordering self ≠ Some "degree" →
  2 ≤ length (nodes self) →
  ∃ self' events,
    execute window self
    = Some (self', events, Some (Some <$> seq 0 (length (nodes self))))
    ∧ ∀ i, i < length (nodes self) →
        ∃ nd, nodes self' !! i = Some nd
          ∧ weight nd
            = getDegree source target (length (nodes self))
                (index_nodes 0 (nodes self) ∅) (edges self) !! i.
Proof.
  intros Ht Htd Hd Hn.
  destruct (execute_places window self Hn) as
    (ns & order & nodes' & Hord & Hperm & Hids & Hex & Hlen & Hpos).
  { intros [H|H]; congruence. }
  unfold order_nodes in Hord.
  rewrite !bool_decide_eq_false_2 in Hord by done.
  injection Hord as <- Hord. apply (inj (fmap Some)) in Hord as <-.
  rewrite Hex. eexists _, _. split; [done|].
  intros i Hi. cbn [nodes set_nodes].
  rewrite (Hpos i i) by (apply lookup_seq; lia).
  change (nodes (indexed_layout window self)) with (nodes self).
  destruct (lookup_lt_is_Some_2 (nodes self) i Hi) as [nd ->].
  eexists. split; [done|]. reflexivity.
Qed.

(** A ring of three with an ordering that names no strategy. *)
Definition ring3_unknown : Layout :=
  {| center := Some (0, 0)%R; radius := Some 1%R;
     startRadius := None; endRadius := None;
     startAngle := 0; endAngle := 2 * PI; clockwise := true;
     divisions := 1; ordering := Some "alphabetical"; angleRatio := 1;
     nodes := [fresh "a"; fresh "b"; fresh "c"];
     edges := [{| source := "a"; target := "b" |};
               {| source := "a"; target := "c" |}];
     nodeMap := ∅; degrees := []; width := 300; height := 300;
     onLayoutEnd := false |}.

Lemma execute_identity_order_witness :
  ∃ self' events,
    execute None ring3_unknown = Some (self', events, Some (Some <$> seq 0 3))
    ∧ ∀ i, i < 3 →
        ∃ nd, nodes self' !! i = Some nd
          ∧ weight nd
            = getDegree source target 3
                (index_nodes 0 (nodes ring3_unknown) ∅) (edges ring3_unknown)
              !! i.
Proof.
  apply (execute_identity_order None ring3_unknown).
  - discriminate.
  - discriminate.
  - discriminate.
  - simpl. lia.
Defined.



(** *** Counter-clockwise *)

Lemma angle_full_circle_ccw (n i : nat) :
  i < n →
  angle_at 0 (2 * PI) ((2 * PI - 0) / INR n * 1) 1 false
    (IZR (Zceil (INR n / 1))) i
  = (2 * PI - INR i * (2 * PI / INR n))%R.
Proof.
  intros Hi. unfold angle_at.
  rewrite Zceil_INR, <- INR_IZR_INZ.
  destruct (js_rem_small i n Hi) as [-> ->].
  assert (INR n ≠ 0%R) by (apply not_0_INR; lia).
  simpl. field. done.
Qed.

(** X5.  On one full circle ([startAngle = 0], [endAngle = 2π],
    [divisions = 1], [angleRatio = 1]) with a radius [r] that is not zero,
    [clockwise = false] mirrors the layout in the horizontal axis through
    the center: the node at position [i] is placed at
    [(cx + r·cos(i·2π/n), cy − r·sin(i·2π/n))]. *)
Theorem execute_counter_clockwise
    (window : option (R * R)) (self : Layout) (cx cy r : R) :
  center self = Some (cx, cy) →
  radius self = Some r → r ≠ 0%R →
  divisions self = 1%R → clockwise self = false → angleRatio self = 1%R →
  startAngle self = 0%R → endAngle self = (2 * PI)%R →
  2 ≤ length (nodes self) → orderable self →
  ∃ self' events order,
    execute window self = Some (self', events, Some (Some <$> order))
    ∧ order ≡ₚ seq 0 (length (nodes self))
    ∧ ∀ i ref, order !! i = Some ref →
        ∃ nd, nodes self' !! ref = Some nd
          ∧ x nd = Some (cx + r * cos (INR i * (2 * PI / INR (length (nodes self)))))%R
          ∧ y nd = Some (cy - r * sin (INR i * (2 * PI / INR (length (nodes self)))))%R.
Proof.
  intros Hc Hr Hr0 Hdiv Hcw Har Hsa Hea Hn Hwf.
  destruct (execute_places window self Hn Hwf) as
    (ns & order & nodes' & _ & Hperm & Hids & -> & Hlen & Hpos).
  eexists _, _, order. split_and!; [done..|].
  intros i ref Hi. cbn [nodes set_nodes]. rewrite (Hpos i ref Hi).
  assert (ref ∈ seq 0 (length (nodes self))) as Hs
    by (rewrite <- Hperm; by eapply list_elem_of_lookup_2).
  apply elem_of_seq in Hs.
  assert (i < length (nodes self)) as Hil.
  { apply lookup_lt_Some in Hi. apply Permutation_length in Hperm.
    rewrite length_seq in Hperm. lia. }
  assert (ref < length ns) as Hrl
    by (rewrite <- (length_fmap id ns), Hids, length_fmap; lia).
  destruct (lookup_lt_is_Some_2 ns ref Hrl) as [nd ->]. simpl.
  eexists. split; [done|]. simpl.
  rewrite (placed_radius_fixed window self r i Hr Hr0).
  assert (placed_center window self = (cx, cy)) as ->.
  { unfold placed_center, resolve_canvas. cbn [center]. by rewrite Hc. }
  assert (placed_angle self i
          = (2 * PI - INR i * (2 * PI / INR (length (nodes self))))%R) as ->.
  { unfold placed_angle. rewrite Hdiv, Hcw, Har, Hsa, Hea.
    by apply angle_full_circle_ccw. }
  rewrite cos_minus, sin_minus, cos_2PI, sin_2PI. simpl.
  split; f_equal; ring.
Qed.

Lemma execute_counter_clockwise_witness :
  ∃ self' events order,
    execute None
      {| center := Some (150, 150)%R; radius := Some 100%R;
         startRadius := None; endRadius := None;
         startAngle := 0; endAngle := 2 * PI; clockwise := false;
         divisions := 1; ordering := None; angleRatio := 1;
         nodes := [fresh "a"; fresh "b"; fresh "c"; fresh "d"]; edges := [];
         nodeMap := ∅; degrees := []; width := 300; height := 300;
         onLayoutEnd := true |}
    = Some (self', events, Some (Some <$> order))
    ∧ order ≡ₚ seq 0 4
    ∧ ∀ i ref, order !! i = Some ref →
        ∃ nd, nodes self' !! ref = Some nd
          ∧ x nd = Some (150 + 100 * cos (INR i * (2 * PI / INR 4)))%R
          ∧ y nd = Some (150 - 100 * sin (INR i * (2 * PI / INR 4)))%R.
Proof.
  apply (execute_counter_clockwise None
           {| center := Some (150, 150)%R; radius := Some 100%R;
              startRadius := None; endRadius := None;
              startAngle := 0; endAngle := 2 * PI; clockwise := false;
              divisions := 1; ordering := None; angleRatio := 1;
              nodes := [fresh "a"; fresh "b"; fresh "c"; fresh "d"];
              edges := [];
              nodeMap := ∅; degrees := []; width := 300; height := 300;
              onLayoutEnd := true |} 150 150 100);
    [reflexivity|reflexivity|lra|reflexivity..|simpl; lia|].
  intros [H|H]; discriminate H.
Defined.

(** *** The radius rule *)

Lemma truthy_Some (v : R) : v ≠ 0%R → truthy (Some v) = true.
Proof. intros. simpl. by rewrite bool_decide_eq_true_2. Qed.

(** X6.  The radius when no fixed radius is configured.  With only one
    of [startRadius] and [endRadius] every node takes that one; with both,
    the radius runs linearly from [startRadius] at the first position to
    [endRadius] at the last; with neither, it is half the smaller side of
    the canvas.  (Zero counts as not configured throughout.) *)
Theorem radius_precedence
    (window : option (R * R)) (self : Layout) (i : nat) :
  truthy (radius self) = false →
  (∀ e, truthy (startRadius self) = false →
        endRadius self = Some e → e ≠ 0%R →
        placed_radius window self i = e)
  ∧ (∀ s, startRadius self = Some s → s ≠ 0%R →
          truthy (endRadius self) = false →
          placed_radius window self i = s)
  ∧ (∀ s e, startRadius self = Some s → s ≠ 0%R →
            endRadius self = Some e → e ≠ 0%R →
            2 ≤ length (nodes self) →
            placed_radius window self 0 = s
            ∧ placed_radius window self (length (nodes self) - 1) = e
            ∧ ((s + INR i * (e - s) / (INR (length (nodes self)) - 1))%R
                 ≠ 0%R →
               placed_radius window self i
               = (s + INR i * (e - s) / (INR (length (nodes self)) - 1))%R))
  ∧ (truthy (startRadius self) = false →
     truthy (endRadius self) = false →
     ∀ d, d = (if bool_decide (width (resolve_canvas window self)
                               < height (resolve_canvas window self))%R
               then width (resolve_canvas window self) / 2
               else height (resolve_canvas window self) / 2)%R →
          d ≠ 0%R → placed_radius window self i = d).
Proof.
  intros Hrad. unfold placed_radius, resolve_radii.
  cbn [radius startRadius endRadius resolve_canvas].
  rewrite Hrad. cbn [negb andb]. split_and!.
  - intros e Hs He He0. rewrite Hs, He, (truthy_Some e He0).
    cbn [negb andb]. unfold radius_at. rewrite Hrad.
    replace (e + INR i * (e - e) / (INR (length (nodes self)) - 1))%R
      with e by (unfold Rdiv; ring).
    by rewrite bool_decide_eq_true_2.
  - intros s Hs Hs0 He. rewrite Hs, He, (truthy_Some s Hs0).
    cbn [negb andb]. unfold radius_at. rewrite Hrad.
    replace (s + INR i * (s - s) / (INR (length (nodes self)) - 1))%R
      with s by (unfold Rdiv; ring).
    by rewrite bool_decide_eq_true_2.
  - intros s e Hs Hs0 He He0 Hn.
    rewrite Hs, He, (truthy_Some s Hs0), (truthy_Some e He0).
    cbn [negb andb]. unfold radius_at. rewrite Hrad.
    assert (INR (length (nodes self)) - 1 ≠ 0)%R as Hn1.
    { assert (2 <= INR (length (nodes self)))%R as H2
        by (change 2%R with (INR 2); by apply le_INR).
      lra. }
    split_and!.
    + replace (s + INR 0 * (e - s) / (INR (length (nodes self)) - 1))%R
        with s by (simpl; unfold Rdiv; ring).
      by rewrite bool_decide_eq_true_2.
    + replace (s + INR (length (nodes self) - 1) * (e - s)
                   / (INR (length (nodes self)) - 1))%R with e.
      * by rewrite bool_decide_eq_true_2.
      * rewrite minus_INR by lia. simpl. field. done.
    + intros Hnz. by rewrite bool_decide_eq_true_2.
  - intros Hs He d -> Hd. rewrite Hs, He. cbn [negb andb].
    unfold radius_at.
    rewrite (truthy_Some _ Hd). by rewrite bool_decide_eq_true_2.
Qed.

(** A spiral from radius 50 to radius 150 over four nodes. *)
Definition spiral4 : Layout :=
  {| center := Some (150, 150)%R; radius := None;
     startRadius := Some 50%R; endRadius := Some 150%R;
     startAngle := 0; endAngle := 2 * PI; clockwise := true;
     divisions := 1; ordering := None; angleRatio := 1;
     nodes := [fresh "a"; fresh "b"; fresh "c"; fresh "d"]; edges := [];
     nodeMap := ∅; degrees := []; width := 300; height := 300;
     onLayoutEnd := true |}.

Lemma radius_precedence_witness :
  placed_radius None spiral4 0 = 50%R
  ∧ placed_radius None spiral4 (4 - 1) = 150%R
  ∧ ((50 + INR 1 * (150 - 50) / (INR 4 - 1))%R ≠ 0%R →
     placed_radius None spiral4 1
     = (50 + INR 1 * (150 - 50) / (INR 4 - 1))%R).
Proof.
  apply (radius_precedence None spiral4 1 eq_refl).
  - reflexivity.
  - lra.
  - reflexivity.
  - lra.
  - simpl. lia.
Defined.

(** *** More on the topology ordering *)

Lemma forEachM_invariant {A S} (P : S → Prop) (f : S → A → option S)
    (l : list A) : ∀ s s',
  (∀ s a s', P s → f s a = Some s' → P s') →
  P s → forEachM f l s = Some s' → P s'.
Proof.
  induction l as [|a l IH]; intros s s' Hf Hs; simpl.
  - by intros [= <-].
  - destruct (f s a) as [s1|] eqn:Hfa; simpl; [|discriminate].
    apply IH; [done|]. by eapply Hf.
Qed.

Lemma pick_head cnodes nodeMap idx bump st st' r :
  head (resNodes st) = Some r →
  pick cnodes nodeMap idx bump st = Some st' → head (resNodes st') = Some r.
Proof.
  intros Hh. unfold pick. destruct (cnodes !! idx); simpl; [|discriminate].
  intros [= <-]. simpl. by destruct (resNodes st).
Qed.

Lemma topo_step_head degrees edges cnodes nodeMap st i st' r :
  head (resNodes st) = Some r →
  topo_step degrees edges cnodes nodeMap st i = Some st' →
  head (resNodes st') = Some r.
Proof.
  intros Hh. unfold topo_step. case_bool_decide; [by intros [= <-]|].
  destruct (cnodes !! i); simpl; [|discriminate].
  destruct (orderedCNodes st !! k st ≫= _) as [lastNode|]; simpl;
    [|discriminate].
  destruct (_ && _); [by apply pick_head|].
  destruct (find _ (children lastNode)).
  - destruct (nodeMap !! _); simpl; [|discriminate]. by apply pick_head.
  - destruct (find _ (seq _ _)); [by apply pick_head|by intros [= <-]].
Qed.

(** X7.  The first input node always comes first: whenever
    [topologyOrdering] returns on a non-empty node list, whatever the
    edges, the degrees and the direction, its result starts with node 0. *)
Theorem topologyOrdering_starts_at_first
    (degrees : list nat) (edges : list Edge) (nodes : list INode)
    (nodeMap : gmap string nat) (directed : bool)
    (res : list (option nat)) :
  1 ≤ length nodes →
  topologyOrdering degrees edges nodes nodeMap directed = Some res →
  head res = Some (Some 0).
Proof.
  intros Hn. unfold topologyOrdering.
  destruct (initHierarchy _ _ _ _) as [cnodes|]; simpl; [|discriminate].
  rewrite bool_decide_eq_true_2 by lia.
  destruct (forEachM _ _ _) as [st|] eqn:Hloop; simpl; [|discriminate].
  intros [= <-].
  revert Hloop.
  apply (forEachM_invariant (λ st, head (resNodes st) = Some (Some 0)));
    [|done].
  intros s a s' Hs Hstep. by eapply topo_step_head.
Qed.

Lemma topologyOrdering_starts_at_first_witness :
  head (default [] (topologyOrdering [1; 1; 2] path3_edges path3
                      (index_nodes 0 path3 ∅) true))
  = Some (Some 0).
Proof.
  apply (topologyOrdering_starts_at_first [1; 1; 2] path3_edges path3
           (index_nodes 0 path3 ∅) true).
  - simpl. lia.
  - by vm_compute.
Defined.

Lemma find_first_unpicked (flags : gset nat) (i : nat) : ∀ len start,
  (∀ j, j ∈ flags ↔ j < i) → start ≤ i < start + len →
  find (λ ii, bool_decide (ii ∉ flags)) (seq start len) = Some i.
Proof.
  induction len as [|len IH]; intros start Hf Hi; simpl; [lia|].
  destruct (decide (start = i)) as [->|Hne].
  - rewrite bool_decide_eq_true_2; [done|]. rewrite Hf. lia.
  - rewrite bool_decide_eq_false_2.
    + apply IH; [done|lia].
    + intros Hnot. apply Hnot, Hf. lia.
Qed.

(** X8.  Without edges the topology ordering is the input order: for
    nodes with unique identities and an empty edge list,
    [topologyOrdering] returns the nodes as they came, whatever the
    degrees array and the direction. *)
Theorem topologyOrdering_no_edges
    (degrees : list nat) (nodes : list INode) (directed : bool) :
  unique_ids nodes → 1 ≤ length nodes →
  topologyOrdering degrees [] nodes (index_nodes 0 nodes ∅) directed
  = Some (Some <$> seq 0 (length nodes)).
Proof.
  intros Hu Hn. unfold topologyOrdering, initHierarchy. simpl.
  rewrite bool_decide_eq_true_2 by lia.
  set (cnodes := (λ n, set_parent [] (set_children [] n)) <$> nodes).
  assert (length cnodes = length nodes) as Hlen by apply length_fmap.
  assert (∀ j c, cnodes !! j = Some c →
            children c = []
            ∧ node_ref (length cnodes) (index_nodes 0 nodes ∅) (id c) = Some j)
    as Hc.
  { intros j c. unfold cnodes. rewrite list_lookup_fmap.
    destruct (nodes !! j) as [nd|] eqn:Hnd; [|discriminate].
    intros [= <-]. split; [done|]. unfold node_ref. simpl.
    rewrite (index_nodes_unique nodes j nd Hu Hnd). simpl.
    rewrite bool_decide_eq_true_2; [done|].
    rewrite length_fmap. by eapply lookup_lt_Some. }
  assert (∀ m i st,
            1 ≤ i → i + m = length cnodes →
            orderedCNodes st = seq 0 i → resNodes st = Some <$> seq 0 i →
            (∀ j, j ∈ pickFlags st ↔ j < i) → k st < i →
            ∃ st', forEachM (topo_step degrees [] cnodes
                               (index_nodes 0 nodes ∅)) (seq i m) st
                   = Some st'
                   ∧ resNodes st' = Some <$> seq 0 (length cnodes)) as Hloop.
  { induction m as [|m IH]; intros i st Hi Him Ho Hr Hf Hk; simpl.
    - exists st. split; [done|]. rewrite Hr. do 2 f_equal. lia.
    - assert (∃ st1, topo_step degrees [] cnodes (index_nodes 0 nodes ∅) st i
                     = Some st1
                     ∧ orderedCNodes st1 = seq 0 (S i)
                     ∧ resNodes st1 = Some <$> seq 0 (S i)
                     ∧ (∀ j, j ∈ pickFlags st1 ↔ j < S i)
                     ∧ k st1 < S i)
        as (st1 & -> & Ho1 & Hr1 & Hf1 & Hk1).
      { unfold topo_step. rewrite bool_decide_eq_false_2 by lia.
        destruct (lookup_lt_is_Some_2 cnodes i) as [c Hci]; [lia|].
        rewrite Hci. simpl. rewrite Ho, lookup_seq_lt by done. simpl.
        destruct (lookup_lt_is_Some_2 cnodes (k st)) as [lastNode Hl]; [lia|].
        rewrite Hl. simpl.
        destruct (Hc _ _ Hl) as [Hch _]. destruct (Hc _ _ Hci) as [_ Href].
        rewrite Hch. simpl.
        rewrite (find_first_unpicked (pickFlags st) i _ 0 Hf) by lia.
        assert (∀ bump, ∃ st1,
                  pick cnodes (index_nodes 0 nodes ∅) i bump st = Some st1
                  ∧ orderedCNodes st1 = seq 0 (S i)
                  ∧ resNodes st1 = Some <$> seq 0 (S i)
                  ∧ (∀ j, j ∈ pickFlags st1 ↔ j < S i)
                  ∧ k st1 < S i) as Hpick.
        { intros bump. unfold pick. rewrite Hci. cbn [mbind option_bind].
          eexists. split; [done|]. cbn [orderedCNodes resNodes pickFlags k].
          rewrite Ho, Hr, Href.
          rewrite seq_S, fmap_app. split_and!; [done..| |].
          - intros j. rewrite elem_of_union, elem_of_singleton, Hf. lia.
          - destruct bump; lia. }
        destruct (_ && _); apply Hpick. }
      simpl. apply IH; [lia..|done|done|done|done]. }
  assert (∃ m, length cnodes = S m) as [m Hm]
    by (exists (length cnodes - 1); lia).
  rewrite Hm. cbn [seq forEachM]. rewrite topo_step_first.
  cbn [mbind option_bind].
  destruct (Hloop m 1 {| orderedCNodes := [0]; resNodes := [Some 0];
                         pickFlags := {[0]}; k := 0 |})
    as (st' & -> & Hres); [lia|lia|done|done| |simpl; lia|].
  - intros j. simpl. rewrite elem_of_singleton. lia.
  - simpl. by rewrite Hres, Hlen.
Qed.

Lemma topologyOrdering_no_edges_witness :
  topologyOrdering [5; 0; 7] [] path3 (index_nodes 0 path3 ∅) true
  = Some (Some <$> seq 0 3).
Proof.
  apply (topologyOrdering_no_edges [5; 0; 7] path3 true).
  - unfold unique_ids. apply (bool_decide_unpack _). vm_compute. exact I.
  - simpl. lia.
Defined.

(** *** The adjacency lists of initHierarchy *)

(** What an edge says of the node [a]: [s] is a child of [a], or a
    parent of [a]. *)
Definition child_by (directed : bool) (e : Edge) (a : INode) (s : string)
    : Prop :=
  (source e = id a ∧ target e = s)
  ∨ (directed = false ∧ target e = id a ∧ source e = s).

Definition parent_by (directed : bool) (e : Edge) (a : INode) (s : string)
    : Prop :=
  directed = true ∧ target e = id a ∧ source e = s.

Lemma hierarchy_edge_adjacency nodes cn directed e :
  unique_ids nodes → id <$> cn = id <$> nodes →
  source e ∈ id <$> nodes → target e ∈ id <$> nodes →
  source e ≠ "" → target e ≠ "" →
  ∃ cn', hierarchy_edge (index_nodes 0 nodes ∅) directed cn e = Some cn'
    ∧ id <$> cn' = id <$> nodes
    ∧ ∀ i a', cn' !! i = Some a' →
        ∃ a, cn !! i = Some a ∧ id a' = id a
          ∧ (∀ s, s ∈ children a' ↔ s ∈ children a ∨ child_by directed e a s)
          ∧ (∀ s, s ∈ parent a' ↔ s ∈ parent a ∨ parent_by directed e a s).
Proof.
  intros Hu Hid Hs Ht Hs0 Ht0.
  assert (∀ s, s ∈ id <$> nodes → s ≠ "" →
            ∃ j c, endpoint_index (index_nodes 0 nodes ∅) s = Some j
                   ∧ cn !! j = Some c ∧ id c = s
                   ∧ ∀ i a, cn !! i = Some a → (s = id a ↔ i = j)) as Hend.
  { intros s Hin Hne.
    destruct (index_nodes_elem_of nodes s Hu Hin) as (j & Hj & Hjl).
    destruct (index_nodes_bound nodes s j Hj) as (_ & nd & Hnd & Hnid).
    assert (id <$> cn !! j = Some s) as Hcj
      by (by rewrite <- list_lookup_fmap, Hid, list_lookup_fmap, Hnd, <- Hnid).
    destruct (cn !! j) as [c|] eqn:Hc; [|discriminate].
    injection Hcj as Hcid.
    exists j, c. split_and!; [|done|done|].
    - unfold endpoint_index. by rewrite bool_decide_eq_false_2.
    - intros i a Ha. split.
      + intros ->. eapply (NoDup_lookup (id <$> cn)).
        * rewrite Hid. exact Hu.
        * by rewrite list_lookup_fmap, Ha.
        * by rewrite list_lookup_fmap, Hc, <- Hcid.
      + intros ->. rewrite Hc in Ha. by injection Ha as <-. }
  destruct (Hend _ Hs Hs0) as (si & sn & Hsi & Hsn & Hsid & Hsu).
  destruct (Hend _ Ht Ht0) as (ti & tn & Hti & Htn & Htid & Htu).
  unfold hierarchy_edge. rewrite Hsi, Hti. cbn [mbind option_bind].
  rewrite Hsn, Htn. cbn [mbind option_bind]. rewrite Hsid, Htid.
  destruct directed; eexists; (split; [done|]);
    (split; [by rewrite !fmap_alter_same|]);
    intros i a' Ha';
    (destruct (decide (ti = i)) as [Heqt|Hnt];
       [rewrite Heqt in Ha'; rewrite list_lookup_alter_eq in Ha'
       |rewrite list_lookup_alter_ne in Ha' by done]);
    (destruct (decide (si = i)) as [Heqs|Hns];
       [rewrite Heqs in Ha'; rewrite list_lookup_alter_eq in Ha'
       |rewrite list_lookup_alter_ne in Ha' by done]);
    (destruct (cn !! i) as [a|] eqn:Ha; [|discriminate]);
    injection Ha' as <-; exists a;
    pose proof (Hsu i a Ha) as Hsa; pose proof (Htu i a Ha) as Hta;
    (split_and!; [done|done| |]); intros s; unfold child_by, parent_by;
    cbn [children parent set_children set_parent];
    rewrite ?elem_of_app, ?list_elem_of_singleton;
    intuition (congruence || lia).
Qed.

(** X28.  The adjacency lists are the edges.  For nodes with unique
    identities and edges that join nodes (no end being the empty string),
    [initHierarchy] returns and keeps the identities; afterwards an
    identity [s] is among the children of a node [a] exactly when an edge
    goes from [a] to [s], or, in an undirected graph, from [s] to [a];
    it is among the parents of [a] exactly when the graph is directed and
    an edge goes from [s] to [a].  In an undirected graph a node [b] is a
    child of [a] exactly when [connect a b] holds. *)
Theorem initHierarchy_adjacency
    (nodes : list INode) (edges : list Edge) (directed : bool) :
  unique_ids nodes → edges_wf nodes edges →
  Forall (λ e, source e ≠ "" ∧ target e ≠ "") edges →
  ∃ cnodes,
    initHierarchy nodes edges (index_nodes 0 nodes ∅) directed = Some cnodes
    ∧ id <$> cnodes = id <$> nodes
    ∧ (∀ i a s, cnodes !! i = Some a →
         (s ∈ children a ↔ ∃ e, e ∈ edges ∧ child_by directed e a s)
         ∧ (s ∈ parent a ↔ ∃ e, e ∈ edges ∧ parent_by directed e a s))
    ∧ (directed = false →
       ∀ i j a b, cnodes !! i = Some a → cnodes !! j = Some b →
         (id b ∈ children a ↔ connect a b edges = true)).
Proof.
  intros Hu Hwf Hne.
  assert (∀ rest done cn,
            Forall (λ e, source e ∈ id <$> nodes ∧ target e ∈ id <$> nodes)
              rest →
            Forall (λ e, source e ≠ "" ∧ target e ≠ "") rest →
            id <$> cn = id <$> nodes →
            (∀ i a s, cn !! i = Some a →
               (s ∈ children a ↔ ∃ e, e ∈ done ∧ child_by directed e a s)
               ∧ (s ∈ parent a ↔ ∃ e, e ∈ done ∧ parent_by directed e a s)) →
            ∃ cn', forEachM (hierarchy_edge (index_nodes 0 nodes ∅) directed)
                     rest cn = Some cn'
              ∧ id <$> cn' = id <$> nodes
              ∧ ∀ i a s, cn' !! i = Some a →
                  (s ∈ children a
                   ↔ ∃ e, e ∈ done ++ rest ∧ child_by directed e a s)
                  ∧ (s ∈ parent a
                     ↔ ∃ e, e ∈ done ++ rest ∧ parent_by directed e a s))
    as Hloop.
  { induction rest as [|e rest IH]; intros done cn Hw Hn Hid Hadj.
    - exists cn. rewrite app_nil_r. by split_and!.
    - apply Forall_cons in Hw as [[Hs Ht] Hw].
      apply Forall_cons in Hn as [[Hs0 Ht0] Hn].
      destruct (hierarchy_edge_adjacency nodes cn directed e Hu Hid Hs Ht
                  Hs0 Ht0) as (cn1 & Hstep & Hid1 & Hadj1).
      cbn [forEachM]. rewrite Hstep. cbn [mbind option_bind].
      replace (done ++ e :: rest) with ((done ++ [e]) ++ rest)
        by (by rewrite <- app_assoc).
      apply IH; [done..|].
      intros i a' s Ha'.
      destruct (Hadj1 i a' Ha') as (a & Ha & Hida & Hch & Hpa).
      destruct (Hadj i a s Ha) as [Hch0 Hpa0].
      rewrite Hch, Hpa, Hch0, Hpa0.
      unfold child_by, parent_by. rewrite Hida.
      split; (split;
        [ intros [(e' & He' & Hc)|Hc];
            [exists e'; split; [apply elem_of_app; by left|done]
            |exists e; split;
               [apply elem_of_app; right; apply list_elem_of_here|done]]
        | intros (e' & He' & Hc); apply elem_of_app in He' as [He'|He'];
            [left; by exists e'
            |apply list_elem_of_singleton in He' as ->; by right] ]). }
  destruct (Hloop edges [] ((λ n, set_parent [] (set_children [] n)) <$> nodes))
    as (cnodes & Hinit & Hid & Hadj); [done|done| | |].
  - rewrite <- list_fmap_compose. by apply list_fmap_ext.
  - intros i a s Ha. rewrite list_lookup_fmap in Ha.
    destruct (nodes !! i); [|discriminate]. injection Ha as <-. simpl.
    split; (split; [by intros ?%not_elem_of_nil
                   |by intros (e & ?%not_elem_of_nil & _)]).
  - exists cnodes. split_and!; [done|done|exact Hadj|].
    intros -> i j a b Ha Hb. destruct (Hadj i a (id b) Ha) as [-> _].
    unfold connect, child_by. rewrite existsb_exists. split.
    + intros (e & He & Hc). exists e. split; [by apply list_elem_of_In|].
      destruct Hc as [[Hsa Htb]|(_ & Hta & Hsb)].
      * rewrite !bool_decide_eq_true_2 by done. done.
      * rewrite (bool_decide_eq_true_2 (id b = source e)) by done.
        rewrite (bool_decide_eq_true_2 (id a = target e)) by done.
        by rewrite orb_true_r.
    + intros (e & He%list_elem_of_In & Hc). exists e. split; [done|].
      apply orb_true_iff in Hc as [Hc|Hc];
        apply andb_true_iff in Hc as [H1%bool_decide_eq_true
                                      H2%bool_decide_eq_true].
      * by left.
      * right. by split_and!.
Qed.

Lemma initHierarchy_adjacency_witness :
  ∃ cnodes,
    initHierarchy path3 path3_edges (index_nodes 0 path3 ∅) false
    = Some cnodes
    ∧ id <$> cnodes = id <$> path3.
Proof.
  destruct (initHierarchy_adjacency path3 path3_edges false)
    as (cnodes & Hinit & Hid & _).
  - unfold unique_ids. apply (bool_decide_unpack _). vm_compute. exact I.
  - unfold edges_wf. apply (bool_decide_unpack _). vm_compute. exact I.
  - apply (bool_decide_unpack _). vm_compute. exact I.
  - exists cnodes. split; [exact Hinit|exact Hid].
Defined.

End CircularMore.

(** ** The gForce layout: the run as a whole *)
Module GForceMore.
Import Util GForce GForceFacts.
Local Open Scope R_scope.
Local Open Scope list_scope.

#[local] Instance Event_eq_dec : EqDecision Event.
Proof. solve_decision. Defined.

(** The number of calls to [onLayoutEnd] in a trace. *)
Definition layout_ends (tr : list Event) : nat :=
  length (filter (λ e, e = LayoutEnd) tr).

Lemma layout_ends_app tr1 tr2 :
  layout_ends (tr1 ++ tr2) = (layout_ends tr1 + layout_ends tr2)%nat.
Proof. unfold layout_ends. by rewrite filter_app, length_app. Qed.

Lemma timers_fire_onLayoutEnd w : timers (fire_onLayoutEnd w) = timers w.
Proof. unfold fire_onLayoutEnd. by destruct (onLayoutEnd (self w)). Qed.

Lemma timers_clearInterval w t :
  timeInterval (self w) = Some t →
  timers (clearInterval w) = delete t (timers w).
Proof. intros Ht. unfold clearInterval. by rewrite Ht. Qed.

(** A step clears the interval when the layout has converged or the
    counter has reached its cap, and leaves the intervals alone
    otherwise. *)
Lemma timers_finish_step c w ns ns' t :
  timeInterval (self w) = Some t →
  timers (finish_step c w ns ns').2
  = if bool_decide (movement ns ns' < minMovement (self w))
       || bool_decide (c_maxIteration c <= INR (S (iter c)))
    then delete t (timers w) else timers w.
Proof.
  intros Ht. unfold finish_step. cbv zeta. cbn [snd iter c_maxIteration].
  destruct (tick _); cbn [self emit with_self set_nodes minMovement];
    destruct (bool_decide (movement ns ns' < _));
    destruct (bool_decide (c_maxIteration c <= _)); cbn [orb];
    repeat first
      [ rewrite timers_fire_onLayoutEnd
      | erewrite timers_clearInterval
          by (rewrite ?self_fire_onLayoutEnd, ?self_clearInterval; exact Ht) ];
    unfold emit, with_self; cbn [timers]; rewrite ?delete_delete_eq; done.
Qed.

Lemma fire_active t w c ns :
  timers w !! t = Some c → ready c (self w) → nodes (self w) = Some ns →
  ∃ ns', length ns' = length ns
    ∧ fire t w
      = {| self := self (finish_step c w ns ns').2;
           timers := alter (λ _, (finish_step c w ns ns').1) t
                       (timers (finish_step c w ns ns').2);
           next_timer := next_timer (finish_step c w ns ns').2;
           draws := draws (finish_step c w ns ns').2;
           trace := trace (finish_step c w ns ns').2 |}.
Proof.
  intros Ht Hr Hns.
  destruct (interval_callback_is_Some c w ns Hr Hns) as [vel Hcb].
  exists (updatePosition vel (stepInterval_at (self w) (iter c)) ns).
  split; [apply updatePosition_length|].
  unfold fire. rewrite Ht, Hcb. by destruct (finish_step _ _ _ _).
Qed.

(** An interval that is running: it is the one the layout holds, and its
    callback finds what it needs. *)
Definition running (t : nat) (c : Closure) (w : World) : Prop :=
  timers w !! t = Some c ∧ timeInterval (self w) = Some t
  ∧ ready c (self w) ∧ is_Some (nodes (self w)).

Lemma run_ends (n : nat) : ∀ t c w,
  running t c w → onLayoutEnd (self w) = true →
  (1 ≤ n)%nat → c_maxIteration c <= INR (iter c + n) →
  timers (turns n t w) !! t = None
  ∧ ∃ tr, trace (turns n t w) = trace w ++ tr
          ∧ (1 ≤ layout_ends tr ≤ 2)%nat.
Proof.
  induction n as [|n IH]; intros t c w (Ht & Hti & Hr & [ns Hns]) Hend Hn Hcap;
    [lia|].
  destruct (fire_active t w c ns Ht Hr Hns) as (ns' & Hlen & Hfire).
  cbn [turns]. rewrite Hfire.
  pose proof (timers_finish_step c w ns ns' t Hti) as Htm.
  pose proof (trace_finish_step c w ns ns') as Htr.
  pose proof (self_finish_step c w ns ns') as Hself.
  pose proof (ready_finish_step c w ns ns' Hr Hns Hlen) as Hr1.
  rewrite Hend in Htr.
  destruct (bool_decide (movement ns ns' < minMovement (self w))) eqn:Hconv;
    destruct (bool_decide (c_maxIteration c <= INR (S (iter c)))) eqn:Hc;
    cbn [orb] in Htm.
  1-3: rewrite turns_inactive
         by (cbn [timers]; rewrite lookup_alter_eq, Htm, lookup_delete_eq;
             done);
       cbn [timers trace]; rewrite lookup_alter_eq, Htm, lookup_delete_eq;
       split; [done|]; eexists; split; [exact Htr|];
       rewrite !layout_ends_app; destruct (tick (self w)); vm_compute; lia.
  apply bool_decide_eq_false in Hc.
  assert (1 ≤ n)%nat as Hn1.
  { destruct n; [|lia]. exfalso. apply Hc.
    by replace (iter c + 1)%nat with (S (iter c)) in Hcap by lia. }
  set (w1 := {| self := self (finish_step c w ns ns').2;
                timers := alter (λ _, (finish_step c w ns ns').1) t
                            (timers (finish_step c w ns ns').2);
                next_timer := next_timer (finish_step c w ns ns').2;
                draws := draws (finish_step c w ns ns').2;
                trace := trace (finish_step c w ns ns').2 |}).
  destruct (IH t (finish_step c w ns ns').1 w1) as (Hnone & tr & Htr1 & Hcount).
  - split_and!; cbn [self timers w1].
    + rewrite lookup_alter_eq, Htm, Ht. done.
    + by rewrite Hself.
    + done.
    + rewrite Hself. by eexists.
  - cbn [self w1]. by rewrite Hself.
  - done.
  - rewrite closure_finish_step. cbn [iter c_maxIteration].
    by replace (S (iter c) + n)%nat with (iter c + S n)%nat by lia.
  - split; [done|]. exists ((if tick (self w) then [Tick] else []) ++ tr).
    split.
    + rewrite Htr1. cbn [trace w1]. rewrite Htr.
      by rewrite !app_nil_r, <- app_assoc.
    + rewrite layout_ends_app. by destruct (tick (self w)).
Qed.

(** *** What [execute] sets up *)

(** The canvas [execute] works with: the window's inner size stands in
    for a width or a height that is zero, when there is a window. *)
Definition canvas (env : Env) (s : Layout) : R * R :=
  match window env with
  | Some (iw, ih) =>
      (if bool_decide (width s = 0) then iw else width s,
       if bool_decide (height s = 0) then ih else height s)
  | None => (width s, height s)
  end.

(** The coordinates of a node that are not numbers. *)
Definition missing (nd : INode) : nat :=
  (match x nd with Some _ => 0 | None => 1 end
   + match y nd with Some _ => 0 | None => 1 end)%nat.

(** [nd'] is [nd] once seeded: a coordinate that was a number is kept, a
    missing one is a value of [Math.random] scaled to the canvas; nothing
    else changes. *)
Definition seeded_from (env : Env) (cw ch : R) (nd nd' : INode) : Prop :=
  id nd' = id nd ∧ fx nd' = fx nd ∧ fy nd' = fy nd ∧ size nd' = size nd
  ∧ match x nd with
    | Some v => x nd' = Some v
    | None => ∃ k, x nd' = Some (random env k * cw)
    end
  ∧ match y nd with
    | Some v => y nd' = Some v
    | None => ∃ k, y nd' = Some (random env k * ch)
    end.

Lemma seed_nodes env cw ch ns : ∀ d seeded,
  ∃ ns', foldl (seed_node env cw ch) (d, seeded) ns
         = ((d + sum_list (missing <$> ns))%nat, seeded ++ ns')
         ∧ Forall2 (seeded_from env cw ch) ns ns'.
Proof.
  induction ns as [|nd ns IH]; intros d seeded.
  - exists []. simpl. split; [|constructor].
    rewrite app_nil_r. f_equal. lia.
  - cbn [foldl]. unfold seed_node at 2.
    destruct (x nd) as [px|] eqn:Hx; destruct (y nd) as [py|] eqn:Hy;
      match goal with
      | |- context [foldl _ (?d0, seeded ++ [?n0]) ns] =>
          destruct (IH d0 (seeded ++ [n0])) as (ns' & -> & HF);
          exists (n0 :: ns'); split;
          [ rewrite <- app_assoc; rewrite fmap_cons; cbn [sum_list];
            f_equal; unfold missing, Datatypes.id; rewrite Hx, Hy; lia
          | constructor; [|done];
            unfold seeded_from; rewrite Hx, Hy; cbn;
            split_and!; eauto ]
      end.
Qed.

Lemma draws_clearInterval w : draws (clearInterval w) = draws w.
Proof. unfold clearInterval. by destruct (timeInterval (self w)). Qed.

Lemma next_timer_clearInterval w : next_timer (clearInterval w) = next_timer w.
Proof. unfold clearInterval. by destruct (timeInterval (self w)). Qed.

(** What [execute] leaves in the layout object when it has two nodes or
    more, with or without a window. *)
Lemma execute_many env w ns :
  nodes (self w) = Some ns → (2 ≤ length ns)%nat →
  ∃ ns',
    Forall2 (seeded_from env (canvas env (self w)).1 (canvas env (self w)).2)
      ns ns'
    ∧ nodes (self (execute env w)) = Some ns'
    ∧ draws (execute env w) = (draws w + sum_list (missing <$> ns))%nat
    ∧ onLayoutEnd (self (execute env w)) = onLayoutEnd (self w)
    ∧ preventOverlap (self (execute env w)) = preventOverlap (self w)
    ∧ nodeSize (self (execute env w))
      = (if preventOverlap (self w)
         then SizeFunc (size_func (nodeSize (self w))
                          (spacing_func (nodeSpacing (self w))))
         else SizeUndefined)
    ∧ getMass (self (execute env w))
      = match getMass (self w) with MassUnset => MassByDegree | m => m end
    ∧ nodeIdxMap (self (execute env w)) = index_nodes 0 ns' ∅
    ∧ nodeMap (self (execute env w)) = index_nodes 0 ns' ∅
    ∧ degrees (self (execute env w))
      = getDegree source target (length ns') (index_nodes 0 ns' ∅)
          (default [] (edges (self w)))
    ∧ trace (execute env w) = trace w.
Proof.
  intros Hns Hlen. unfold execute, canvas.
  destruct (window env) as [[iw ih]|] eqn:Hwin;
    rewrite ?self_clearInterval, Hns;
    (destruct ns as [|n0 [|n1 ns]]; [simpl in Hlen; lia..|]);
    cbn [fst snd];
    match goal with
    | |- context [foldl (seed_node env ?cw ?ch) (?d, []) ?l] =>
        destruct (seed_nodes env cw ch l d []) as (ns' & -> & HF)
    end;
    rewrite app_nil_l; unfold run; rewrite Hwin;
    exists ns'; cbn; rewrite ?draws_clearInterval, ?trace_clearInterval;
    split_and!; done.
Qed.

(** X9.  Seeding.  On two nodes or more, with or without a window,
    [execute] gives every node both coordinates: a coordinate that was a
    number is kept, a missing one becomes a value of [Math.random]
    scaled by the canvas width or height, so that it lies on the canvas
    when the random values are in [[0, 1)]; it calls [Math.random] once
    for each missing coordinate and changes neither the identities nor
    the pins [fx], [fy] nor the sizes; it calls no callback. *)
Theorem execute_seeds_coordinates
    (env : Env) (w : World) (ns : list INode) :
  nodes (self w) = Some ns → (2 ≤ length ns)%nat →
  ∃ ns',
    nodes (self (execute env w)) = Some ns'
    ∧ Forall2 (seeded_from env (canvas env (self w)).1 (canvas env (self w)).2)
        ns ns'
    ∧ Forall placed ns'
    ∧ draws (execute env w) = (draws w + sum_list (missing <$> ns))%nat
    ∧ trace (execute env w) = trace w
    ∧ ((∀ k, 0 <= random env k < 1) →
       0 <= (canvas env (self w)).1 → 0 <= (canvas env (self w)).2 →
       Forall2 (λ nd nd',
                  (x nd = None → 0 <= num (x nd') <= (canvas env (self w)).1)
                  ∧ (y nd = None →
                     0 <= num (y nd') <= (canvas env (self w)).2))
         ns ns').
Proof.
  intros Hns Hlen.
  destruct (execute_many env w ns Hns Hlen)
    as (ns' & HF & Hnodes & Hdraws & _ & _ & _ & _ & _ & _ & _ & Htrace).
  exists ns'. split_and!; try done.
  - apply (Forall2_Forall_r _ _ _ _ HF). apply Forall_forall.
    intros nd _ nd' (_ & _ & _ & _ & Hx & Hy). split.
    + destruct (x nd); [by rewrite Hx|]. destruct Hx as [k ->]. done.
    + destruct (y nd); [by rewrite Hy|]. destruct Hy as [k ->]. done.
  - intros Hrand Hw Hh. eapply Forall2_impl; [exact HF|].
    intros nd nd' (_ & _ & _ & _ & Hx & Hy). split.
    + intros Hnone. rewrite Hnone in Hx. destruct Hx as [k ->]. simpl.
      specialize (Hrand k). nra.
    + intros Hnone. rewrite Hnone in Hy. destruct Hy as [k ->]. simpl.
      specialize (Hrand k). nra.
Qed.

(** A node that has no coordinates yet. *)
Definition unplaced (s : string) : INode :=
  {| id := s; x := None; y := None; fx := None; fy := None; size := None |}.

Lemma execute_seeds_coordinates_witness :
  ∃ ns',
    nodes (self (execute browser
                   (initial_world
                      (initial_layout [unplaced "a"; node_at "b" 100 0] []
                         1000))))
    = Some ns'
    ∧ Forall2 (seeded_from browser 300 300)
        [unplaced "a"; node_at "b" 100 0] ns'
    ∧ Forall placed ns'
    ∧ draws (execute browser
               (initial_world
                  (initial_layout [unplaced "a"; node_at "b" 100 0] []
                     1000)))
      = 2%nat.
Proof.
  destruct (execute_seeds_coordinates browser
              (initial_world
                 (initial_layout [unplaced "a"; node_at "b" 100 0] [] 1000))
              [unplaced "a"; node_at "b" 100 0])
    as (ns' & Hnodes & HF & Hplaced & Hdraws & _); [reflexivity|simpl; lia|].
  exists ns'. split; [exact Hnodes|]. split; [|split; [exact Hplaced|]].
  - unfold canvas in HF. simpl in HF.
    rewrite !bool_decide_eq_false_2 in HF by lra. exact HF.
  - exact Hdraws.
Defined.

(** *** The run ends *)

(** X10.  The run ends.  [execute] on two nodes or more with unique
    identities, whose edges join nodes, in a window, with [onLayoutEnd]
    installed: once the scheduler has taken [n] turns, for any [n ≥ 1]
    that is at least [maxIteration], the interval [execute] scheduled is
    no longer active, and by then [onLayoutEnd] has been called once or
    twice, never more and never less. *)
Theorem run_terminates
    (env : Env) (win : R * R) (w : World) (ns : list INode) (n : nat) :
  window env = Some win → nodes (self w) = Some ns → (2 ≤ length ns)%nat →
  NoDup (id <$> ns) →
  (∀ es, edges (self w) = Some es →
         Forall (λ e, source e ∈ id <$> ns ∧ target e ∈ id <$> ns) es) →
  onLayoutEnd (self w) = true →
  (1 ≤ n)%nat → maxIteration (self w) <= INR n →
  timers (turns n (next_timer w) (execute env w)) !! next_timer w = None
  ∧ ∃ tr, trace (turns n (next_timer w) (execute env w)) = trace w ++ tr
          ∧ (1 ≤ layout_ends tr ≤ 2)%nat.
Proof.
  intros Hwin Hns Hlen Hnd Hedges Hend Hn Hcap.
  destruct (execute_ready env win w ns Hwin Hns Hlen Hnd Hedges)
    as (c & Hc & Hiter & Hready).
  destruct (execute_schedules env win w ns Hwin Hns Hlen)
    as (Htm & Hti & _ & Htr & _).
  destruct (execute_many env w ns Hns Hlen)
    as (ns' & _ & Hnodes & _ & Hend' & _).
  assert (c_maxIteration c = maxIteration (self w)) as Hmax.
  { rewrite Htm, lookup_insert_eq in Hc. by injection Hc as <-. }
  destruct (run_ends n (next_timer w) c (execute env w))
    as (Hnone & tr & Htrace & Hcount).
  - split_and!; [done|done|done|by eexists].
  - by rewrite Hend'.
  - done.
  - by rewrite Hmax, Hiter.
  - split; [done|]. exists tr. by rewrite Htrace, Htr.
Qed.

Lemma run_terminates_witness :
  timers (turns 3 1
            (execute browser
               (initial_world
                  (initial_layout pinned_pair
                     [{| source := "a"; target := "b" |}] 3))))
    !! 1%nat = None
  ∧ ∃ tr, trace (turns 3 1
                   (execute browser
                      (initial_world
                         (initial_layout pinned_pair
                            [{| source := "a"; target := "b" |}] 3))))
          = [] ++ tr
          ∧ (1 ≤ layout_ends tr ≤ 2)%nat.
Proof.
  apply (run_terminates browser (300, 300)
           (initial_world
              (initial_layout pinned_pair
                 [{| source := "a"; target := "b" |}] 3))
           pinned_pair 3).
  - reflexivity.
  - reflexivity.
  - simpl. lia.
  - apply (bool_decide_unpack _). vm_compute. exact I.
  - intros es [= <-]. repeat constructor; apply (bool_decide_unpack _);
      vm_compute; exact I.
  - reflexivity.
  - lia.
  - simpl. lra.
Defined.

(** X11.  [stop] freezes the run.  In a window, on a layout whose
    interval identifier is not zero, [stop] clears the interval and
    touches nothing else: no callback is called, and however many turns
    the scheduler takes afterwards the state stays as [stop] left it.
    An interval whose identifier is zero is not cleared: [stop] does
    nothing at all. *)
Theorem stop_freezes_run
    (env : Env) (win : R * R) (w : World) (t n : nat) :
  window env = Some win →
  (timeInterval (self w) = Some (S t) →
   turns n (S t) (stop env w) = stop env w
   ∧ timers (stop env w) = delete (S t) (timers w)
   ∧ self (stop env w) = self w ∧ trace (stop env w) = trace w)
  ∧ (timeInterval (self w) = Some 0%nat → stop env w = w).
Proof.
  intros Hwin. unfold stop. rewrite Hwin. split; intros Ht; rewrite Ht.
  - rewrite self_clearInterval, trace_clearInterval,
      (timers_clearInterval w (S t) Ht).
    split_and!; try done.
    apply turns_inactive. rewrite (timers_clearInterval w (S t) Ht).
    apply lookup_delete_eq.
  - done.
Qed.

Lemma stop_freezes_run_witness :
  turns 5 1 (stop browser pinned_pair_world) = stop browser pinned_pair_world
  ∧ timers (stop browser pinned_pair_world)
    = delete 1%nat (timers pinned_pair_world)
  ∧ self (stop browser pinned_pair_world) = self pinned_pair_world
  ∧ trace (stop browser pinned_pair_world) = trace pinned_pair_world.
Proof.
  destruct (stop_freezes_run browser (300, 300) pinned_pair_world 0 5)
    as [Hstop _]; [reflexivity|].
  apply Hstop. reflexivity.
Defined.

(** X12.  Without a window nothing runs.  Where [window] is not
    defined, [execute] on two nodes or more schedules no interval and
    clears none, and calls neither [tick] nor [onLayoutEnd]. *)
Theorem execute_without_window
    (env : Env) (w : World) (ns : list INode) :
  window env = None → nodes (self w) = Some ns → (2 ≤ length ns)%nat →
  timers (execute env w) = timers w
  ∧ next_timer (execute env w) = next_timer w
  ∧ timeInterval (self (execute env w)) = timeInterval (self w)
  ∧ trace (execute env w) = trace w.
Proof.
  intros Hwin Hns Hlen. unfold execute. rewrite Hwin, Hns.
  destruct ns as [|n0 [|n1 ns]]; [simpl in Hlen; lia..|].
  destruct (foldl _ _ _) as [d seeded]. unfold run. rewrite Hwin. done.
Qed.

Lemma execute_without_window_witness :
  timers (execute {| window := None; random := λ _, 0.5 |}
            (initial_world (initial_layout pinned_pair [] 1000)))
  = ∅
  ∧ next_timer (execute {| window := None; random := λ _, 0.5 |}
                  (initial_world (initial_layout pinned_pair [] 1000)))
    = 1%nat
  ∧ timeInterval (self (execute {| window := None; random := λ _, 0.5 |}
                          (initial_world
                             (initial_layout pinned_pair [] 1000))))
    = None
  ∧ trace (execute {| window := None; random := λ _, 0.5 |}
             (initial_world (initial_layout pinned_pair [] 1000)))
    = [].
Proof.
  apply (execute_without_window {| window := None; random := λ _, 0.5 |}
           (initial_world (initial_layout pinned_pair [] 1000)) pinned_pair).
  - reflexivity.
  - reflexivity.
  - simpl. lia.
Defined.

(** X13.  A single node goes to the center, pinned or not.  [execute]
    on one node writes the center (the configured one, or else the
    middle of the canvas) into its [x] and [y], whatever its [fx] and
    [fy]; it calls [onLayoutEnd] once when one is installed, draws no
    random number and schedules no interval. *)
Theorem gforce_single_node
    (env : Env) (w : World) (n0 : INode) :
  nodes (self w) = Some [n0] →
  let c := default ((canvas env (self w)).1 / 2, (canvas env (self w)).2 / 2)
             (center (self w)) in
  nodes (self (execute env w)) = Some [set_xy c.1 c.2 n0]
  ∧ center (self (execute env w)) = Some c
  ∧ trace (execute env w)
    = trace w ++ (if onLayoutEnd (self w) then [LayoutEnd] else [])
  ∧ draws (execute env w) = draws w
  ∧ next_timer (execute env w) = next_timer w
  ∧ timers (execute env w) ⊆ timers w.
Proof.
  intros Hns c. subst c. unfold execute, canvas.
  destruct (window env) as [[iw ih]|];
    rewrite ?self_clearInterval, Hns, self_fire_onLayoutEnd,
      trace_fire_onLayoutEnd, timers_fire_onLayoutEnd;
    unfold fire_onLayoutEnd, with_self; cbn [self onLayoutEnd fst snd];
    rewrite ?trace_clearInterval;
    (destruct (center (self w)) as [[cx cy]|]; cbn [default];
     destruct (onLayoutEnd (self w)); cbn;
     rewrite ?draws_clearInterval, ?next_timer_clearInterval;
     split_and!; try done);
    unfold clearInterval; destruct (timeInterval (self w)); cbn [timers];
    try done; apply delete_subseteq.
Qed.

Lemma gforce_single_node_witness :
  nodes (self (execute browser
                 (initial_world
                    (initial_layout [pinned_at "a" 7 9] [] 1000))))
  = Some [set_xy (300 / 2) (300 / 2) (pinned_at "a" 7 9)]
  ∧ trace (execute browser
             (initial_world (initial_layout [pinned_at "a" 7 9] [] 1000)))
    = [LayoutEnd].
Proof.
  destruct (gforce_single_node browser
              (initial_world (initial_layout [pinned_at "a" 7 9] [] 1000))
              (pinned_at "a" 7 9))
    as (Hnodes & _ & Htrace & _); [reflexivity|].
  split; [|exact Htrace].
  rewrite Hnodes. unfold canvas. simpl.
  rewrite !bool_decide_eq_false_2 by lra. reflexivity.
Defined.

(** *** The forces of one step *)

Lemma forEachM_preserves {A S} (P : S → Prop) (f : S → A → option S)
    (l : list A) : ∀ s s',
  (∀ s a s', a ∈ l → P s → f s a = Some s' → P s') →
  P s → forEachM f l s = Some s' → P s'.
Proof.
  induction l as [|a l IH]; intros s s' Hf Hs; simpl.
  - by intros [= <-].
  - destruct (f s a) as [s1|] eqn:Hfa; simpl; [|discriminate].
    apply IH.
    + intros s0 a0 s0' Ha0. apply Hf. by apply list_elem_of_further.
    + eapply Hf; [apply list_elem_of_here|done..].
Qed.

Lemma forEachM_throws {A S} (f : S → A → option S) (l : list A) (a : A) :
  a ∈ l → (∀ s, f s a = None) → ∀ s, forEachM f l s = None.
Proof.
  intros Ha Hf. induction l as [|b l IH]; intros s;
    [by apply not_elem_of_nil in Ha|].
  simpl. apply elem_of_cons in Ha as [<-|Ha].
  - by rewrite Hf.
  - destruct (f s b); simpl; [by apply IH|done].
Qed.

Lemma indexed_elem_of {A} (l : list A) (i : nat) (a : A) :
  (i, a) ∈ indexed l ↔ l !! i = Some a.
Proof.
  unfold indexed. rewrite elem_of_lookup_imap. split.
  - by intros (j & b & [= -> ->] & Hb).
  - intros Ha. by exists i, a.
Qed.

(** The sum of the entries of the first [n] nodes at offset [off]: the
    [x] components for 0, the [y] components for 1. *)
Fixpoint total (off n : nat) (acc : list R) : R :=
  match n with
  | O => 0
  | S m => total off m acc + acc_get acc (2 * m + off)
  end.

Lemma total_add_miss off n k v acc :
  (∀ m, (m < n)%nat → (2 * m + off)%nat ≠ k) →
  total off n (acc_add k v acc) = total off n acc.
Proof.
  induction n as [|n IH]; intros Hk; [done|]. cbn [total].
  rewrite IH by (intros; apply Hk; lia).
  rewrite acc_get_add_ne; [done|]. intros Heq. by apply (Hk n); [lia|].
Qed.

Lemma total_add_hit off n i v acc :
  (i < n)%nat → (2 * i + off < length acc)%nat → (off < 2)%nat →
  total off n (acc_add (2 * i + off) v acc) = total off n acc + v.
Proof.
  induction n as [|n IH]; intros Hi Hlen Hoff; [lia|]. cbn [total].
  destruct (decide (i = n)) as [->|Hne].
  - rewrite total_add_miss by (intros; lia).
    rewrite acc_get_add_eq by done. lra.
  - rewrite IH by lia. rewrite acc_get_add_ne by lia. lra.
Qed.

Lemma total_add_at off n k v acc i :
  k = (2 * i + off)%nat → (i < n)%nat → (k < length acc)%nat →
  (off < 2)%nat →
  total off n (acc_add k v acc) = total off n acc + v.
Proof. intros ->. apply total_add_hit. Qed.

Lemma total_add_skip off n k v acc i :
  k = (2 * i + (1 - off))%nat → (off < 2)%nat →
  total off n (acc_add k v acc) = total off n acc.
Proof. intros -> Hoff. apply total_add_miss. intros. lia. Qed.

(** Rewrites the sums over a buffer to which the entries of the nodes
    [i] and [j] have been added. *)
Ltac total_simpl i j :=
  repeat match goal with
  | |- context [total ?off ?n (acc_add ?k ?v ?a)] =>
      first
        [ rewrite (total_add_at off n k v a i)
            by (rewrite ?acc_add_length; lia)
        | rewrite (total_add_at off n k v a j)
            by (rewrite ?acc_add_length; lia)
        | rewrite (total_add_skip off n k v a i) by lia
        | rewrite (total_add_skip off n k v a j) by lia ]
  end.

Lemma repulsive_pair_total self n i ni j nj acc acc' :
  (i < j < n)%nat → length acc = (2 * n)%nat →
  (overlap_applies self ni nj → mass self ni = mass self nj) →
  repulsive_pair self i ni j nj acc = Some acc' →
  length acc' = length acc
  ∧ total 0 n acc' = total 0 n acc ∧ total 1 n acc' = total 1 n acc.
Proof.
  intros Hij Hlen Hmass. unfold repulsive_pair.
  destruct (call (nodeStrength self) ni) as [si|];
    cbn [mbind option_bind]; [|discriminate].
  destruct (call (nodeStrength self) nj) as [sj|];
    cbn [mbind option_bind]; [|discriminate].
  fold (pair_distance ni nj).
  destruct (if preventOverlap self then _ else _) as [[|]|] eqn:Hov;
    cbn [mbind option_bind]; [| |discriminate]; intros [= <-].
  - rewrite Hmass.
    + rewrite !acc_add_length. split; [done|].
      split; total_simpl i j; lra.
    + unfold overlap_applies. revert Hov.
      destruct (preventOverlap self); [done|discriminate].
  - rewrite !acc_add_length. split; [done|].
    split; total_simpl i j; lra.
Qed.

(** X14.  The repulsive forces cancel out.  Over a buffer of two entries
    per node, [calRepulsive] leaves the sum of the [x] entries and the
    sum of the [y] entries as they were (and the length of the buffer),
    as long as two nodes to which the overlap term applies have the same
    mass. *)
Theorem calRepulsive_conserves_total
    (self : Layout) (ns : list INode) (acc acc' : list R) :
  length acc = (2 * length ns)%nat →
  (∀ ni nj, ni ∈ ns → nj ∈ ns → overlap_applies self ni nj →
            mass self ni = mass self nj) →
  calRepulsive self acc ns = Some acc' →
  length acc' = length acc
  ∧ total 0 (length ns) acc' = total 0 (length ns) acc
  ∧ total 1 (length ns) acc' = total 1 (length ns) acc.
Proof.
  intros Hlen Hmass. unfold calRepulsive.
  set (P := λ a : list R,
         length a = length acc
         ∧ total 0 (length ns) a = total 0 (length ns) acc
         ∧ total 1 (length ns) a = total 1 (length ns) acc).
  apply (forEachM_preserves P); [|done].
  intros a1 [i ni] a1' Hi%indexed_elem_of Ha1.
  apply (forEachM_preserves P); [|done].
  intros a2 [j nj] a2' Hj%indexed_elem_of (Hl2 & Hx2 & Hy2).
  case_bool_decide as Hji; [by intros [= <-]|].
  intros Hpair.
  destruct (repulsive_pair_total self (length ns) i ni j nj a2 a2')
    as (Hl & Hx & Hy).
  - split; [lia|]. by eapply lookup_lt_Some.
  - lia.
  - apply Hmass; by eapply list_elem_of_lookup_2.
  - done.
  - unfold P. by rewrite Hl, Hx, Hy.
Qed.

(** Three free nodes on a line. *)
Definition three_nodes : list INode :=
  [node_at "hub" 1 0; node_at "leaf" 0 0; node_at "tip" 3 0].

Definition three_nodes_acc : list R :=
  default [] (calRepulsive plain_layout [0; 0; 0; 0; 0; 0] three_nodes).

Lemma calRepulsive_conserves_total_witness :
  length three_nodes_acc = 6%nat
  ∧ total 0 3 three_nodes_acc = total 0 3 [0; 0; 0; 0; 0; 0]
  ∧ total 1 3 three_nodes_acc = total 1 3 [0; 0; 0; 0; 0; 0].
Proof.
  apply (calRepulsive_conserves_total plain_layout three_nodes
           [0; 0; 0; 0; 0; 0] three_nodes_acc).
  - reflexivity.
  - intros ni nj _ _ [Hp _]. discriminate Hp.
  - reflexivity.
Defined.

Lemma acc_get_add_same k k' v acc :
  k = k' → (k < length acc)%nat →
  acc_get (acc_add k v acc) k' = acc_get acc k' + v.
Proof. intros <-. apply acc_get_add_eq. Qed.

(** Reads an entry of a buffer to which entries have been added. *)
Ltac acc_read :=
  repeat match goal with
  | |- context [acc_get (acc_add ?k ?v ?a) ?k'] =>
      first
        [ rewrite (acc_get_add_same k k' v a)
            by (rewrite ?acc_add_length; lia)
        | rewrite (acc_get_add_ne k k' v a) by lia ]
  end.

(** The vector [v] scaled by [k]. *)
Definition scale (k : R) (v : R * R) : R * R := (k * v.1, k * v.2).

(** X15.  An edge pulls its two ends with opposite forces.  For an edge
    between two different nodes, what [calAttractive] adds for the
    source, multiplied by the mass of the source, is the exact negation
    of what it adds for the target multiplied by the mass of the target;
    the entries of every other node are left as they were. *)
Theorem attractive_edge_balanced
    (self : Layout) (nodes : list INode) (acc acc' : list R) (edge : Edge)
    (i j : nat) (sn tn : INode) :
  nodeMap self !! source edge = Some i →
  nodeMap self !! target edge = Some j →
  nodeIdxMap self !! source edge = Some i →
  nodeIdxMap self !! target edge = Some j →
  nodes !! i = Some sn → nodes !! j = Some tn → i ≠ j →
  (2 * i + 1 < length acc)%nat → (2 * j + 1 < length acc)%nat →
  mass self sn ≠ 0 → mass self tn ≠ 0 →
  attractive_edge self nodes acc edge = Some acc' →
  negated (scale (mass self sn) (contribution acc acc' i))
          (scale (mass self tn) (contribution acc acc' j))
  ∧ ∀ k, k ≠ i → k ≠ j → contribution acc acc' k = (0, 0).
Proof.
  intros Hsi Htj Hsi' Htj' Hsn Htn Hij Hli Hlj Hms Hmt.
  unfold attractive_edge. rewrite Hsi, Htj, Hsi', Htj'.
  cbn [mbind option_bind]. rewrite Hsn, Htn. cbn [mbind option_bind].
  destruct (call (linkDistance self) edge) as [l|];
    cbn [mbind option_bind]; [|discriminate].
  destruct (call (edgeStrength self) edge) as [st|];
    cbn [mbind option_bind]; [|discriminate].
  intros [= <-]. unfold acc_add_at, negated, scale, contribution.
  cbn [fst snd]. split.
  - acc_read.
    split;
      (field; split_and!; try done;
       match goal with
       | |- sqrt ?a + _ ≠ 0 => pose proof (sqrt_pos a); lra
       end).
  - intros k Hki Hkj. acc_read. f_equal; lra.
Qed.

(** The layout [plain_layout] once its two nodes are indexed. *)
Definition hub_leaf_layout : Layout :=
  {| center := Some (150, 150); maxIteration := 1000;
     edgeStrength := Func (λ _, 200); nodeStrength := Func (λ _, 1000);
     coulombDisScale := 0.005; damping := 0.9; maxSpeed := 1000;
     minMovement := 0.5; interval := 0.02; factor := 1;
     getMass := MassFunc (λ d, if bool_decide (id d = "hub") then 2 else 1);
     getCenter := None; linkDistance := Func (λ _, 1); gravity := 10;
     preventOverlap := false; nodeSize := SizeUndefined;
     nodeSpacing := SpacingOther; tick := true;
     nodes := Some [node_at "hub" 1 0; node_at "leaf" 0 0];
     edges := Some [{| source := "hub"; target := "leaf" |}];
     width := 300; height := 300;
     nodeMap := {["hub" := 0%nat; "leaf" := 1%nat]};
     nodeIdxMap := {["hub" := 0%nat; "leaf" := 1%nat]};
     onLayoutEnd := true; degrees := [1%nat; 1%nat];
     timeInterval := None |}.

Definition hub_leaf_acc : list R :=
  default []
    (attractive_edge hub_leaf_layout [node_at "hub" 1 0; node_at "leaf" 0 0]
       [0; 0; 0; 0] {| source := "hub"; target := "leaf" |}).

Lemma attractive_edge_balanced_witness :
  negated (scale 2 (contribution [0; 0; 0; 0] hub_leaf_acc 0))
          (scale 1 (contribution [0; 0; 0; 0] hub_leaf_acc 1)).
Proof.
  destruct (attractive_edge_balanced hub_leaf_layout
              [node_at "hub" 1 0; node_at "leaf" 0 0] [0; 0; 0; 0]
              hub_leaf_acc {| source := "hub"; target := "leaf" |} 0 1
              (node_at "hub" 1 0) (node_at "leaf" 0 0)) as [Hneg _].
  - reflexivity.
  - reflexivity.
  - reflexivity.
  - reflexivity.
  - reflexivity.
  - reflexivity.
  - lia.
  - simpl. lia.
  - simpl. lia.
  - unfold mass. simpl. lra.
  - unfold mass. simpl. lra.
  - reflexivity.
  - exact Hneg.
Defined.

Lemma acc_add_at_zero idx off v acc :
  v = 0 → acc_add_at idx off v acc = acc.
Proof.
  intros ->. unfold acc_add_at, acc_add. destruct idx as [i|]; [|done].
  apply list_alter_id. intros a. lra.
Qed.

(** X16.  A self-loop exerts no force.  For an edge whose source is its
    target, [calAttractive] leaves the buffer as it was, whatever the
    link distance and the strength (the masses being non-zero). *)
Theorem attractive_self_loop
    (self : Layout) (nodes : list INode) (acc acc' : list R) (edge : Edge) :
  source edge = target edge →
  (∀ nd, nd ∈ nodes → mass self nd ≠ 0) →
  attractive_edge self nodes acc edge = Some acc' → acc' = acc.
Proof.
  intros Hst _. unfold attractive_edge. rewrite Hst.
  destruct (nodeMap self !! target edge ≫= (nodes !!.)) as [nd|];
    cbn [mbind option_bind]; [|discriminate].
  destruct (call (linkDistance self) edge) as [l|];
    cbn [mbind option_bind]; [|discriminate].
  destruct (call (edgeStrength self) edge) as [st|];
    cbn [mbind option_bind]; [|discriminate].
  intros [= <-].
  rewrite !acc_add_at_zero; [done|unfold Rdiv; ring..].
Qed.

Lemma attractive_self_loop_witness :
  default []
    (attractive_edge hub_leaf_layout [node_at "hub" 1 0; node_at "leaf" 0 0]
       [0; 0; 0; 0] {| source := "leaf"; target := "leaf" |})
  = [0; 0; 0; 0].
Proof.
  apply (attractive_self_loop hub_leaf_layout
           [node_at "hub" 1 0; node_at "leaf" 0 0] [0; 0; 0; 0] _
           {| source := "leaf"; target := "leaf" |}).
  - reflexivity.
  - intros nd _. unfold mass. simpl. case_bool_decide; lra.
  - reflexivity.
Defined.

(** *** An edge that joins no node *)

Lemma seeded_ids env cw ch ns ns' :
  Forall2 (seeded_from env cw ch) ns ns' → id <$> ns' = id <$> ns.
Proof.
  induction 1 as [|nd nd' l l' (Hid & _) _ IH]; [done|].
  by rewrite !fmap_cons, Hid, IH.
Qed.

Lemma index_nodes_dangling ns s :
  s ∉ id <$> ns → index_nodes 0 ns ∅ !! s = None.
Proof.
  intros Hs. destruct (index_nodes 0 ns ∅ !! s) as [j|] eqn:Hj; [|done].
  apply index_by_bound in Hj as (_ & nd & Hnd & <-).
  exfalso. apply Hs. apply list_elem_of_fmap. exists nd.
  split; [done|]. by eapply list_elem_of_lookup_2.
Qed.

Lemma turns_fixed n t w : fire t w = w → turns n t w = w.
Proof. intros Hf. induction n as [|n IH]; simpl; [done|]. by rewrite Hf. Qed.

(** X17.  An edge that joins no node stalls the run.  When an end of
    one edge is not the identity of a node, [execute] (two nodes or
    more, in a window) still schedules its interval, but the callback
    throws each time it is called, before it has moved a node: however
    many turns the scheduler takes, no node moves, neither [tick] nor
    [onLayoutEnd] is called, and the interval stays active. *)
Theorem dangling_edge_stalls_run
    (env : Env) (win : R * R) (w : World) (ns : list INode)
    (es : list Edge) (e : Edge) (n : nat) :
  window env = Some win → nodes (self w) = Some ns → (2 ≤ length ns)%nat →
  edges (self w) = Some es → e ∈ es →
  source e ∉ id <$> ns ∨ target e ∉ id <$> ns →
  turns n (next_timer w) (execute env w) = execute env w
  ∧ timers (execute env w) !! next_timer w
    = Some {| c_edges := Some es; c_maxIteration := maxIteration (self w);
              iter := 0 |}
  ∧ trace (execute env w) = trace w.
Proof.
  intros Hwin Hns Hlen Hes He Hdangling.
  destruct (execute_schedules env win w ns Hwin Hns Hlen)
    as (Htm & _ & _ & Htr & _).
  destruct (execute_many env w ns Hns Hlen)
    as (ns' & HF & Hnodes & _ & _ & _ & _ & _ & _ & Hmap & _).
  apply seeded_ids in HF.
  assert (timers (execute env w) !! next_timer w
          = Some {| c_edges := Some es;
                    c_maxIteration := maxIteration (self w); iter := 0 |})
    as Hc by (by rewrite Htm, lookup_insert_eq, Hes).
  split_and!; [|done|done].
  apply turns_fixed. unfold fire. rewrite Hc.
  assert (interval_callback
            {| c_edges := Some es; c_maxIteration := maxIteration (self w);
               iter := 0 |} (execute env w) = None) as ->; [|done].
  unfold interval_callback. rewrite Hnodes.
  destruct (calRepulsive _ _ _) as [acc1|]; cbn [mbind option_bind c_edges];
    [|done].
  assert (calAttractive (self (execute env w)) ns' acc1 es = None) as ->;
    [|done].
  apply (forEachM_throws _ _ e He). intros acc.
  unfold attractive_edge. rewrite Hmap.
  destruct Hdangling as [Hd|Hd]; rewrite <- HF in Hd;
    rewrite (index_nodes_dangling ns' _ Hd); cbn [mbind option_bind];
    [done|].
  by destruct (index_nodes 0 ns' ∅ !! source e ≫= (ns' !!.)).
Qed.

Lemma dangling_edge_stalls_run_witness :
  turns 7 1
    (execute browser
       (initial_world
          (initial_layout pinned_pair [{| source := "a"; target := "z" |}]
             1000)))
  = execute browser
      (initial_world
         (initial_layout pinned_pair [{| source := "a"; target := "z" |}]
            1000))
  ∧ trace (execute browser
             (initial_world
                (initial_layout pinned_pair
                   [{| source := "a"; target := "z" |}] 1000)))
    = [].
Proof.
  destruct (dangling_edge_stalls_run browser (300, 300)
              (initial_world
                 (initial_layout pinned_pair
                    [{| source := "a"; target := "z" |}] 1000))
              pinned_pair [{| source := "a"; target := "z" |}]
              {| source := "a"; target := "z" |} 7)
    as (Hturns & _ & Htrace).
  - reflexivity.
  - reflexivity.
  - simpl. lia.
  - reflexivity.
  - apply list_elem_of_here.
  - right. apply (bool_decide_unpack _). vm_compute. exact I.
  - split; [exact Hturns|exact Htrace].
Defined.

(** *** Gravity *)

Lemma forEachM_app {A S} (f : S → A → option S) (l1 l2 : list A) (s : S) :
  forEachM f (l1 ++ l2) s = forEachM f l1 s ≫= forEachM f l2.
Proof.
  revert s. induction l1 as [|a l1 IH]; intros s; simpl; [done|].
  destruct (f s a); simpl; [apply IH|done].
Qed.

(** X18.  Gravity pulls every node towards the center, in proportion to
    its distance.  With no [getCenter], over a buffer of two entries per
    node at least, [calGravity] returns, and what it adds for a node at
    [(x, y)] is [(-gravity × (x - cx), -gravity × (y - cy))], where
    [(cx, cy)] is the center; it changes nothing else in the buffer. *)
Theorem calGravity_pulls_to_center
    (self : Layout) (ns : list INode) (acc : list R) (cx cy : R) :
  center self = Some (cx, cy) → getCenter self = None →
  (2 * length ns ≤ length acc)%nat →
  ∃ acc', calGravity self acc ns = Some acc'
    ∧ length acc' = length acc
    ∧ (∀ i nd, ns !! i = Some nd →
         contribution acc acc' i
         = (- (gravity self * (num (x nd) - cx)),
            - (gravity self * (num (y nd) - cy))))
    ∧ (∀ k, (2 * length ns ≤ k)%nat → acc_get acc' k = acc_get acc k).
Proof.
  intros Hc Hg. unfold calGravity.
  induction ns as [|a ns IH] using rev_ind; intros Hlen.
  - exists acc. split_and!; [done|done| |done].
    intros i nd Hnd. by rewrite lookup_nil in Hnd.
  - rewrite length_app in Hlen. cbn [length] in Hlen.
    destruct IH as (acc1 & Hacc1 & Hl1 & Hin & Hout); [lia|].
    rewrite indexed_snoc, forEachM_app, Hacc1. cbn [mbind option_bind].
    cbn [forEachM]. unfold gravity_node. rewrite Hc, Hg.
    cbn [mbind option_bind fst snd].
    assert (∀ i nd, (ns ++ [a]) !! i = Some nd →
              ns !! i = Some nd ∨ (i = length ns ∧ nd = a)) as Hsplit.
    { intros i nd Hnd. apply lookup_app_Some in Hnd as [Hnd|[Hi Hnd]];
        [by left|right].
      destruct (i - length ns)%nat as [|m] eqn:Hm; [|done].
      injection Hnd as <-. split; [lia|done]. }
    case_bool_decide as Hzero; cbn [mbind option_bind].
    + exists acc1. split_and!; [done|done| |].
      * intros i nd [Hnd|[-> ->]]%Hsplit; [by apply Hin|].
        unfold contribution. rewrite !Hout by lia. rewrite Hzero.
        f_equal; lra.
      * intros k Hk. apply Hout. rewrite length_app in Hk. lia.
    + eexists. split; [done|]. rewrite !acc_add_length.
      split_and!; [done| |].
      * intros i nd [Hnd|[-> ->]]%Hsplit.
        -- pose proof (lookup_lt_Some _ _ _ Hnd) as Hi.
           rewrite <- (Hin i nd Hnd). unfold contribution.
           by acc_read.
        -- unfold contribution. acc_read. rewrite !Hout by lia.
           f_equal; lra.
      * intros k Hk. rewrite length_app in Hk. cbn [length] in Hk.
        acc_read. apply Hout. lia.
Qed.

Lemma calGravity_pulls_to_center_witness :
  ∃ acc', calGravity plain_layout [0; 0; 0; 0]
            [node_at "hub" 1 0; node_at "leaf" 0 0] = Some acc'
    ∧ contribution [0; 0; 0; 0] acc' 0
      = (- (10 * (1 - 150)), - (10 * (0 - 150))).
Proof.
  destruct (calGravity_pulls_to_center plain_layout
              [node_at "hub" 1 0; node_at "leaf" 0 0] [0; 0; 0; 0] 150 150)
    as (acc' & Hrun & _ & Hin & _).
  - reflexivity.
  - reflexivity.
  - simpl. lia.
  - exists acc'. split; [exact Hrun|].
    apply (Hin 0%nat (node_at "hub" 1 0)). reflexivity.
Defined.

(** *** Overlap prevention and the node size *)

(** X19.  A node size that is a function switches overlap prevention
    off, and so does a second [execute].  [execute] (two nodes or more,
    [preventOverlap] set) installs a node-size function; when the
    [nodeSize] it finds is itself a function, what it installs adds that
    function to a number, which is not a number, and the overlap test of
    [calRepulsive] then fails for every pair at every distance.  That is
    the case when the caller gave a function, and at any [execute] after
    the first, which finds the function the first one installed.  After
    one [execute] on a numeric node size [v ≠ 0] the test is
    [d < (v + spacing ni + v + spacing nj) / 2]. *)
Theorem overlap_lost_with_size_function
    (env env' : Env) (w : World) (ns : list INode) :
  nodes (self w) = Some ns → (2 ≤ length ns)%nat →
  preventOverlap (self w) = true →
  (∀ f ni nj d, nodeSize (self w) = SizeFunc f →
     overlaps (self (execute env w)) ni nj d = Some false)
  ∧ (∀ ni nj d,
       overlaps (self (execute env' (execute env w))) ni nj d = Some false)
  ∧ (∀ v ni nj d, nodeSize (self w) = SizeNum v → v ≠ 0 →
       overlaps (self (execute env w)) ni nj d
       = Some (bool_decide
                 (d < (v + spacing_func (nodeSpacing (self w)) ni
                       + (v + spacing_func (nodeSpacing (self w)) nj)) / 2))).
Proof.
  intros Hns Hlen Hov.
  destruct (execute_many env w ns Hns Hlen)
    as (ns' & HF & Hnodes & _ & _ & Hov' & Hsize & _).
  rewrite Hov in Hsize, Hov'.
  split_and!.
  - intros f ni nj d Hf. unfold overlaps. rewrite Hsize, Hf. done.
  - intros ni nj d.
    destruct (execute_many env' (execute env w) ns' Hnodes)
      as (_ & _ & _ & _ & _ & _ & Hsize2 & _).
    { apply Forall2_length in HF. lia. }
    rewrite Hov', Hsize in Hsize2. unfold overlaps. rewrite Hsize2. done.
  - intros v ni nj d Hv Hnz. unfold overlaps. rewrite Hsize, Hv.
    unfold size_func. by rewrite bool_decide_eq_false_2.
Qed.

Lemma overlap_lost_with_size_function_witness :
  overlaps (self (execute browser (execute browser
              (initial_world (initial_layout pinned_pair [] 1000)))))
    (node_at "a" 0 0) (node_at "b" 1 0) 1
  = Some false.
Proof.
  destruct (overlap_lost_with_size_function browser browser
              (initial_world (initial_layout pinned_pair [] 1000))
              pinned_pair) as (_ & Hsecond & _).
  - reflexivity.
  - simpl. lia.
  - reflexivity.
  - apply Hsecond.
Defined.

(** *** How far a free node goes in one step *)

Lemma interval_callback_velocity c w ns r :
  nodes (self w) = Some ns → interval_callback c w = Some r →
  ∃ acc,
    r = finish_step c w ns
          (updatePosition
             (updateVelocity (self w) acc (replicate (2 * length ns) 0)
                (stepInterval_at (self w) (iter c)) ns)
             (stepInterval_at (self w) (iter c)) ns).
Proof.
  intros Hns. unfold interval_callback. rewrite Hns.
  destruct (calRepulsive _ _ _) as [acc1|]; cbn [mbind option_bind];
    [|discriminate].
  destruct (match c_edges c with Some _ => _ | None => _ end) as [acc2|];
    cbn [mbind option_bind]; [|discriminate].
  destruct (calGravity _ _ _) as [acc3|]; cbn [mbind option_bind];
    [|discriminate].
  intros [= <-]. by exists acc3.
Qed.

Lemma norm_nonneg v : 0 <= norm v.
Proof. apply sqrt_pos. Qed.

Lemma norm_square v : norm v * norm v = v.1 * v.1 + v.2 * v.2.
Proof. unfold norm. apply sqrt_sqrt. nra. Qed.

(** The length of the velocity stored for a node is at most
    [maxSpeed]. *)
Lemma velocity_capped self acc si i :
  0 <= maxSpeed self → norm (velocity self acc si i) <= maxSpeed self.
Proof.
  intros Hmax. rewrite velocity_raw. cbv zeta.
  set (raw := raw_velocity self acc si i).
  case_bool_decide as Hcap; [|lra].
  assert (0 <= maxSpeed self / norm raw) as Hk.
  { apply Rmult_le_pos; [done|]. left. apply Rinv_0_lt_compat. lra. }
  rewrite (norm_scale _ raw Hk). right. field. lra.
Qed.

(** X20.  A free node goes no further than [maxSpeed × stepInterval] in
    one step.  In one step of the simulation, a node that has
    coordinates and is not pinned (not both [fx] and [fy] are numbers)
    is displaced by the velocity [updateVelocity] has stored for it,
    multiplied by the step length; for [maxSpeed ≥ 0] the distance it
    covers is at most [maxSpeed × stepInterval], whatever the forces. *)
Theorem free_node_step_bounded
    (c c' : Closure) (w w' : World) (ns : list INode) (i : nat) (nd : INode)
    (px py : R) :
  nodes (self w) = Some ns → ns !! i = Some nd →
  x nd = Some px → y nd = Some py → fx nd = None ∨ fy nd = None →
  0 <= maxSpeed (self w) →
  interval_callback c w = Some (c', w') →
  ∃ ns' nd' acc,
    let si := stepInterval_at (self w) (iter c) in
    let v := velocity (self w) acc si i in
    nodes (self w') = Some ns' ∧ ns' !! i = Some nd'
    ∧ x nd' = Some (px + v.1 * si) ∧ y nd' = Some (py + v.2 * si)
    ∧ v.1 * si * (v.1 * si) + v.2 * si * (v.2 * si)
      <= maxSpeed (self w) * si * (maxSpeed (self w) * si).
Proof.
  intros Hns Hnd Hx Hy Hfree Hmax Hcb.
  destruct (interval_callback_velocity c w ns _ Hns Hcb) as [acc Hr].
  set (si := stepInterval_at (self w) (iter c)) in *.
  set (vel := updateVelocity (self w) acc (replicate (2 * length ns) 0) si ns)
    in *.
  pose proof (self_finish_step c w ns (updatePosition vel si ns)) as Hself.
  rewrite <- Hr in Hself. cbn [snd] in Hself.
  assert (0.02 <= si) as Hsi by apply Rmax_l.
  destruct (updateVelocity_entries (self w) acc
              (replicate (2 * length ns) 0) si ns i) as [Hvx Hvy].
  { by eapply lookup_lt_Some. }
  { by rewrite length_replicate. }
  fold vel in Hvx, Hvy.
  pose proof (velocity_capped (self w) acc si i Hmax) as Hn.
  pose proof (norm_square (velocity (self w) acc si i)) as Hsq.
  pose proof (norm_nonneg (velocity (self w) acc si i)) as Hn0.
  exists (updatePosition vel si ns), (move vel si i nd), acc. cbv zeta.
  fold si. set (v := velocity (self w) acc si i) in *.
  assert (move vel si i nd
          = set_xy (px + v.1 * si) (py + v.2 * si) nd) as Hmove.
  { unfold move. rewrite Hvx, Hvy, Hx, Hy. cbn [num default].
    destruct Hfree as [-> | ->]; [done|]. by destruct (fx nd). }
  split_and!.
  - by rewrite Hself.
  - by apply updatePosition_lookup.
  - by rewrite Hmove.
  - by rewrite Hmove.
  - replace (v.1 * si * (v.1 * si) + v.2 * si * (v.2 * si))
      with (si * si * (norm v * norm v)) by (rewrite Hsq; ring).
    replace (maxSpeed (self w) * si * (maxSpeed (self w) * si))
      with (si * si * (maxSpeed (self w) * maxSpeed (self w))) by ring.
    apply Rmult_le_compat_l; [nra|]. nra.
Qed.

Lemma free_node_step_bounded_witness :
  ∃ c' w' ns' nd' acc,
    interval_callback pinned_pair_closure pinned_pair_world = Some (c', w')
    ∧ nodes (self w') = Some ns' ∧ ns' !! 1%nat = Some nd'
    ∧ x nd'
      = Some (100
              + (velocity (self pinned_pair_world) acc
                   (stepInterval_at (self pinned_pair_world) 0) 1).1
                * stepInterval_at (self pinned_pair_world) 0).
Proof.
  destruct (interval_callback_is_Some pinned_pair_closure pinned_pair_world
              pinned_pair pinned_pair_ready eq_refl) as [vel Hcb].
  destruct (finish_step pinned_pair_closure pinned_pair_world pinned_pair _)
    as [c' w'] eqn:Hstep.
  destruct (free_node_step_bounded pinned_pair_closure c' pinned_pair_world w'
              pinned_pair 1 (node_at "b" 100 0) 100 0)
    as (ns' & nd' & acc & Hn & Hl & Hx & _).
  - reflexivity.
  - reflexivity.
  - reflexivity.
  - reflexivity.
  - left. reflexivity.
  - simpl. lra.
  - exact Hcb.
  - exists c', w', ns', nd', acc.
    split; [exact Hcb|]. split; [exact Hn|]. split; [exact Hl|exact Hx].
Defined.

(** *** Options, step length and mass *)

(** X21.  A numeric option never yields zero.  For a value that is a
    number or is absent, the function [proccessToFunc] returns never
    answers 0: a number that is 0 counts as absent, and an absent value
    gives the default, or 1 when the default is itself 0 or absent. *)
Theorem proccessToFunc_never_zero
    {A : Type} (v : R) (defaultV : option R) (d : A) :
  proccessToFunc (Num v) defaultV d ≠ 0
  ∧ proccessToFunc Undefined defaultV d ≠ 0
  ∧ proccessToFunc (Num 0) defaultV d = proccessToFunc Undefined defaultV d
  ∧ proccessToFunc Undefined None d = 1
  ∧ proccessToFunc Undefined (Some 0) d = 1.
Proof.
  assert (∀ dv : option R, (if truthy dv then num dv else 1) ≠ 0) as Hdef.
  { intros [r|]; simpl; [|lra]. case_bool_decide; simpl; [done|lra]. }
  unfold proccessToFunc. split_and!.
  - case_bool_decide; [apply Hdef|done].
  - apply Hdef.
  - by rewrite bool_decide_eq_true_2.
  - done.
  - simpl. by rewrite bool_decide_eq_false_2 by (intros Hne; by apply Hne).
Qed.

(** X22.  The step length decays to a floor.  The step length of
    iteration [it] is never below 0.02, never above the larger of 0.02
    and [interval], does not grow from one iteration to the next, and is
    0.02 as soon as [interval - 0.002 × it] has come down to it: with
    the default [interval] of 0.02, at every iteration. *)
Theorem stepInterval_decays (s : Layout) (it : nat) :
  0.02 <= stepInterval_at s it <= Rmax 0.02 (interval s)
  ∧ stepInterval_at s (S it) <= stepInterval_at s it
  ∧ (interval s - INR it * 0.002 <= 0.02 → stepInterval_at s it = 0.02)
  ∧ (interval s <= 0.02 → stepInterval_at s it = 0.02).
Proof.
  unfold stepInterval_at.
  pose proof (pos_INR it) as Hit. rewrite S_INR.
  split_and!.
  - apply Rmax_l.
  - apply Rle_max_compat_l. lra.
  - apply Rle_max_compat_l. lra.
  - intros Hle. by apply Rmax_left.
  - intros Hle. apply Rmax_left. lra.
Qed.

Lemma stepInterval_decays_witness :
  stepInterval_at (initial_layout [] [] 1000) 5 = 0.02.
Proof.
  destruct (stepInterval_decays (initial_layout [] [] 1000) 5)
    as (_ & _ & _ & Hfloor).
  apply Hfloor. simpl. lra.
Defined.

(** X23.  The default mass of a node is its degree, and 1 for an
    isolated node.  When no [getMass] is given, after [execute] (two
    nodes or more, unique identities) the mass of the node at index [i]
    is the entry of [degrees] at [i], or 1 when that entry is 0; so it
    is never below 1. *)
Theorem default_mass_is_degree
    (env : Env) (w : World) (ns : list INode) :
  nodes (self w) = Some ns → (2 ≤ length ns)%nat → NoDup (id <$> ns) →
  getMass (self w) = MassUnset →
  ∃ ns', nodes (self (execute env w)) = Some ns'
    ∧ ∀ i nd, ns' !! i = Some nd →
        ∃ dg, degrees (self (execute env w)) !! i = Some dg
              ∧ mass (self (execute env w)) nd = INR (Nat.max 1 dg)
              ∧ 1 <= mass (self (execute env w)) nd.
Proof.
  intros Hns Hlen Hnd Hmass.
  destruct (execute_many env w ns Hns Hlen)
    as (ns' & HF & Hnodes & _ & _ & _ & _ & Hm & Hidx & _ & Hdeg & _).
  exists ns'. split; [done|]. intros i nd Hi.
  apply seeded_ids in HF. rewrite <- HF in Hnd.
  pose proof (index_by_unique id ns' i nd Hnd Hi) as Hlook.
  destruct (lookup_lt_is_Some_2 (degrees (self (execute env w))) i)
    as [dg Hdg].
  { rewrite Hdeg, CircularFacts.getDegree_length. by eapply lookup_lt_Some. }
  exists dg. split; [done|].
  assert (mass (self (execute env w)) nd = INR (Nat.max 1 dg)) as ->.
  { unfold mass. rewrite Hm, Hmass, Hidx. unfold index_nodes.
    rewrite Hlook. cbn [mbind option_bind]. rewrite Hdg.
    destruct dg as [|m]; cbn [Nat.max]; [by rewrite INR_1|done]. }
  split; [done|]. rewrite <- INR_1. apply le_INR. lia.
Qed.

Lemma default_mass_is_degree_witness :
  ∃ ns', nodes (self pinned_pair_world) = Some ns'
    ∧ ∀ i nd, ns' !! i = Some nd →
        ∃ dg, degrees (self pinned_pair_world) !! i = Some dg
              ∧ mass (self pinned_pair_world) nd = INR (Nat.max 1 dg)
              ∧ 1 <= mass (self pinned_pair_world) nd.
Proof.
  apply (default_mass_is_degree browser
           (initial_world
              (initial_layout pinned_pair
                 [{| source := "a"; target := "b" |}] 1000))
           pinned_pair).
  - reflexivity.
  - simpl. lia.
  - apply (bool_decide_unpack _). vm_compute. exact I.
  - reflexivity.
Defined.

(** *** What a run writes *)

(** Two nodes that differ in their coordinates at most. *)
Definition same_but_moved (a b : INode) : Prop :=
  id b = id a ∧ fx b = fx a ∧ fy b = fy a ∧ size b = size a.

Lemma updatePosition_frame vel si ns :
  Forall2 same_but_moved ns (updatePosition vel si ns).
Proof.
  apply Forall2_same_length_lookup_2; [by rewrite updatePosition_length|].
  intros i a b Ha Hb. rewrite (updatePosition_lookup vel si ns i a Ha) in Hb.
  injection Hb as <-.
  assert (∀ px py, same_but_moved a (set_xy px py a)) as Hset by done.
  unfold move. destruct (fx a), (fy a); apply Hset.
Qed.

Lemma set_nodes_set_nodes ns ns' s :
  set_nodes ns' (set_nodes ns s) = set_nodes ns' s.
Proof. done. Qed.

Lemma set_nodes_same s ns : nodes s = ns → set_nodes ns s = s.
Proof. intros <-. by destruct s. Qed.

(** X29.  A run writes positions only.  However many turns the
    scheduler takes on whatever interval, and whether the callback
    returns or throws, the layout object afterwards is the one before
    with a new node array: no configuration field changes, and the array
    holds the same nodes in the same order, with the same identity,
    [fx], [fy] and size; only their [x] and [y] may differ. *)
Theorem run_writes_positions_only
    (n t : nat) (w : World) (ns : list INode) :
  nodes (self w) = Some ns →
  ∃ ns', self (turns n t w) = set_nodes (Some ns') (self w)
         ∧ Forall2 same_but_moved ns ns'.
Proof.
  revert w ns. induction n as [|n IH]; intros w ns Hns.
  - exists ns. split; [by rewrite set_nodes_same|].
    apply Forall_Forall2_diag, Forall_true. by intros a.
  - cbn [turns].
    assert (∃ ns1, self (fire t w) = set_nodes (Some ns1) (self w)
                   ∧ Forall2 same_but_moved ns ns1) as (ns1 & Hself & HF).
    { unfold fire. destruct (timers w !! t) as [c|].
      - destruct (interval_callback c w) as [[c' w']|] eqn:Hcb.
        + destruct (interval_callback_finish c w ns _ Hns Hcb) as [vel Hr].
          pose proof (self_finish_step c w ns
                        (updatePosition vel
                           (stepInterval_at (self w) (iter c)) ns)) as Hs.
          rewrite <- Hr in Hs. cbn [snd] in Hs. cbn [self].
          eexists. split; [exact Hs|apply updatePosition_frame].
        + exists ns. split; [by rewrite set_nodes_same|].
          apply Forall_Forall2_diag, Forall_true. by intros a.
      - exists ns. split; [by rewrite set_nodes_same|].
        apply Forall_Forall2_diag, Forall_true. by intros a. }
    destruct (IH (fire t w) ns1) as (ns' & Hself' & HF').
    { by rewrite Hself. }
    exists ns'. split.
    + by rewrite Hself', Hself, set_nodes_set_nodes.
    + eapply Forall2_trans; [|exact HF|exact HF'].
      intros a b c (Ha1 & Ha2 & Ha3 & Ha4) (Hb1 & Hb2 & Hb3 & Hb4).
      unfold same_but_moved. by rewrite Hb1, Hb2, Hb3, Hb4.
Qed.

Lemma run_writes_positions_only_witness :
  ∃ ns', self (turns 4 1 pinned_pair_world)
         = set_nodes (Some ns') (self pinned_pair_world)
         ∧ Forall2 same_but_moved pinned_pair ns'.
Proof.
  apply (run_writes_positions_only 4 1 pinned_pair_world pinned_pair).
  reflexivity.
Defined.

End GForceMore.

(** ** The d3 force layout: ticks, and the control flow around d3 *)
Module ForceMore.
Local Open Scope R_scope.
Local Open Scope list_scope.

(** [getSimulationTicks], on the four numbers it reads from the
    simulation.  In JavaScript the logarithm of a number that is not
    positive is not a number: the definition is meant for
    [alphaTarget < alphaMin < alpha] and [0 < alphaDecay < 1]. *)
Definition getSimulationTicks (alphaMin alphaTarget alpha alphaDecay : R)
    : Z :=
  let totalTicksFloat :=
    ln ((alphaMin - alphaTarget) / (alpha - alphaTarget))
    / ln (1 - alphaDecay) in
  Zceil totalTicksFloat.






(** *** execute, updateCfg, destroy and the end of a simulation

    The simulation and its forces belong to d3-force.  What [execute]
    builds between the creation of the forces and the registration of
    the link force is an argument of the model: the simulation, or
    nothing when one of these calls throws.  The calls made on the
    simulation afterwards, [postMessage] and [console.warn] are logged as
    effects and taken to return.  The layout is modelled by the fields
    the control flow reads or writes; the other fields only travel to
    d3-force. *)
Section control.
Variable Simulation : Type.
(** [isInWorker()] *)
Variable inWorker : bool.
(** [simulation.alphaMin()], [.alphaTarget()], [.alpha()] and
    [.alphaDecay()] *)
Variables sim_alphaMin sim_alphaTarget sim_alpha sim_alphaDecay
  : Simulation → R.

Inductive Effect :=
| Warn                                  (* console.warn *)
| Collide                               (* overlapProcess(simulation) *)
| Register                              (* simulation.on("tick").on("end") *)
| Stop                                  (* simulation.stop() *)
| SimTick                               (* simulation.tick() *)
| PostTick (currentTick : nat) (totalTicks : Z)   (* postMessage *)
| Reload                                (* nodes and links handed over again *)
| Restart                               (* simulation.alpha(alpha).restart() *)
| LayoutEnd.                            (* self.onLayoutEnd() *)

Record Layout := {
  ticking : option bool;
  forceSimulation : option Simulation;
  workerEnabled : bool;
  preventOverlap : bool;
  onLayoutEnd : bool;   (* is a callback installed *)
  destroyed : bool
}.

Definition set_ticking (t : option bool) (s : Layout) : Layout :=
  {| ticking := t; forceSimulation := forceSimulation s;
     workerEnabled := workerEnabled s; preventOverlap := preventOverlap s;
     onLayoutEnd := onLayoutEnd s; destroyed := destroyed s |}.

Definition totalTicks (simulation : Simulation) : Z :=
  getSimulationTicks (sim_alphaMin simulation) (sim_alphaTarget simulation)
    (sim_alpha simulation) (sim_alphaDecay simulation).

(** [for (let currentTick = 1; currentTick <= totalTicks; currentTick++)] *)
Definition worker_loop (total : Z) : list Effect :=
  mjoin ((λ currentTick, [SimTick; PostTick currentTick total])
           <$> seq 1 (Z.to_nat total)).

Definition execute (built : option Simulation) (reloadData : bool)
    (self : Layout) : Layout * list Effect :=
  if bool_decide (ticking self = Some true) then (self, []) else
  match forceSimulation self with
  | None =>
      match built with
      | Some simulation =>
          let warn := workerEnabled self && negb inWorker in
          let worker := if warn then false else workerEnabled self in
          ({| ticking := Some true; forceSimulation := Some simulation;
              workerEnabled := worker; preventOverlap := preventOverlap self;
              onLayoutEnd := onLayoutEnd self; destroyed := destroyed self |},
           (if warn then [Warn] else [])
           ++ (if negb worker then [Register]
               else Stop :: worker_loop (totalTicks simulation)))
      | None => (set_ticking (Some false) self, [Warn])
      end
  | Some simulation =>
      (set_ticking (Some true) self,
       (if reloadData then [Reload] else [])
       ++ (if preventOverlap self then [Collide] else [])
       ++ [Restart])
  end.

(** The handler [execute] registers for the end of the simulation. *)
Definition end_event (self : Layout) : Layout * list Effect :=
  (set_ticking (Some false) self,
   if onLayoutEnd self then [LayoutEnd] else []).

(** [if (self.ticking) { self.forceSimulation.stop(); self.ticking =
    false; }]: a [TypeError] when there is no simulation to stop. *)
Definition stop_if_ticking (self : Layout) : option (Layout * list Effect) :=
  if bool_decide (ticking self = Some true) then
    match forceSimulation self with
    | Some _ => Some (set_ticking (Some false) self, [Stop])
    | None => None
    end
  else Some (self, []).

(** The options [updateCfg] may assign, among the fields of the model. *)
Record Cfg := {
  cfg_forceSimulation : option (option Simulation);
  cfg_workerEnabled : option bool;
  cfg_preventOverlap : option bool;
  cfg_onLayoutEnd : option bool
}.

Definition updateCfg (cfg : Cfg) (self : Layout)
    : option (Layout * list Effect) :=
  '(s, effects) ← stop_if_ticking self;
  Some ({| ticking := ticking s;
           forceSimulation := default None (cfg_forceSimulation cfg);
           workerEnabled := default (workerEnabled s) (cfg_workerEnabled cfg);
           preventOverlap :=
             default (preventOverlap s) (cfg_preventOverlap cfg);
           onLayoutEnd := default (onLayoutEnd s) (cfg_onLayoutEnd cfg);
           destroyed := destroyed s |}, effects).

Definition destroy (self : Layout) : option (Layout * list Effect) :=
  '(s, effects) ← stop_if_ticking self;
  Some ({| ticking := ticking s; forceSimulation := forceSimulation s;
           workerEnabled := workerEnabled s;
           preventOverlap := preventOverlap s;
           onLayoutEnd := onLayoutEnd s; destroyed := true |}, effects).

(** [init(data)]: besides the nodes and the edges, [ticking = false]. *)
Definition init (self : Layout) : Layout := set_ticking (Some false) self.

(** The calls a client and d3-force can make on a layout. *)
Inductive Call :=
| Init
| Execute (built : option Simulation) (reloadData : bool)
| UpdateCfg (cfg : Cfg)
| Destroy
| End.

Definition call (c : Call) (self : Layout) : option (Layout * list Effect) :=
  match c with
  | Init => Some (init self, [])
  | Execute built reloadData => Some (execute built reloadData self)
  | UpdateCfg cfg => updateCfg cfg self
  | Destroy => destroy self
  | End => Some (end_event self)
  end.

Fixpoint calls (cs : list Call) (self : Layout)
    : option (Layout * list Effect) :=
  match cs with
  | [] => Some (self, [])
  | c :: cs' =>
      '(s, effects) ← call c self;
      '(s', effects') ← calls cs' s;
      Some (s', effects ++ effects')
  end.

(** A layout that is ticking has a simulation. *)
Definition has_simulation (self : Layout) : Prop :=
  ticking self = Some true → is_Some (forceSimulation self).

Lemma stop_if_ticking_safe self :
  has_simulation self →
  ∃ s effects, stop_if_ticking self = Some (s, effects)
               ∧ ticking s ≠ Some true.
Proof.
  intros Hs. unfold stop_if_ticking. case_bool_decide as Ht.
  - destruct (Hs Ht) as [sim ->]. by eexists _, _.
  - by eexists _, _.
Qed.

Lemma call_safe c self :
  has_simulation self →
  ∃ s effects, call c self = Some (s, effects) ∧ has_simulation s.
Proof.
  intros Hs. destruct c as [|built reloadData|cfg| |]; simpl.
  - eexists _, _. split; [done|]. intros [=].
  - unfold execute. case_bool_decide as Ht; [by eexists _, _|].
    destruct (forceSimulation self) as [sim|] eqn:Hsim.
    + eexists _, _. split; [done|]. intros _. simpl. by rewrite Hsim.
    + destruct built as [sim|]; eexists _, _; (split; [done|]).
      * intros _. by eexists.
      * intros [=].
  - unfold updateCfg.
    destruct (stop_if_ticking_safe self Hs) as (s & effects & -> & Ht).
    simpl. eexists _, _. split; [done|]. intros Ht'. done.
  - unfold destroy.
    destruct (stop_if_ticking_safe self Hs) as (s & effects & -> & Ht).
    simpl. eexists _, _. split; [done|]. intros Ht'. done.
  - eexists _, _. split; [done|]. intros [=].
Qed.

(** X25.  No call dereferences a missing simulation.  On a layout that
    has a simulation whenever it is ticking (a new layout is not
    ticking), any sequence of [init], [execute], [updateCfg], [destroy]
    and end-of-simulation events returns: [updateCfg] and [destroy]
    never call [stop] on a simulation that is not there; and the layout
    they leave is again one that has a simulation whenever it is
    ticking. *)
Theorem calls_never_miss_simulation (cs : list Call) (self : Layout) :
  has_simulation self →
  ∃ s effects, calls cs self = Some (s, effects) ∧ has_simulation s.
Proof.
  revert self. induction cs as [|c cs IH]; intros self Hs; simpl.
  - by eexists _, _.
  - destruct (call_safe c self Hs) as (s1 & e1 & -> & Hs1). simpl.
    destruct (IH s1 Hs1) as (s2 & e2 & -> & Hs2). simpl.
    by eexists _, _.
Qed.


(** X27.  The simulation is built once.  Outside a worker, [execute] on
    a layout that is not ticking and has no simulation registers the
    tick and end handlers on the simulation it has built and sets
    [ticking]; when the simulation ends, the handler clears [ticking] and
    calls [onLayoutEnd] once; the next [execute] keeps that simulation
    and restarts it, whatever would have been built. *)
Theorem simulation_built_once
    (simulation : Simulation) (reloadData : bool) (self : Layout)
    (built' : option Simulation) (reloadData' : bool) :
  inWorker = false →
  ticking self ≠ Some true → forceSimulation self = None →
  let r1 := execute (Some simulation) reloadData self in
  let r2 := end_event r1.1 in
  let r3 := execute built' reloadData' r2.1 in
  r1.2 = (if workerEnabled self then [Warn] else []) ++ [Register]
  ∧ ticking r1.1 = Some true
  ∧ r2.2 = (if onLayoutEnd self then [LayoutEnd] else [])
  ∧ ticking r2.1 = Some false
  ∧ forceSimulation r3.1 = Some simulation
  ∧ ticking r3.1 = Some true
  ∧ r3.2 = (if reloadData' then [Reload] else [])
           ++ (if preventOverlap self then [Collide] else [])
           ++ [Restart].
Proof.
  intros Hw Ht Hsim. cbv zeta.
  assert (execute (Some simulation) reloadData self
          = ({| ticking := Some true; forceSimulation := Some simulation;
                workerEnabled := false;
                preventOverlap := preventOverlap self;
                onLayoutEnd := onLayoutEnd self;
                destroyed := destroyed self |},
             (if workerEnabled self then [Warn] else []) ++ [Register]))
    as ->.
  { unfold execute. rewrite bool_decide_eq_false_2 by done.
    rewrite Hsim, Hw, andb_true_r. by destruct (workerEnabled self). }
  unfold end_event, execute, set_ticking. cbn.
  rewrite bool_decide_eq_false_2 by done. cbn. split_and!; done.
Qed.

End control.

(** A layout as its constructor leaves it. *)
Definition new_layout : Layout unit :=
  {| ticking := None; forceSimulation := None; workerEnabled := false;
     preventOverlap := false; onLayoutEnd := true; destroyed := false |}.

Definition no_cfg : Cfg unit :=
  {| cfg_forceSimulation := None; cfg_workerEnabled := None;
     cfg_preventOverlap := None; cfg_onLayoutEnd := None |}.

Lemma calls_never_miss_simulation_witness :
  ∃ s effects,
    calls unit false (λ _, 0.001) (λ _, 0) (λ _, 0.3) (λ _, 0.028)
      [Init unit; Execute unit (Some ()) false; UpdateCfg unit no_cfg;
       Execute unit None false; Destroy unit]
      new_layout
    = Some (s, effects)
    ∧ has_simulation unit s.
Proof.
  apply (calls_never_miss_simulation unit false
           (λ _, 0.001) (λ _, 0) (λ _, 0.3) (λ _, 0.028)).
  intros Ht. discriminate Ht.
Defined.


Lemma simulation_built_once_witness :
  forceSimulation unit
    (execute unit false (λ _, 0.001) (λ _, 0) (λ _, 0.3) (λ _, 0.028)
       None true
       (end_event unit
          (execute unit false (λ _, 0.001) (λ _, 0) (λ _, 0.3) (λ _, 0.028)
             (Some ()) false new_layout).1).1).1
  = Some ().
Proof.
  destruct (simulation_built_once unit false
              (λ _, 0.001) (λ _, 0) (λ _, 0.3) (λ _, 0.028)
              () false new_layout None true)
    as (_ & _ & _ & _ & Hsim & _).
  - reflexivity.
  - discriminate.
  - reflexivity.
  - exact Hsim.
Defined.

End ForceMore.
